(** * api-documenter: hierarchy resolver, member resolver, page router and
      markdown emitter

    A shallow embedding of the core of [src/documenters/markdownDocumenter.ts]
    and of [src/markdown/markdownEmitter.ts] and
    [src/markdown/customMarkdownEmitter.ts], with the properties of the
    natural-language specification stated over it.

    Conventions of the embedding.
    - A JavaScript string is a [string]: a sequence of code units below 256.
    - An object reference is told apart by its [uid]; [===] on declarations
      and the key equality of [Map<ApiItem, _>] compare uids.
    - A JavaScript [Map] that is iterated is an insertion-ordered association
      list ([JsMap]); the type table, which is only looked up, is a [gmap].
    - [undefined] is [None]; a thrown exception is [Throw].
    - A loop that the code does not bound takes fuel and answers [None] when
      it runs out; a loop over a finite structure is given the size of the
      structure.
    - The collation behind [localeCompare], the TypeScript parser and the
      working directory belong to the host ([Host]); the functions of
      api-extractor-model, tsdoc and Node's [path] that the code calls are
      modelled next to it.

    The definitions come first, the properties after them, in the order
    C1, C2, C10, C7, C6, C5, C4, C3, C8, C9; further properties of the
    code, X1 to X24, follow them: escaping, text in tables and links,
    anchors and page paths, the type table, the inheritance map, code
    blocks, plain text, headings and the merge of members.  The layout of
    lists (C8 as amended, and X24 on type trees) comes last: it uses the
    facts on escaped text. *)

From Stdlib Require Import String Ascii List ZArith Lia Bool Arith.
From Stdlib Require Import Sorting.Sorted Sorting.Permutation OrderedTypeEx.
From stdpp Require Import base option list strings gmap.

Set Warnings "-register-all".

Local Open Scope string_scope.
Local Open Scope list_scope.

(** ** JavaScript strings *)

Module Js.

Definition code (c : ascii) : nat := nat_of_ascii c.

Definition between (lo hi n : nat) : bool := ((lo <=? n) && (n <=? hi))%nat.

(** [\w] of a regular expression: [[A-Za-z0-9_]]. *)
Definition isWordChar (c : ascii) : bool :=
  let n := code c in
  between 48 57 n || between 65 90 n || between 97 122 n || (n =? 95)%nat.

(** [\s] on code units below 256: tab, line feed, vertical tab, form feed,
    carriage return, space and no-break space. *)
Definition isSpace (c : ascii) : bool :=
  let n := code c in between 9 13 n || (n =? 32)%nat || (n =? 160)%nat.

(** Line terminators below 256, the characters [.] does not match. *)
Definition isLineTerminator (c : ascii) : bool :=
  let n := code c in (n =? 10)%nat || (n =? 13)%nat.

Definition lowerChar (c : ascii) : ascii :=
  let n := code c in
  if between 65 90 n || between 192 214 n || between 216 222 n
  then ascii_of_nat (n + 32) else c.

(** [String.prototype.toLowerCase]. *)
Fixpoint toLowerCase (s : string) : string :=
  match s with
  | EmptyString => EmptyString
  | String c s' => String (lowerChar c) (toLowerCase s')
  end.

(** [String.prototype.startsWith]. *)
Fixpoint startsWith (s p : string) {struct p} : bool :=
  match p with
  | EmptyString => true
  | String b p' =>
      match s with
      | EmptyString => false
      | String a s' => Ascii.eqb a b && startsWith s' p'
      end
  end.

(** [Array.prototype.join] on strings. *)
Fixpoint join (sep : string) (l : list string) : string :=
  match l with
  | [] => ""
  | [x] => x
  | x :: rest => x +:+ sep +:+ join sep rest
  end.

(** [String.prototype.split] with a one-character separator. *)
Fixpoint splitOn (sep : ascii) (s : string) : list string :=
  match s with
  | EmptyString => [""]
  | String c s' =>
      if Ascii.eqb c sep then "" :: splitOn sep s'
      else match splitOn sep s' with
           | [] => [String c ""]
           | x :: rest => String c x :: rest
           end
  end.

(** [String.prototype.repeat]. *)
Fixpoint repeat (s : string) (n : nat) : string :=
  match n with
  | O => ""
  | S n' => s +:+ repeat s n'
  end.

(** The last character, [''] when there is none ([substr(-1, 1)]). *)
Fixpoint lastChar (s : string) : option ascii :=
  match s with
  | EmptyString => None
  | String c EmptyString => Some c
  | String _ s' => lastChar s'
  end.

(** A string is truthy when it is not empty. *)
Definition truthy (s : string) : bool :=
  match s with EmptyString => false | _ => true end.

(** Decimal rendering of a number inside a template literal. *)
Fixpoint digitsFuel (fuel n : nat) (acc : string) : string :=
  match fuel with
  | O => acc
  | S fuel' =>
      let acc' := String (ascii_of_nat (48 + n mod 10)) acc in
      if (n / 10 =? 0)%nat then acc' else digitsFuel fuel' (n / 10) acc'
  end.

Definition numberToString (n : nat) : string := digitsFuel (S n) n "".

End Js.

(** ** The declaration forest ([@microsoft/api-extractor-model]) *)

Module ApiItemKind.
Inductive t : Set :=
  | CallSignature | Class | Constructor | ConstructSignature | EntryPoint
  | Enum | EnumMember | Function | IndexSignature | Interface | Method
  | MethodSignature | Model | Namespace | Package | Property
  | PropertySignature | TypeAlias | Variable_ | None.

Definition eqb (a b : t) : bool :=
  match a, b with
  | CallSignature, CallSignature | Class, Class | Constructor, Constructor
  | ConstructSignature, ConstructSignature | EntryPoint, EntryPoint
  | Enum, Enum | EnumMember, EnumMember | Function, Function
  | IndexSignature, IndexSignature | Interface, Interface | Method, Method
  | MethodSignature, MethodSignature | Model, Model | Namespace, Namespace
  | Package, Package | Property, Property
  | PropertySignature, PropertySignature | TypeAlias, TypeAlias
  | Variable_, Variable_ | None, None => true
  | _, _ => false
  end.
End ApiItemKind.

(** One node of the containment tree.  The optional fields are those of the
    mixins: [overloadIndex] is [Some] exactly for the items
    [ApiParameterListMixin.isBaseClassOf] accepts, [isStatic] is false where
    [ApiStaticMixin] is absent, [extendsType]/[implementsTypes] hold the
    excerpt texts of an [ApiClass] and [extendsTypes] those of an
    [ApiInterface]. *)
Inductive Declaration : Type := mkDeclaration {
  d_uid : N;
  d_kind : ApiItemKind.t;
  d_displayName : string;
  d_overloadIndex : option nat;
  d_isStatic : bool;
  d_isEventProperty : bool;
  d_extendsType : option string;
  d_implementsTypes : list string;
  d_extendsTypes : list string;
  d_members : list Declaration
}.

(** An [ApiItem] reference: the node together with the chain of its
    containers, nearest first ([parent], [parent.parent], ...). *)
Record ApiItem : Type := mkApiItem {
  ancestors : list Declaration;
  self : Declaration
}.

Definition uid (i : ApiItem) : N := d_uid (self i).
Definition kind (i : ApiItem) : ApiItemKind.t := d_kind (self i).
Definition displayName (i : ApiItem) : string := d_displayName (self i).
Definition overloadIndex (i : ApiItem) : option nat := d_overloadIndex (self i).
Definition isStatic (i : ApiItem) : bool := d_isStatic (self i).
Definition isEventProperty (i : ApiItem) : bool := d_isEventProperty (self i).
Definition extendsType (i : ApiItem) : option string := d_extendsType (self i).
Definition implementsTypes (i : ApiItem) : list string := d_implementsTypes (self i).
Definition extendsTypes (i : ApiItem) : list string := d_extendsTypes (self i).

(** [a === b] on object references. *)
Definition same (a b : ApiItem) : bool := N.eqb (uid a) (uid b).

Definition parent (i : ApiItem) : option ApiItem :=
  match ancestors i with
  | [] => Datatypes.None
  | p :: rest => Some {| ancestors := rest; self := p |}
  end.

Definition members (i : ApiItem) : list ApiItem :=
  map (fun d => {| ancestors := self i :: ancestors i; self := d |})
      (d_members (self i)).

(** [ApiItem.getHierarchy]: the item and its containers, outermost first. *)
Fixpoint hierarchyUp (anc : list Declaration) (d : Declaration) : list ApiItem :=
  {| ancestors := anc; self := d |} ::
  match anc with
  | [] => []
  | p :: rest => hierarchyUp rest p
  end.

Definition getHierarchy (i : ApiItem) : list ApiItem :=
  rev (hierarchyUp (ancestors i) (self i)).

Definition isWrapper (k : ApiItemKind.t) : bool :=
  match k with
  | ApiItemKind.Model | ApiItemKind.Package | ApiItemKind.EntryPoint => true
  | _ => false
  end.

(** [ApiItem.getScopedNameWithinPackage] (api-extractor-model 7.0): walk
    towards the root until a model, package or entry point is met; the item's
    own name is followed by [()] when it has a parameter list, the names of
    its containers are joined with dots. *)
Fixpoint scopedParts (first : bool) (d : Declaration) (anc : list Declaration)
  : list string :=
  if isWrapper (d_kind d) then []
  else
    let own :=
      if first
      then (if d_overloadIndex d is Some _ then ["()"] else []) ++ [d_displayName d]
      else ["."; d_displayName d] in
    own ++ match anc with
           | [] => []
           | p :: rest => scopedParts false p rest
           end.

Definition getScopedNameWithinPackage (i : ApiItem) : string :=
  Js.join "" (rev (scopedParts true (self i) (ancestors i))).

(** ** What the run-time environment supplies

    [String.prototype.localeCompare] (ICU collation), the TypeScript parser
    behind [ts.createSourceFile] and [process.cwd()] are not part of the
    repository; the embedding is parametric in them. *)

(** The only distinction [_extractBaseType] makes on a parsed type node:
    a [TypeReference], with the source text of its [typeName], or any other
    syntax kind. *)
Inductive TypeNode : Type :=
  | TypeReference (typeName : string)
  | OtherTypeNode.

Class Host : Type := {
  (** [a.localeCompare(b)]: negative, zero or positive. *)
  localeCompare : string -> string -> Z;
  (** The [type] of the first declaration of the first statement of the
      parsed source text. *)
  parseDeclaredType : string -> TypeNode;
  (** [process.cwd()], an absolute path. *)
  cwd : string
}.

(** ** Insertion-ordered maps and sets *)

Module JsMap.
Section Ops.
Context {K V : Type} (keq : K -> K -> bool).

Fixpoint get (k : K) (m : list (K * V)) : option V :=
  match m with
  | [] => None
  | (k', v) :: rest => if keq k' k then Some v else get k rest
  end.

Definition has (k : K) (m : list (K * V)) : bool :=
  if get k m is Some _ then true else false.

(** [set] overwrites in place, or appends a new entry at the end. *)
Fixpoint set (k : K) (v : V) (m : list (K * V)) : list (K * V) :=
  match m with
  | [] => [(k, v)]
  | (k', v') :: rest =>
      if keq k' k then (k', v) :: rest else (k', v') :: set k v rest
  end.
End Ops.

(** [new Set(array)]: first occurrences, in order. *)
Fixpoint setOf (l : list string) (seen : list string) : list string :=
  match l with
  | [] => []
  | x :: rest =>
      if existsb (String.eqb x) seen then setOf rest seen
      else x :: setOf rest (x :: seen)
  end.
End JsMap.

(** [Array.prototype.sort] with a comparator, as a stable insertion sort. *)
Section Sort.
Context {A : Type} (cmp : A -> A -> Z).

Fixpoint insertSorted (x : A) (l : list A) : list A :=
  match l with
  | [] => [x]
  | y :: rest =>
      if (cmp x y <=? 0)%Z then x :: y :: rest else y :: insertSorted x rest
  end.

Definition sort (l : list A) : list A := fold_right insertSorted [] l.
End Sort.

(** ** [path] (POSIX flavour of Node's module) *)

Module Path.

Definition isAbsolute (p : string) : bool := Js.startsWith p "/".

(** One step of [normalizeString] on an absolute path: the stack holds the
    segments kept so far, innermost first. *)
Definition normStep (stack : list string) (seg : string) : list string :=
  if String.eqb seg "" || String.eqb seg "." then stack
  else if String.eqb seg ".." then tail stack
  else seg :: stack.

Definition normalizeAbs (segs : list string) : list string :=
  rev (fold_left normStep segs []).

(** [path.resolve(...paths)]: join from the right until an absolute path is
    met, fall back on the working directory, normalise. *)
Fixpoint resolveJoin (paths : list string) : string :=
  match paths with
  | [] => ""
  | p :: rest =>
      let right := resolveJoin rest in
      if Path.isAbsolute right then right
      else if Js.truthy p then p +:+ "/" +:+ right else right
  end.

Definition resolveSegs `{Host} (paths : list string) : list string :=
  let joined := resolveJoin paths in
  normalizeAbs (Js.splitOn "/" (if isAbsolute joined then joined
                                 else cwd +:+ "/" +:+ joined)).

Definition resolve `{Host} (paths : list string) : string :=
  "/" +:+ Js.join "/" (resolveSegs paths).

Fixpoint commonPrefix (a b : list string) : nat :=
  match a, b with
  | x :: a', y :: b' => if String.eqb x y then S (commonPrefix a' b') else 0
  | _, _ => 0
  end.

(** [path.relative(from, to)]. *)
Definition relative `{Host} (from to : string) : string :=
  if String.eqb from to then ""
  else
    let f := resolveSegs [from] in
    let t := resolveSegs [to] in
    let k := commonPrefix f t in
    Js.join "/" (List.repeat ".." (length f - k) ++ drop k t).

(** [path.dirname]: scan from the right for the first separator that
    follows a non-separator; the first character is never inspected. *)
Fixpoint dirnameEnd (rev_tail : list ascii) (matchedSlash : bool)
  : option (list ascii) :=
  match rev_tail with
  | [] => None
  | c :: rest =>
      if Ascii.eqb c "/"
      then (if matchedSlash then dirnameEnd rest true else Some rest)
      else dirnameEnd rest false
  end.

Definition dirname (p : string) : string :=
  match p with
  | EmptyString => "."
  | String c0 s' =>
      let hasRoot := Ascii.eqb c0 "/" in
      match dirnameEnd (rev (list_ascii_of_string s')) true with
      | None => if hasRoot then "/" else "."
      | Some before =>
          if hasRoot && (length before =? 0)%nat then "//"
          else String c0 (string_of_list_ascii (rev before))
      end
  end.

End Path.

(** ** [MarkdownDocumenter]: context types *)

(** A value of type [ApiItem | string]. *)
Inductive ItemOrString : Type :=
  | Item (apiItem : ApiItem)
  | Str (text : string).

(** Truthiness of an optional [ApiItem | string]: objects are truthy, a
    string is truthy when not empty, [undefined] is falsy. *)
Definition truthyRef (r : option ItemOrString) : bool :=
  match r with
  | Some (Item _) => true
  | Some (Str s) => Js.truthy s
  | None => false
  end.

(** [a === b] on [ApiItem | string]. *)
Definition sameRef (a b : ItemOrString) : bool :=
  match a, b with
  | Item x, Item y => same x y
  | Str s, Str t => String.eqb s t
  | _, _ => false
  end.

Record Refs : Type := mkRefs {
  parentClass : option ItemOrString;
  childClasses : list ItemOrString;
  parentInterfaces : list ItemOrString;
  childInterfaces : list ItemOrString
}.

Inductive TreeNode : Type := mkTreeNode {
  item : ItemOrString;
  children : list TreeNode
}.

Record ResolvedMember : Type := mkResolvedMember {
  ownMember : option ApiItem;
  parents : list ApiItem
}.

(** [Map<ApiItem, Refs>], keyed by object identity. *)
Definition InheritanceMap : Type := list (ApiItem * Refs).

Definition inheritanceGet (k : ApiItem) (m : InheritanceMap) : option Refs :=
  JsMap.get same k m.

Definition inheritanceSet (k : ApiItem) (v : Refs) (m : InheritanceMap)
  : InheritanceMap := JsMap.set same k v m.

(** ** Breadth-first traversal of the forest

    [while (children.length > 0) { child = children.shift(); ...;
    children.push(...child.members) }].  Every iteration removes one node of
    a finite forest, so the number of nodes is enough fuel. *)

Fixpoint declarationSize (d : Declaration) : nat :=
  S ((fix total (l : list Declaration) : nat :=
        match l with
        | [] => 0
        | x :: rest => declarationSize x + total rest
        end) (d_members d)).

Definition forestSize (l : list ApiItem) : nat :=
  list_sum (map (fun i => declarationSize (self i)) l).

Fixpoint visitBreadthFirst {S : Type} (fuel : nat) (visit : S -> ApiItem -> S)
    (children : list ApiItem) (st : S) : S :=
  match fuel, children with
  | Datatypes.S fuel', child :: rest =>
      visitBreadthFirst fuel' visit (rest ++ members child) (visit st child)
  | _, _ => st
  end.

(** ** Type table *)

Definition typeMappingVisit (map : gmap string ApiItem) (child : ApiItem)
  : gmap string ApiItem :=
  match kind child with
  | ApiItemKind.Class | ApiItemKind.Enum | ApiItemKind.Interface
  | ApiItemKind.TypeAlias => <[getScopedNameWithinPackage child := child]> map
  | _ => map
  end.

Definition _generateTypeMapping (apiPackage : ApiItem) : gmap string ApiItem :=
  let children := members apiPackage in
  visitBreadthFirst (forestSize children) typeMappingVisit children ∅.

(** ** Type resolution *)

(** [/^[\w_]/.test(type)]. *)
Definition startsWithWordChar (type : string) : bool :=
  match type with
  | String c _ => Js.isWordChar c
  | EmptyString => false
  end.

Definition candidateName (type : string) (apiItem : ApiItem) : string :=
  let itemName := getScopedNameWithinPackage apiItem in
  if Js.truthy itemName then itemName +:+ "." +:+ type else type.

Fixpoint firstInTypeMap (typeMap : gmap string ApiItem) (candidates : list string)
  : option ApiItem :=
  match candidates with
  | [] => None
  | name :: rest =>
      match typeMap !! name with
      | Some found => Some found
      | None => firstInTypeMap typeMap rest
      end
  end.

Definition _resolveType (typeMap : gmap string ApiItem) (originItem : ApiItem)
    (type : string) : option ApiItem :=
  if negb (startsWithWordChar type) then None
  else
    let candidates :=
      JsMap.setOf (rev (map (candidateName type) (getHierarchy originItem))) [] in
    firstInTypeMap typeMap candidates.

Definition _getType `{Host} (type : string) : TypeNode :=
  parseDeclaredType ("const a:" +:+ type).

Definition _extractBaseType `{Host} (typeMap : gmap string ApiItem)
    (originItem : ApiItem) (type : string) : option ItemOrString :=
  match _getType type with
  | TypeReference typeText =>
      Some (match _resolveType typeMap originItem typeText with
            | Some resolved => Item resolved
            | None => Str typeText
            end)
  | OtherTypeNode => None
  end.

(** ** Inheritance graph *)

Definition emptyRefs : Refs :=
  {| parentClass := None; childClasses := []; parentInterfaces := [];
     childInterfaces := [] |}.

(** The loop over [implementsTypes] / [extendsTypes]: falsy results are not
    pushed. *)
Definition resolveInterfaces `{Host} (typeMap : gmap string ApiItem)
    (child : ApiItem) (texts : list string) : list ItemOrString :=
  fold_left
    (fun acc parentInterfaceText =>
       let resolvedBaseInterface :=
         _extractBaseType typeMap child parentInterfaceText in
       match resolvedBaseInterface with
       | Some r => if truthyRef resolvedBaseInterface then acc ++ [r] else acc
       | None => acc
       end)
    texts [].

Definition forwardVisit `{Host} (typeMap : gmap string ApiItem)
    (map : InheritanceMap) (child : ApiItem) : InheritanceMap :=
  match kind child with
  | ApiItemKind.Class =>
      let parentClass :=
        match extendsType child with
        | Some parentClassText => _extractBaseType typeMap child parentClassText
        | None => None
        end in
      inheritanceSet child
        {| parentClass := parentClass;
           childClasses := [];
           parentInterfaces := resolveInterfaces typeMap child (implementsTypes child);
           childInterfaces := [] |} map
  | ApiItemKind.Interface =>
      inheritanceSet child
        {| parentClass := None;
           childClasses := [];
           parentInterfaces := resolveInterfaces typeMap child (extendsTypes child);
           childInterfaces := [] |} map
  | _ => map
  end.

Definition refsOrEmpty (k : ApiItem) (map : InheritanceMap) : Refs :=
  match inheritanceGet k map with
  | Some refs => refs
  | None => emptyRefs
  end.

(** [refs.childClasses.push(child)] and [refs.childInterfaces.push(child)]. *)
Definition pushChildClass (refs : Refs) (child : ApiItem) : Refs :=
  {| parentClass := parentClass refs;
     childClasses := childClasses refs ++ [Item child];
     parentInterfaces := parentInterfaces refs;
     childInterfaces := childInterfaces refs |}.

Definition pushChildInterface (refs : Refs) (child : ApiItem) : Refs :=
  {| parentClass := parentClass refs;
     childClasses := childClasses refs;
     parentInterfaces := parentInterfaces refs;
     childInterfaces := childInterfaces refs ++ [Item child] |}.

(** The body of the reverse-pointer loop for one entry [child]. *)
Definition reverseEdges (child : ApiItem) (entry : Refs) (map : InheritanceMap)
  : InheritanceMap :=
  let map1 :=
    match parentClass entry with
    | Some (Item parent) =>
        let refs := refsOrEmpty parent map in
        inheritanceSet parent (pushChildInterface refs child) map
    | _ => map
    end in
  fold_left
    (fun m parentInterface =>
       match parentInterface with
       | Str _ => m
       | Item parent =>
           let refs := refsOrEmpty parent m in
           inheritanceSet parent
             (if ApiItemKind.eqb (kind child) ApiItemKind.Class
              then pushChildClass refs child
              else pushChildInterface refs child)
             m
       end)
    (parentInterfaces entry) map1.

(** [for (const [child, { parentClass, parentInterfaces }] of map)]: the
    iteration follows insertion order and also reaches the entries that the
    body appends.  An entry adds at most one new key per parent it names and
    an appended entry names none, which bounds the number of iterations. *)
Fixpoint reversePass (fuel i : nat) (map : InheritanceMap) : InheritanceMap :=
  match fuel with
  | O => map
  | S fuel' =>
      match map !! i with
      | None => map
      | Some (child, entry) =>
          reversePass fuel' (S i) (reverseEdges child entry map)
      end
  end.

Definition reversePassFuel (map : InheritanceMap) : nat :=
  length map +
  list_sum (List.map (fun e => S (length (parentInterfaces (snd e)))) map).

Definition _generateClassHierarchy `{Host} (typeMap : gmap string ApiItem)
    (apiPackage : ApiItem) : InheritanceMap :=
  let children := members apiPackage in
  let map :=
    visitBreadthFirst (forestSize children) (forwardVisit typeMap) children [] in
  reversePass (reversePassFuel map) 0 map.

(** ** Member resolution *)

(** One ring of the upward walk: the members seen at distance [level]. *)
Record Level : Type := mkLevel {
  level : nat;
  alternates : list ApiItem
}.

Definition MemberLevels : Type := list (string * list Level).

(** The body of [for (const member of current.members)].  A hierarchy is
    created with one level and only grows, so [hierarchy[length - 1]] is
    always defined; the embedding leaves the map alone in the other case. *)
Definition recordMember (lvl : nat) (byName : MemberLevels) (member : ApiItem)
  : MemberLevels :=
  let name := displayName member in
  match JsMap.get String.eqb name byName with
  | None =>
      JsMap.set String.eqb name [ {| level := lvl; alternates := [member] |} ]
        byName
  | Some hierarchy =>
      match last hierarchy with
      | None => byName
      | Some lastLevel =>
          if negb (level lastLevel =? lvl)%nat
          then JsMap.set String.eqb name
                 (hierarchy ++ [ {| level := lvl; alternates := [member] |} ])
                 byName
          else JsMap.set String.eqb name
                 (removelast hierarchy ++
                  [ {| level := level lastLevel;
                       alternates := alternates lastLevel ++ [member] |} ])
                 byName
      end
  end.

(** [refs.parentClass ? [refs.parentClass] : []], then
    [...refs.parentInterfaces]. *)
Definition parentsOf (refs : Refs) : list ItemOrString :=
  (if truthyRef (parentClass refs)
   then match parentClass refs with Some p => [p] | None => [] end
   else []) ++ parentInterfaces refs.

(** The [while (currentLevel.length > 0)] loop.  No node is remembered, so
    the loop is given fuel: [None] when it runs out. *)
Fixpoint inheritedLoop (fuel : nat) (inheritanceMap : InheritanceMap)
    (lvl : nat) (currentLevel nextLevel : list ItemOrString)
    (byName : MemberLevels) : option MemberLevels :=
  match currentLevel with
  | [] => Some byName
  | current :: rest =>
      match fuel with
      | O => None
      | S fuel' =>
          let '(byName', nextLevel') :=
            match current with
            | Str _ => (byName, nextLevel)
            | Item current =>
                (fold_left (recordMember lvl) (members current) byName,
                 nextLevel ++
                 match inheritanceGet current inheritanceMap with
                 | Some refs => parentsOf refs
                 | None => []
                 end)
            end in
          match rest with
          | [] => inheritedLoop fuel' inheritanceMap (lvl + 1) nextLevel' []
                    byName'
          | _ => inheritedLoop fuel' inheritanceMap lvl rest nextLevel'
                   byName'
          end
      end
  end.

(** The closing [new Map(Array.from(members).map(...))]. *)
Definition flattenLevels (byName : MemberLevels) : list (string * list ApiItem) :=
  map (fun kv => (fst kv, concat (map alternates (snd kv)))) byName.

Definition _getInheritedMembers (fuel : nat) (inheritanceMap : InheritanceMap)
    (apiItem : ApiItem) : option (list (string * list ApiItem)) :=
  let currentLevel :=
    match inheritanceGet apiItem inheritanceMap with
    | Some refs => parentsOf refs
    | None => []
    end in
  flattenLevels <$> inheritedLoop fuel inheritanceMap 1 currentLevel [] [].

(** An element of [inheritedMembers]: [{ first: v[0], chain: v }]. *)
Record Inherited : Type := mkInherited {
  first : option ApiItem;
  chain : list ApiItem
}.

(** [nextInheritedMember.first.displayName]; [first] is defined because no
    chain is empty. *)
Definition firstName (i : Inherited) : string :=
  match first i with
  | Some f => displayName f
  | None => ""
  end.

(** The merge loop of [_getResolvedMembers]. *)
Fixpoint mergeMembers `{Host} (ownMembers : list ApiItem)
  : list Inherited -> list ResolvedMember :=
  fix inherited (inheritedMembers : list Inherited) : list ResolvedMember :=
    match ownMembers, inheritedMembers with
    | [], [] => []
    | [], nextInheritedMember :: rest =>
        {| ownMember := None; parents := chain nextInheritedMember |}
        :: inherited rest
    | nextOwnMember :: restOwn, [] =>
        {| ownMember := Some nextOwnMember; parents := [] |}
        :: mergeMembers restOwn []
    | nextOwnMember :: restOwn, nextInheritedMember :: rest =>
        let comparison :=
          localeCompare (displayName nextOwnMember)
                        (firstName nextInheritedMember) in
        if (comparison >? 0)%Z
        then {| ownMember := None; parents := chain nextInheritedMember |}
             :: inherited rest
        else if (comparison <? 0)%Z
        then {| ownMember := Some nextOwnMember; parents := [] |}
             :: mergeMembers restOwn inheritedMembers
        else {| ownMember := Some nextOwnMember;
                parents := chain nextInheritedMember |}
             :: mergeMembers restOwn rest
    end.

Definition sortedOwnMembers `{Host} (apiItem : ApiItem) : list ApiItem :=
  sort (fun a b => localeCompare (displayName a) (displayName b))
       (members apiItem).

Definition sortedInherited `{Host} (raw : list (string * list ApiItem))
  : list Inherited :=
  map (fun kv => {| first := head (snd kv); chain := snd kv |})
      (sort (fun a b => localeCompare (fst a) (fst b)) raw).

Definition _getResolvedMembers `{Host} (fuel : nat)
    (inheritanceMap : InheritanceMap) (apiItem : ApiItem)
  : option (list ResolvedMember) :=
  match _getInheritedMembers fuel inheritanceMap apiItem with
  | None => None
  | Some rawInheritedMembers =>
      Some (mergeMembers (sortedOwnMembers apiItem)
                         (sortedInherited rawInheritedMembers))
  end.

(** [resolvedMember.ownMember || resolvedMember.parents[0]], the member a
    row of the member tables is rendered from. *)
Definition renderedMember (r : ResolvedMember) : option ApiItem :=
  match ownMember r with
  | Some m => Some m
  | None => head (parents r)
  end.

(** ** Page router *)

Definition _getAnchorForApiItem (apiItem : ApiItem) : option string :=
  let anchor :=
    match kind apiItem with
    | ApiItemKind.MethodSignature | ApiItemKind.Method =>
        Some (displayName apiItem +:+ "-method")
    | ApiItemKind.PropertySignature | ApiItemKind.Property =>
        if isEventProperty apiItem
        then Some (displayName apiItem +:+ "-event")
        else Some (displayName apiItem +:+ "-property")
    | _ => None
    end in
  let anchor :=
    match anchor with
    | Some a => if Js.truthy a && isStatic apiItem
                then Some (a +:+ "-static") else anchor
    | None => None
    end in
  match anchor, overloadIndex apiItem with
  | Some a, Some index =>
      if Js.truthy a && (0 <? index)%nat
      then Some (a +:+ "-" +:+ Js.numberToString index) else anchor
  | _, _ => anchor
  end.

(** [qualifiedName]: the display name, with a suffix for overloads. *)
Definition qualifiedName (hierarchyItem : ApiItem) : string :=
  match overloadIndex hierarchyItem with
  | Some index =>
      if (0 <? index)%nat
      then displayName hierarchyItem +:+ "_" +:+ Js.numberToString index
      else displayName hierarchyItem
  | None => displayName hierarchyItem
  end.

Definition folderOf (k : ApiItemKind.t) : option string :=
  match k with
  | ApiItemKind.Class => Some "classes"
  | ApiItemKind.Enum => Some "enums"
  | ApiItemKind.Interface => Some "interfaces"
  | ApiItemKind.Namespace => Some "namespaces"
  | ApiItemKind.TypeAlias => Some "types"
  | ApiItemKind.Variable_ | ApiItemKind.Function => Some "variables"
  | _ => None
  end.

(** One iteration of the loop over the hierarchy; the state is
    [(baseName, hashName)]. *)
Definition filenameStep (st : string * option string) (hierarchyItem : ApiItem)
  : string * option string :=
  let '(baseName, hashName) := st in
  match kind hierarchyItem with
  | ApiItemKind.Model | ApiItemKind.EntryPoint | ApiItemKind.Package => st
  | ApiItemKind.Method | ApiItemKind.MethodSignature
  | ApiItemKind.Property | ApiItemKind.PropertySignature =>
      (baseName, _getAnchorForApiItem hierarchyItem)
  | _ =>
      let baseName := if Js.truthy baseName then baseName +:+ "/" else baseName in
      let baseName :=
        match folderOf (kind hierarchyItem) with
        | Some folder => baseName +:+ folder +:+ "/"
        | None => baseName
        end in
      (baseName +:+ qualifiedName hierarchyItem, hashName)
  end.

Definition _getFilenameForApiItem (apiItem : ApiItem) : string :=
  let '(baseName, hashName) :=
    fold_left filenameStep (getHierarchy apiItem) ("", None) in
  let lowered := Js.toLowerCase baseName in
  let name := (if Js.truthy lowered then lowered else "index") +:+ ".md" in
  match hashName with
  | Some h => if Js.truthy h then name +:+ "#" +:+ h else name
  | None => name
  end.

(** [context.filename] is the only field of the context the router reads. *)
Definition _getLinkFilenameForApiItem `{Host} (filename : string)
    (apiItem : ApiItem) : string :=
  let destination :=
    Path.relative (Path.dirname filename) (_getFilenameForApiItem apiItem) in
  if negb (Js.startsWith destination "./") &&
     negb (Js.startsWith destination "../")
  then "./" +:+ destination
  else destination.

(** ** Inheritance annotation *)

(** The three labels of [_createInheritanceNote]. *)
Definition inheritanceText (apiItem parent : ApiItem) : string :=
  if same apiItem parent then "Inherited from "
  else if
    (ApiItemKind.eqb (kind apiItem) ApiItemKind.Method ||
     ApiItemKind.eqb (kind parent) ApiItemKind.Property) &&
    (ApiItemKind.eqb (kind apiItem) ApiItemKind.MethodSignature ||
     ApiItemKind.eqb (kind parent) ApiItemKind.PropertySignature)
  then "Implements "
  else "Overrides ".

(** The paragraph built by [_createInheritanceNote], as its three parts: the
    label, the link text and the link destination. *)
Record InheritanceNote : Type := mkInheritanceNote {
  noteText : string;
  noteLinkText : string;
  noteUrlDestination : string
}.

Definition _createInheritanceNote `{Host} (filename : string)
    (apiItem : ApiItem) (inheritanceChain : list ApiItem)
  : option InheritanceNote :=
  match inheritanceChain with
  | [] => None
  | parent :: _ =>
      Some {| noteText := inheritanceText apiItem parent;
              noteLinkText := getScopedNameWithinPackage parent;
              noteUrlDestination := _getLinkFilenameForApiItem filename parent |}
  end.

(** ** Hierarchy diagrams *)

(** [_generateParentTree]: the recursion follows [parentClass] and keeps no
    record of the nodes it went through; [None] when the fuel runs out. *)
Fixpoint _generateParentTree (fuel : nat) (inheritanceMap : InheritanceMap)
    (apiItem : ItemOrString) (childNode : TreeNode) : option TreeNode :=
  match fuel with
  | O => None
  | S fuel' =>
      match apiItem with
      | Str _ => Some {| item := apiItem; children := [childNode] |}
      | Item it =>
          let mapEntry := inheritanceGet it inheritanceMap in
          let children :=
            map (fun child =>
                   if sameRef child (item childNode) then childNode
                   else {| item := child; children := [] |})
                (match mapEntry with
                 | Some entry => childClasses entry
                 | None => []
                 end) in
          match mapEntry with
          | Some entry =>
              if truthyRef (parentClass entry)
              then match parentClass entry with
                   | Some p =>
                       _generateParentTree fuel' inheritanceMap p
                         {| item := apiItem; children := children |}
                   | None => Some {| item := apiItem; children := children |}
                   end
              else Some {| item := apiItem; children := children |}
          | None => Some {| item := apiItem; children := children |}
          end
      end
  end.

(** ** Text helpers of the emitter *)

Module Text.

Definition nl : string := String (ascii_of_nat 10) "".
Definition dquote : string := String (ascii_of_nat 34) "".
Definition backslash : string := String (ascii_of_nat 92) "".

(** [s.replace(/[...]/g, f)] for a character class. *)
Fixpoint replaceChars (p : ascii -> bool) (f : ascii -> string) (s : string)
  : string :=
  match s with
  | EmptyString => ""
  | String c s' =>
      (if p c then f c else String c "") +:+ replaceChars p f s'
  end.

(** [s.replace(/pat/g, rep)] for a literal, non-empty [pat]: matches are
    taken left to right and do not overlap. *)
Fixpoint replaceLiteral (pat rep : string) (skip : nat) (s : string) : string :=
  match s with
  | EmptyString => ""
  | String c s' =>
      match skip with
      | S k => replaceLiteral pat rep k s'
      | O =>
          if Js.startsWith s pat
          then rep +:+ replaceLiteral pat rep (String.length pat - 1) s'
          else String c (replaceLiteral pat rep 0 s')
      end
  end.

Definition isOneOf (chars : string) (c : ascii) : bool :=
  existsb (Ascii.eqb c) (list_ascii_of_string chars).

(** [MarkdownEmitter.getEscapedText]. *)
Definition getEscapedText (text : string) : string :=
  let text := replaceChars (isOneOf backslash) (fun _ => backslash +:+ backslash) text in
  let text := replaceChars (isOneOf "*#[]_|`~") (fun x => backslash +:+ String x "") text in
  let text :=
    replaceLiteral "---"
      (backslash +:+ "-" +:+ backslash +:+ "-" +:+ backslash +:+ "-") 0 text in
  let text := replaceChars (isOneOf "&") (fun _ => "&amp;") text in
  let text := replaceChars (isOneOf "<") (fun _ => "&lt;") text in
  replaceChars (isOneOf ">") (fun _ => "&gt;") text.

(** [s.replace(/\s+/g, ' ')]. *)
Fixpoint collapseSpaces (inRun : bool) (s : string) : string :=
  match s with
  | EmptyString => ""
  | String c s' =>
      if Js.isSpace c
      then (if inRun then "" else " ") +:+ collapseSpaces true s'
      else String c (collapseSpaces false s')
  end.

(** [s.replace(/\|/g, '\\|')]. *)
Definition escapePipes (s : string) : string :=
  replaceChars (isOneOf "|") (fun _ => backslash +:+ "|") s.

Fixpoint dropLastCR (s : string) : string :=
  match s with
  | EmptyString => ""
  | String c EmptyString => if (Js.code c =? 13)%nat then "" else s
  | String c s' => String c (dropLastCR s')
  end.

(** All elements but the last go through [f]. *)
Fixpoint mapInit {A : Type} (f : A -> A) (l : list A) : list A :=
  match l with
  | [] => []
  | [x] => [x]
  | x :: rest => f x :: mapInit f rest
  end.

(** [s.split(/\r?\n/g)]. *)
Definition splitLines (s : string) : list string :=
  mapInit dropLastCR (Js.splitOn (ascii_of_nat 10) s).

Fixpoint dropWhile (p : ascii -> bool) (s : string) : string :=
  match s with
  | EmptyString => ""
  | String c s' => if p c then dropWhile p s' else s
  end.

Fixpoint takeWhile (p : ascii -> bool) (s : string) : string :=
  match s with
  | EmptyString => ""
  | String c s' => if p c then String c (takeWhile p s') else ""
  end.

Definition reverse (s : string) : string :=
  string_of_list_ascii (rev (list_ascii_of_string s)).

(** The regular expression of [writePlainText]: three groups between the
    anchors, greedy white space, a lazy run of any characters but line
    terminators, greedy white space.  The groups are the leading white
    space, the shortest middle that leaves only white space, and the
    trailing white space; there is no match when the middle would hold a
    line terminator. *)
Definition splitPlainText (text : string) : option (string * string * string) :=
  let leading := takeWhile Js.isSpace text in
  let rest := dropWhile Js.isSpace text in
  let trailing := reverse (takeWhile Js.isSpace (reverse rest)) in
  let middle := reverse (dropWhile Js.isSpace (reverse rest)) in
  if existsb Js.isLineTerminator (list_ascii_of_string middle) then None
  else Some (leading, middle, trailing).

End Text.

(** ** The output writer *)

Module IndentedWriter.

(** Modelled from the spec: [src/utils/indentedWriter.ts] is not among the
    sources.  The specification describes it as an output buffer with an
    indentation stack, "the ability to query the last character written and
    to guarantee no more than one blank line ever separates two blocks
    (ensure a skipped line / ensure a new line primitives)"; every line
    written while a prefix is on the stack starts with that prefix. *)
Record t : Type := mk {
  output : string;
  atStartOfLine : bool;
  indentStack : list string
}.

Definition create : t :=
  {| output := ""; atStartOfLine := true; indentStack := [] |}.

Definition indentText (w : t) : string := Js.join "" (indentStack w).

Definition append (s : string) (w : t) : t :=
  {| output := output w +:+ s; atStartOfLine := atStartOfLine w;
     indentStack := indentStack w |}.

Definition setStart (b : bool) (w : t) : t :=
  {| output := output w; atStartOfLine := b; indentStack := indentStack w |}.

Definition writeIndent (w : t) : t :=
  if atStartOfLine w && Js.truthy (indentText w)
  then append (indentText w) w else w.

Definition writeNewLine (w : t) : t :=
  setStart true (append Text.nl (writeIndent w)).

Definition writeLinePart (message : string) (w : t) : t :=
  if Js.truthy message
  then setStart false (append message (writeIndent w))
  else w.

Definition hasLineBreak (message : string) : bool :=
  existsb Js.isLineTerminator (list_ascii_of_string message).

Definition stripCR (s : string) : string :=
  Text.replaceChars (fun c => (Js.code c =? 13)%nat) (fun _ => "") s.

Definition write (message : string) (w : t) : t :=
  if negb (Js.truthy message) then w
  else if negb (hasLineBreak message) then writeLinePart message w
  else
    match Js.splitOn (ascii_of_nat 10) message with
    | [] => w
    | firstPart :: rest =>
        fold_left
          (fun w linePart => writeLinePart (stripCR linePart) (writeNewLine w))
          rest (writeLinePart (stripCR firstPart) w)
    end.

Definition writeLine (message : string) (w : t) : t :=
  writeNewLine (write message w).

Definition peekLastCharacter (w : t) : string :=
  match Js.lastChar (output w) with
  | Some c => String c ""
  | None => ""
  end.

Definition peekSecondLastCharacter (w : t) : string :=
  match rev (list_ascii_of_string (output w)) with
  | _ :: c :: _ => String c ""
  | _ => ""
  end.

Definition ensureNewLine (w : t) : t :=
  let lastCharacter := peekLastCharacter w in
  if negb (String.eqb lastCharacter Text.nl) &&
     negb (String.eqb lastCharacter "")
  then writeNewLine w else w.

Definition ensureSkippedLine (w : t) : t :=
  let w :=
    if negb (String.eqb (peekLastCharacter w) Text.nl)
    then writeNewLine w else w in
  let secondLastCharacter := peekSecondLastCharacter w in
  if negb (String.eqb secondLastCharacter Text.nl) &&
     negb (String.eqb secondLastCharacter "")
  then writeNewLine w else w.

Definition increaseIndent (indentPrefix : string) (w : t) : t :=
  {| output := output w; atStartOfLine := atStartOfLine w;
     indentStack := indentStack w ++ [indentPrefix] |}.

Definition decreaseIndent (w : t) : t :=
  {| output := output w; atStartOfLine := atStartOfLine w;
     indentStack := removelast (indentStack w) |}.

End IndentedWriter.

(** ** Document nodes *)

(** The node kinds the emitter distinguishes.  A table cell is given by the
    child nodes of its [content] section, a row by its cells, a note box by
    the child nodes of its [content] section.  A paragraph is kept in the
    form [DocNodeTransforms.trimSpacesInParagraph] (tsdoc) returns.  A link
    destination that is a declaration reference is an opaque token for
    [ApiModel.resolveDeclarationReference]. *)
Inductive DocNode : Type :=
  | PlainText (text : string)
  | HtmlStartTag (emitAsHtml : string)
  | HtmlEndTag (emitAsHtml : string)
  | CodeSpan (code : string)
  | LinkTag (codeDestination : option string) (urlDestination : option string)
            (linkText : option string)
  | Paragraph (nodes : list DocNode)
  | FencedCode (language code : string)
  | Section (nodes : list DocNode)
  | SoftBreak
  | EscapedText (decodedText : string)
  | ErrorText (text : string)
  | InlineTag
  | Anchor (id : string)
  | Heading (title : string) (level : nat)
  | List (nodes : list DocNode)
  | NoteBox (content : list DocNode)
  | Table (header : option (list (list DocNode)))
          (rows : list (list (list DocNode)))
  | EmphasisSpan (bold italic : bool) (nodes : list DocNode)
  | OtherNode (kind : string).

Definition isList (n : DocNode) : bool :=
  match n with List _ => true | _ => false end.

(** ** The emitter *)

Module Emitter.

(** A computation that may throw. *)
Inductive Result (A : Type) : Type :=
  | Ok (value : A)
  | Throw (message : string).
Arguments Ok {A} value.
Arguments Throw {A} message.

Definition bind {A B : Type} (r : Result A) (k : A -> Result B) : Result B :=
  match r with
  | Ok a => k a
  | Throw m => Throw m
  end.

Notation "'let*' x ':=' c1 'in' c2" := (bind c1 (fun x => c2))
  (at level 10, x name, c1 at level 100, c2 at level 200).

(** [CustomMarkdownEmitterOptions], with the model's reference resolver. *)
Record Options : Type := mkOptions {
  resolveDeclarationReference : string -> option ApiItem;
  onGetFilenameForApiItem : ApiItem -> option string
}.

Record Context : Type := mkContext {
  writer : IndentedWriter.t;
  insideTable : bool;
  listLevel : nat;
  options : Options
}.

Definition onWriter (f : IndentedWriter.t -> IndentedWriter.t) (c : Context)
  : Context :=
  {| writer := f (writer c); insideTable := insideTable c;
     listLevel := listLevel c; options := options c |}.

Definition setInsideTable (b : bool) (c : Context) : Context :=
  {| writer := writer c; insideTable := b; listLevel := listLevel c;
     options := options c |}.

Definition setListLevel (n : nat) (c : Context) : Context :=
  {| writer := writer c; insideTable := insideTable c; listLevel := n;
     options := options c |}.

Definition write (s : string) : Context -> Context :=
  onWriter (IndentedWriter.write s).
Definition writeLine (s : string) : Context -> Context :=
  onWriter (IndentedWriter.writeLine s).
Definition ensureNewLine : Context -> Context :=
  onWriter IndentedWriter.ensureNewLine.
Definition ensureSkippedLine : Context -> Context :=
  onWriter IndentedWriter.ensureSkippedLine.

(** [MarkdownEmitter.writePlainText]. *)
Definition writePlainText (text : string) (context : Context) : Result Context :=
  match Text.splitPlainText text with
  | None => Throw "TypeError"
  | Some (leading, middle, trailing) =>
      let context := write leading context in
      let context :=
        if negb (String.eqb middle "")
        then
          let lastCharacter := IndentedWriter.peekLastCharacter (writer context) in
          let context :=
            if String.eqb lastCharacter "" || String.eqb lastCharacter Text.nl ||
               String.eqb lastCharacter " " || String.eqb lastCharacter "[" ||
               String.eqb lastCharacter ">"
            then context
            else write "<!-- -->" context in
          write (Text.getEscapedText middle) context
        else context in
      Ok (write trailing context)
  end.

(** [MarkdownEmitter.writeLinkTagWithUrlDestination]. *)
Definition writeLinkTagWithUrlDestination (linkText : option string)
    (urlDestination : string) (context : Context) : Context :=
  let linkText :=
    match linkText with Some t => t | None => urlDestination end in
  let encodedLinkText := Text.getEscapedText (Text.collapseSpaces false linkText) in
  write ("](" +:+ urlDestination +:+ ")")
    (write encodedLinkText (write "[" context)).

(** [CustomMarkdownEmitter.writeLinkTagWithCodeDestination]; the warnings
    it logs are not part of the output. *)
Definition writeLinkTagWithCodeDestination (codeDestination : string)
    (linkText : option string) (context : Context) : Context :=
  match resolveDeclarationReference (options context) codeDestination with
  | Some resolvedApiItem =>
      match onGetFilenameForApiItem (options context) resolvedApiItem with
      | Some filename =>
          if Js.truthy filename then
            let linkText := match linkText with Some t => t | None => "" end in
            let linkText :=
              if (String.length linkText =? 0)%nat
              then getScopedNameWithinPackage resolvedApiItem else linkText in
            if (0 <? String.length linkText)%nat
            then
              let encodedLinkText :=
                Text.getEscapedText (Text.collapseSpaces false linkText) in
              write ("](" +:+ filename +:+ ")")
                (write encodedLinkText (write "[" context))
            else context
          else context
      | None => context
      end
  | None => context
  end.

(** [MarkdownEmitter.writeNodes] over the writers of the child nodes:
    [hasNextSibling] is [index < docNodes.length - 1]. *)
Fixpoint runNodes (writers : list (bool -> Context -> Result Context))
    (context : Context) : Result Context :=
  match writers with
  | [] => Ok context
  | w :: rest =>
      let* context := w (match rest with [] => false | _ => true end) context in
      runNodes rest context
  end.

(** A [for] loop whose body may throw. *)
Fixpoint forEach {A : Type} (body : A -> Context -> Result Context)
    (l : list A) (context : Context) : Result Context :=
  match l with
  | [] => Ok context
  | x :: rest => let* context := body x context in forEach body rest context
  end.

(** [columnCount]: the header's cell count, raised by every longer row. *)
Definition columnCount {Cell : Type} (header : option (list Cell))
    (rows : list (list Cell)) : nat :=
  fold_left
    (fun columnCount row =>
       if (columnCount <? length row)%nat then length row else columnCount)
    rows
    (match header with Some cells => length cells | None => 0 end).

Definition CellWriter : Type := Context -> Result Context.

(** The header loop: [columnCount] cells, [header.cells[i]] written when it
    is defined. *)
Definition writeHeaderRow (header : option (list CellWriter)) (columnCount : nat)
    (context : Context) : Result Context :=
  let context := write "| " context in
  let* context :=
    forEach
      (fun i context =>
         let context := write " " context in
         let* context :=
           match header with
           | Some cells =>
               match cells !! i with
               | Some cell => cell context
               | None => Ok context
               end
           | None => Ok context
           end in
         Ok (write " |" context))
      (seq 0 columnCount) context in
  Ok (writeLine "" context).

Definition writeDivider (columnCount : nat) (context : Context) : Context :=
  let context := write "| " context in
  let context :=
    fold_left (fun context _ => write " --- |" context) (seq 0 columnCount)
      context in
  writeLine "" context.

(** One data row: the cells the row has. *)
Definition writeDataRow (cells : list CellWriter) (context : Context)
  : Result Context :=
  let context := write "| " context in
  let* context :=
    forEach
      (fun cell context =>
         let context := write " " context in
         let* context := cell context in
         Ok (write " |" context))
      cells context in
  Ok (writeLine "" context).

Definition writeTable (header : option (list CellWriter))
    (rows : list (list CellWriter)) (context : Context) : Result Context :=
  let context := ensureSkippedLine context in
  let context := setInsideTable true context in
  let columnCount := columnCount header rows in
  let* context := writeHeaderRow header columnCount context in
  let context := writeDivider columnCount context in
  let* context := forEach writeDataRow rows context in
  let context := writeLine "" context in
  Ok (setInsideTable false context).

(** The body of the loop over the nodes of a list. *)
Definition writeListItem (node : bool * (Context -> Result Context))
    (context : Context) : Result Context :=
  if fst node then snd node context
  else
    let context := ensureNewLine context in
    let context :=
      write (Js.repeat "  " ((listLevel context - 1) * 2) +:+ "- ") context in
    snd node context.

Definition writeList (nodes : list (bool * (Context -> Result Context)))
    (context : Context) : Result Context :=
  let context := setListLevel (listLevel context + 1) context in
  let context :=
    if (listLevel context =? 1)%nat then ensureSkippedLine context
    else context in
  let* context := forEach writeListItem nodes context in
  let context := setListLevel (listLevel context - 1) context in
  Ok (if (listLevel context =? 1)%nat then ensureSkippedLine context
      else context).

Definition headingPrefix (level : nat) : string :=
  match level with
  | 1 => "#"
  | 2 => "##"
  | 3 => "###"
  | _ => "####"
  end.

(** [CustomMarkdownEmitter.writeNode], with the cases it leaves to
    [MarkdownEmitter.writeNode]. *)
Fixpoint writeNode (docNode : DocNode) (hasNextSibling : bool)
    (context : Context) {struct docNode} : Result Context :=
  match docNode with
  | Anchor id =>
      let context := ensureSkippedLine context in
      let context :=
        writeLine ("<a id=" +:+ Text.dquote +:+ id +:+ Text.dquote +:+ "></a>")
          context in
      Ok (writeLine "" context)
  | Heading title level =>
      let context := ensureSkippedLine context in
      let context :=
        writeLine (headingPrefix level +:+ " " +:+ Text.getEscapedText title)
          context in
      Ok (writeLine "" context)
  | List nodes =>
      writeList
        (map (fun node => (isList node, writeNode node false)) nodes) context
  | NoteBox content =>
      let context := ensureNewLine context in
      let context := onWriter (IndentedWriter.increaseIndent "> ") context in
      let* context := runNodes (map writeNode content) context in
      let context := ensureNewLine context in
      let context := onWriter IndentedWriter.decreaseIndent context in
      Ok (writeLine "" context)
  | Table header rows =>
      let cellWriter (cell : list DocNode) : CellWriter :=
        runNodes (map writeNode cell) in
      writeTable (option_map (map cellWriter) header)
                 (map (map cellWriter) rows) context
  | EmphasisSpan bold italic nodes =>
      let context := if bold then write "<b>" context else context in
      let context := if italic then write "<i>" context else context in
      let* context := runNodes (map writeNode nodes) context in
      let context := if italic then write "</i>" context else context in
      Ok (if bold then write "</b>" context else context)
  | PlainText text => writePlainText text context
  | HtmlStartTag html | HtmlEndTag html => Ok (write html context)
  | CodeSpan code =>
      if insideTable context then
        let parts := Text.splitLines (Text.escapePipes code) in
        if (1 <? length parts)%nat
        then Ok (write ("<pre>" +:+ Js.join "&#010;" parts +:+ "</pre>") context)
        else Ok (write ("`" +:+ Text.escapePipes code +:+ "`") context)
      else Ok (write ("`" +:+ code +:+ "`") context)
  | LinkTag codeDestination urlDestination linkText =>
      match codeDestination with
      | Some destination =>
          Ok (writeLinkTagWithCodeDestination destination linkText context)
      | None =>
          if match urlDestination with Some u => Js.truthy u | None => false end
          then Ok (writeLinkTagWithUrlDestination linkText
                     (default "" urlDestination) context)
          else
            match linkText with
            | Some t => if Js.truthy t then writePlainText t context
                        else Ok context
            | None => Ok context
            end
      end
  | Paragraph nodes =>
      if insideTable context then
        let* context := runNodes (map writeNode nodes) context in
        Ok (if hasNextSibling then write "<br><br>" context else context)
      else
        let* context := runNodes (map writeNode nodes) context in
        Ok (writeLine "" (ensureNewLine context))
  | FencedCode language code =>
      if insideTable context then
        let parts := Text.splitLines (Text.escapePipes code) in
        Ok (write ("<pre lang=" +:+ Text.dquote +:+ language +:+ Text.dquote
                   +:+ ">" +:+ Js.join "&#010;" parts +:+ "</pre>") context)
      else
        let context := ensureNewLine context in
        let context := write "```" context in
        let context := write language context in
        let context := writeLine "" context in
        let context := write code context in
        let context := writeLine "" context in
        Ok (writeLine "```" context)
  | Section nodes => runNodes (map writeNode nodes) context
  | SoftBreak =>
      let lastCharacter := IndentedWriter.peekLastCharacter (writer context) in
      match lastCharacter with
      | EmptyString => Ok context
      | String c _ => if Js.isSpace c then Ok context else Ok (write " " context)
      end
  | EscapedText decodedText => writePlainText decodedText context
  | ErrorText text => writePlainText text context
  | InlineTag => Ok context
  | OtherNode kind => Throw ("Unsupported element kind: " +:+ kind)
  end.

(** [MarkdownEmitter.emit]. *)
Definition emit (docNode : DocNode) (options : Options) : Result string :=
  let context :=
    {| writer := IndentedWriter.create; insideTable := false; listLevel := 0;
       options := options |} in
  let* context := writeNode docNode false context in
  Ok (IndentedWriter.output (IndentedWriter.ensureNewLine (writer context))).

End Emitter.

(** ** A sample environment and sample declarations

    Used to evaluate the code at concrete inputs. *)

Module Sample.

(** Ordinal comparison of code units, a collation that is a total order. *)
Definition ordinalCompare (a b : string) : Z :=
  match String.compare a b with
  | Lt => (-1)%Z
  | Eq => 0%Z
  | Gt => 1%Z
  end.

Definition isIdentifierStart (c : ascii) : bool :=
  Js.isWordChar c && negb (Js.between 48 57 (Js.code c)) || Ascii.eqb c "$".

Definition isNameChar (c : ascii) : bool :=
  Js.isWordChar c || Ascii.eqb c "$" || Ascii.eqb c ".".

(** The answers of the TypeScript parser on the texts of the examples: a
    qualified name, alone or followed by type arguments, is a type reference
    whose [typeName] is the qualified name; an import type, a type query, a
    type literal and a parenthesised type are not type references.  The
    examples use no other text. *)
Definition parseSample (source : string) : TypeNode :=
  let type := Text.dropWhile Js.isSpace (String.substring 8 (String.length source) source) in
  let name := Text.takeWhile isNameChar type in
  match type with
  | EmptyString => OtherTypeNode
  | String c _ =>
      if negb (isIdentifierStart c) then OtherTypeNode
      else if String.eqb name "import" || String.eqb name "typeof"
      then OtherTypeNode
      else TypeReference name
  end.

#[export] Instance host : Host :=
  {| localeCompare := ordinalCompare;
     parseDeclaredType := parseSample;
     cwd := "/home/docs" |}.

(** Builders: a member with a parameter list, a property, a type with
    heritage clauses, a container. *)
Definition callable (id : N) (k : ApiItemKind.t) (name : string) (index : nat)
  : Declaration :=
  mkDeclaration id k name (Some index) false false None [] [] [].

Definition property (id : N) (k : ApiItemKind.t) (name : string) : Declaration :=
  mkDeclaration id k name None false false None [] [] [].

Definition classDecl (id : N) (name : string) (extends : option string)
    (implements : list string) (members : list Declaration) : Declaration :=
  mkDeclaration id ApiItemKind.Class name None false false extends implements []
    members.

Definition interfaceDecl (id : N) (name : string) (extends : list string)
    (members : list Declaration) : Declaration :=
  mkDeclaration id ApiItemKind.Interface name None false false None [] extends
    members.

Definition container (id : N) (k : ApiItemKind.t) (name : string)
    (members : list Declaration) : Declaration :=
  mkDeclaration id k name None false false None [] [] members.

(** A package with the given top-level declarations: model, package and
    entry point around them. *)
Definition entryPointOf (tops : list Declaration) : Declaration :=
  container 2 ApiItemKind.EntryPoint "" tops.
Definition packageOf (tops : list Declaration) : Declaration :=
  container 1 ApiItemKind.Package "pkg" [entryPointOf tops].
Definition modelOf (tops : list Declaration) : Declaration :=
  container 0 ApiItemKind.Model "" [packageOf tops].

Definition apiPackage (tops : list Declaration) : ApiItem :=
  {| ancestors := [modelOf tops]; self := packageOf tops |}.

(** The reference to a top-level declaration of the package, and to a
    member of one. *)
Definition topLevel (tops : list Declaration) (d : Declaration) : ApiItem :=
  {| ancestors := [entryPointOf tops; packageOf tops; modelOf tops]; self := d |}.

Definition memberOf (owner : ApiItem) (d : Declaration) : ApiItem :=
  {| ancestors := self owner :: ancestors owner; self := d |}.

(** [interface Animal { speak(): void }] and
    [class Dog implements Animal { speak(): void }]. *)
Definition speakSignature : Declaration :=
  callable 11 ApiItemKind.MethodSignature "speak" 0.
Definition animal : Declaration := interfaceDecl 10 "Animal" [] [speakSignature].
Definition speak : Declaration := callable 21 ApiItemKind.Method "speak" 0.
Definition dog : Declaration := classDecl 20 "Dog" None ["Animal"] [speak].
Definition zoo : list Declaration := [animal; dog].

(** [class Base {}] and [class Derived extends Base {}]. *)
Definition base : Declaration := classDecl 30 "Base" None [] [].
Definition derived : Declaration := classDecl 31 "Derived" (Some "Base") [] [].
Definition family : list Declaration := [base; derived].

(** Malformed input: [class A extends B] and [class B extends A]. *)
Definition cycleA : Declaration :=
  classDecl 40 "A" (Some "B") [] [property 41 ApiItemKind.Property "x"].
Definition cycleB : Declaration :=
  classDecl 42 "B" (Some "A") [] [property 43 ApiItemKind.Property "y"].
Definition cyclic : list Declaration := [cycleA; cycleB].

(** A class with two overloads of [on] and an interface declaring [on]. *)
Definition emitterLike : Declaration :=
  interfaceDecl 50 "EmitterLike" []
    [callable 51 ApiItemKind.MethodSignature "on" 0].
Definition bus : Declaration :=
  classDecl 52 "Bus" None ["EmitterLike"]
    [callable 53 ApiItemKind.Method "on" 0;
     callable 54 ApiItemKind.Method "on" 1;
     callable 55 ApiItemKind.Method "emit" 0].
Definition events : list Declaration := [emitterLike; bus].

(** An interface chain and a class with two overloads of [read]:
    [interface Stream { read(); close() }],
    [interface Readable extends Stream { read(); peek() }] and
    [class File implements Readable { read(); read(); open() }]. *)
Definition stream : Declaration :=
  interfaceDecl 70 "Stream" []
    [callable 71 ApiItemKind.MethodSignature "read" 0;
     callable 72 ApiItemKind.MethodSignature "close" 0].
Definition readable : Declaration :=
  interfaceDecl 73 "Readable" ["Stream"]
    [callable 74 ApiItemKind.MethodSignature "read" 0;
     callable 75 ApiItemKind.MethodSignature "peek" 0].
Definition file : Declaration :=
  classDecl 76 "File" None ["Readable"]
    [callable 77 ApiItemKind.Method "read" 0;
     callable 78 ApiItemKind.Method "read" 1;
     callable 79 ApiItemKind.Method "open" 0].
Definition storage : list Declaration := [stream; readable; file].

(** An overloaded function [parse], second overload. *)
Definition parse1 : Declaration := callable 61 ApiItemKind.Function "parse" 1.

Definition typeMapOf (tops : list Declaration) : gmap string ApiItem :=
  _generateTypeMapping (apiPackage tops).

Definition inheritanceMapOf (tops : list Declaration) : InheritanceMap :=
  _generateClassHierarchy (typeMapOf tops) (apiPackage tops).

End Sample.

(** Views used in the statements below. *)

Definition refUid (r : ItemOrString) : option N :=
  match r with
  | Item i => Some (uid i)
  | Str _ => None
  end.

(** ** Type cells of the member tables *)

Definition _getLinkForType `{Host} (filename : string)
    (typeMap : gmap string ApiItem) (originItem : ApiItem) (type : string)
  : option string :=
  match _resolveType typeMap originItem type with
  | Some apiItem => Some (_getLinkFilenameForApiItem filename apiItem)
  | None => None
  end.

(** The content of the cell built by [_createParameterTypeCell] and
    [_createPropertyTypeCell] for the type text [type]: one paragraph with a
    link when the type resolves, with a code span otherwise. *)
Definition typeCell `{Host} (filename : string) (typeMap : gmap string ApiItem)
    (apiItem : ApiItem) (type : string) : list DocNode :=
  match _getLinkForType filename typeMap apiItem type with
  | Some link =>
      if Js.truthy link
      then [Paragraph [LinkTag None (Some link) (Some type)]]
      else [Paragraph [CodeSpan type]]
  | None => [Paragraph [CodeSpan type]]
  end.

(** Type resolution as the specification words it, to be compared with
    [_resolveType]: a word character is a letter, a digit or an underscore;
    the scopes are the origin item, its container, the container of that,
    and so on outward; the candidate of a scope is its scoped name, a dot
    and the type text, and the bare type text where the scope has no
    name. *)
Definition isLetterDigitOrUnderscore (c : ascii) : bool :=
  let n := nat_of_ascii c in
  ((nat_of_ascii "a" <=? n) && (n <=? nat_of_ascii "z"))%nat ||
  ((nat_of_ascii "A" <=? n) && (n <=? nat_of_ascii "Z"))%nat ||
  ((nat_of_ascii "0" <=? n) && (n <=? nat_of_ascii "9"))%nat ||
  Ascii.eqb c "_".

Fixpoint scopesOutward (steps : nat) (scope : ApiItem) : list ApiItem :=
  scope ::
  match steps, parent scope with
  | S steps, Some container => scopesOutward steps container
  | _, _ => []
  end.

Definition prefixedCandidate (scopePrefix name : string) : string :=
  if String.eqb scopePrefix "" then name else scopePrefix +:+ "." +:+ name.

Definition scopeCandidates (originItem : ApiItem) (type : string) : list string :=
  map (fun scope => prefixedCandidate (getScopedNameWithinPackage scope) type)
      (scopesOutward (length (ancestors originItem)) originItem).

(** [result] is the first hit of [candidates] in the type table, or nothing
    when no candidate is a key. *)
Definition FirstHit (typeMap : gmap string ApiItem) (candidates : list string)
    (result : option ApiItem) : Prop :=
  match result with
  | Some found =>
      exists before name after,
        candidates = before ++ name :: after /\
        typeMap !! name = Some found /\
        Forall (fun n => typeMap !! n = None) before
  | None => Forall (fun n => typeMap !! n = None) candidates
  end.

(** ** The page path as a closed formula *)

Definition isMemberKind (k : ApiItemKind.t) : bool :=
  match k with
  | ApiItemKind.Method | ApiItemKind.MethodSignature
  | ApiItemKind.Property | ApiItemKind.PropertySignature => true
  | _ => false
  end.

(** The hierarchy items that contribute a path segment. *)
Definition bearsSegment (x : ApiItem) : bool :=
  negb (isWrapper (kind x)) && negb (isMemberKind (kind x)).

Definition folderPrefix (x : ApiItem) : string :=
  match folderOf (kind x) with
  | Some folder => folder +:+ "/"
  | None => ""
  end.

(** The segment of a hierarchy item: its folder, then its lower-cased
    qualified name (display name and overload suffix). *)
Definition pathSegment (x : ApiItem) : string :=
  folderPrefix x +:+ Js.toLowerCase (qualifiedName x).

(** The anchor of the innermost method or property of the hierarchy. *)
Definition routedAnchor (hierarchy : list ApiItem) : option string :=
  match last (List.filter (fun x => isMemberKind (kind x)) hierarchy) with
  | Some m => _getAnchorForApiItem m
  | None => None
  end.

Definition routedPath (apiItem : ApiItem) : string :=
  let segments :=
    map pathSegment (List.filter bearsSegment (getHierarchy apiItem)) in
  (match segments with [] => "index" | _ => Js.join "/" segments end)
  +:+ ".md" +:+
  match routedAnchor (getHierarchy apiItem) with
  | Some anchor => "#" +:+ anchor
  | None => ""
  end.

(** The path as the specification words it: the display names of the
    segment-bearing items, lower-cased and joined with [/], each non-leaf
    segment prefixed with the folder of its kind.  [prefixLeaf] selects the
    reading of "non-leaf": with [false] the last segment carries no folder,
    with [true] every segment does. *)
Fixpoint specSegments (prefixLeaf : bool) (items : list ApiItem) : list string :=
  match items with
  | [] => []
  | [x] =>
      [(if prefixLeaf then folderPrefix x else "") +:+
       Js.toLowerCase (displayName x)]
  | x :: rest =>
      (folderPrefix x +:+ Js.toLowerCase (displayName x))
      :: specSegments prefixLeaf rest
  end.

Definition specPath (prefixLeaf : bool) (apiItem : ApiItem) : string :=
  let segments :=
    specSegments prefixLeaf (List.filter bearsSegment (getHierarchy apiItem)) in
  (match segments with [] => "index" | _ => Js.join "/" segments end)
  +:+ ".md" +:+
  match routedAnchor (getHierarchy apiItem) with
  | Some anchor => "#" +:+ anchor
  | None => ""
  end.

(** The segment as the loop builds it, before lower-casing. *)
Definition rawSegment (x : ApiItem) : string := folderPrefix x +:+ qualifiedName x.

(** The anchor left by the loop over [l], started with [h]. *)
Definition anchorAfter (h : option string) (l : list ApiItem) : option string :=
  match last (List.filter (fun x => isMemberKind (kind x)) l) with
  | Some m => _getAnchorForApiItem m
  | None => h
  end.

(** ** Acyclic inheritance graphs *)

(** Every resolved parent named by an entry ranks below the entry's key:
    the [extends]/[implements] edges that resolve to declarations form no
    cycle. *)
Definition Ranked (inheritanceMap : InheritanceMap) (rank : N -> nat) : Prop :=
  Forall
    (fun entry =>
       Forall (fun p => match p with
                        | Item q => rank (uid q) < rank (uid (fst entry))
                        | Str _ => True
                        end)
              (parentsOf (snd entry)))
    inheritanceMap.

(** The height of a node of the upward walk: labels are leaves. *)
Definition refRank (rank : N -> nat) (r : ItemOrString) : nat :=
  match r with
  | Item i => S (rank (uid i))
  | Str _ => 0
  end.

(** ** Names, ancestors and collations *)

(** The display name an entry of the resolved member list is listed under:
    that of its own member, or else of the nearest chain entry. *)
Definition entryName (r : ResolvedMember) : string :=
  match renderedMember r with
  | Some m => displayName m
  | None => ""
  end.

(** [ancestor] is reached from [apiItem] through one or more resolved parent
    edges of the inheritance graph. *)
Inductive Ancestor (inheritanceMap : InheritanceMap) (apiItem : ApiItem)
  : ApiItem -> Prop :=
  | Ancestor_parent (p : ApiItem) (refs : Refs) :
      inheritanceGet apiItem inheritanceMap = Some refs ->
      In (Item p) (parentsOf refs) ->
      Ancestor inheritanceMap apiItem p
  | Ancestor_step (q p : ApiItem) (refs : Refs) :
      Ancestor inheritanceMap apiItem q ->
      inheritanceGet q inheritanceMap = Some refs ->
      In (Item p) (parentsOf refs) ->
      Ancestor inheritanceMap apiItem p.

(** [name] is the display name of a member of some ancestor. *)
Definition InheritedName (inheritanceMap : InheritanceMap) (apiItem : ApiItem)
    (name : string) : Prop :=
  exists ancestor member,
    Ancestor inheritanceMap apiItem ancestor /\
    In member (members ancestor) /\ displayName member = name.

Definition OwnName (apiItem : ApiItem) (name : string) : Prop :=
  In name (map displayName (members apiItem)).

(** A collation that is a total order on strings: two strings compare equal
    only when they are the same string. *)
Record TotalCollation (compare : string -> string -> Z) : Prop := {
  collation_eq : forall a b, compare a b = 0%Z <-> a = b;
  collation_antisym : forall a b, (compare a b < 0)%Z <-> (compare b a > 0)%Z;
  collation_trans :
    forall a b c, (compare a b <= 0)%Z -> (compare b c <= 0)%Z ->
                  (compare a c <= 0)%Z
}.

(** The three kinds of entry the merge loop pushes. *)
Definition inheritedEntry (i : Inherited) : ResolvedMember :=
  {| ownMember := None; parents := chain i |}.
Definition ownEntry (o : ApiItem) : ResolvedMember :=
  {| ownMember := Some o; parents := [] |}.
Definition bothEntry (o : ApiItem) (i : Inherited) : ResolvedMember :=
  {| ownMember := Some o; parents := chain i |}.

(** The runs of the merge loop, as a relation between its two inputs and
    its output. *)
Inductive Merged `{Host} : list ApiItem -> list Inherited ->
                           list ResolvedMember -> Prop :=
  | Merged_done : Merged [] [] []
  | Merged_rest_inherited i inh r :
      Merged [] inh r -> Merged [] (i :: inh) (inheritedEntry i :: r)
  | Merged_rest_own o own r :
      Merged own [] r -> Merged (o :: own) [] (ownEntry o :: r)
  | Merged_inherited o own i inh r :
      (localeCompare (displayName o) (firstName i) > 0)%Z ->
      Merged (o :: own) inh r ->
      Merged (o :: own) (i :: inh) (inheritedEntry i :: r)
  | Merged_own o own i inh r :
      (localeCompare (displayName o) (firstName i) < 0)%Z ->
      Merged own (i :: inh) r ->
      Merged (o :: own) (i :: inh) (ownEntry o :: r)
  | Merged_both o own i inh r :
      localeCompare (displayName o) (firstName i) = 0%Z ->
      Merged own inh r ->
      Merged (o :: own) (i :: inh) (bothEntry o i :: r).

(** An element of [inheritedMembers] as the code builds it: a non-empty
    chain with its head as [first]. *)
Definition HeadedChain (i : Inherited) : Prop :=
  exists f rest, first i = Some f /\ chain i = f :: rest.

(** The entries that have no own member. *)
Definition inheritedOnly (l : list ResolvedMember) : list ResolvedMember :=
  List.filter (fun r => if ownMember r is Some _ then false else true) l.

(** Well-formed member table of the upward walk: distinct keys, every
    hierarchy and every level non-empty, every member filed under its own
    display name. *)
Definition FiledUnder (name : string) (ms : list ApiItem) : Prop :=
  ms <> [] /\ Forall (fun m => displayName m = name) ms.

Definition WellFiled (byName : MemberLevels) : Prop :=
  NoDup (map fst byName) /\
  Forall (fun kv => snd kv <> [] /\
                    Forall (fun l => FiledUnder (fst kv) (alternates l)) (snd kv))
         byName.

(** The direct parents the walk of [apiItem] starts from. *)
Definition directParents (inheritanceMap : InheritanceMap) (apiItem : ApiItem)
  : list ItemOrString :=
  match inheritanceGet apiItem inheritanceMap with
  | Some refs => parentsOf refs
  | None => []
  end.

(** The invariant of the [while] loop of [_getInheritedMembers]: [visited]
    are the declarations taken off the queue so far. *)
Record WalkInvariant (inheritanceMap : InheritanceMap) (apiItem : ApiItem)
    (visited : list ApiItem) (currentLevel nextLevel : list ItemOrString)
    (byName : MemberLevels) : Prop := {
  walk_reachable :
    forall p, In (Item p) (currentLevel ++ nextLevel) ->
              Ancestor inheritanceMap apiItem p;
  walk_sound :
    forall n, In n (map fst byName) -> InheritedName inheritanceMap apiItem n;
  walk_parents :
    forall p, In (Item p) (directParents inheritanceMap apiItem) ->
              In p visited \/ In (Item p) (currentLevel ++ nextLevel);
  walk_closed :
    forall q p, In q visited ->
                In (Item p) (directParents inheritanceMap q) ->
                In p visited \/ In (Item p) (currentLevel ++ nextLevel);
  walk_recorded :
    forall q m, In q visited -> In m (members q) ->
                In (displayName m) (map fst byName);
  walk_levels : currentLevel = [] -> nextLevel = [];
  walk_filed : WellFiled byName
}.

(** The order of display names under the collation of the host. *)
Definition nameLe `{Host} (a b : string) : Prop := (localeCompare a b <= 0)%Z.
Definition nameLt `{Host} (a b : string) : Prop := (localeCompare a b < 0)%Z.

(** ** Rows of a table, cell by cell *)

Module TableRows.
Import Emitter.

(** Writing one row given as a list of slots: the opening pipe, then for
    every slot a space, the cell when the slot holds one, and a closing
    pipe; then the end of the line. *)
Definition writeSlots (slots : list (option CellWriter)) (context : Context)
  : Result Context :=
  let context := write "| " context in
  let* context :=
    forEach
      (fun slot context =>
         let context := write " " context in
         let* context :=
           match slot with
           | Some cell => cell context
           | None => Ok context
           end in
         Ok (write " |" context))
      slots context in
  Ok (writeLine "" context).

(** The header cells, followed by empty slots up to [columnCount]. *)
Definition paddedHeader (header : option (list CellWriter)) (columnCount : nat)
  : list (option CellWriter) :=
  let cells := match header with Some cells => cells | None => [] end in
  map Some cells ++ List.repeat None (columnCount - length cells).

(** The cell of [DocTableRow.addPlainTextCell]: one paragraph of text. *)
Definition plainCell (text : string) : list DocNode := [Paragraph [PlainText text]].

Definition plainTable (header : list string) (rows : list (list string)) : DocNode :=
  Table (Some (map plainCell header)) (map (map plainCell) rows).

(** The number of cells of a rendered row of plain cells: its pipes, less
    the opening one. *)
Definition cellsOfLine (line : string) : nat :=
  length (List.filter (Ascii.eqb "|") (list_ascii_of_string line)) - 1.

Definition tableLines (out : string) : list string :=
  List.filter Js.truthy (Js.splitOn (ascii_of_nat 10) out).

Definition noOptions : Options :=
  {| resolveDeclarationReference := fun _ => None;
     onGetFilenameForApiItem := fun _ => None |}.

End TableRows.

(** ** Path segments *)

Definition slashFree (s : string) : Prop :=
  Forall (fun c => c <> "/"%char) (list_ascii_of_string s).

(** A segment that [normalizeString] keeps. *)
Definition keptSegment (s : string) : Prop :=
  s <> "" /\ s <> "." /\ s <> "..".

(** The string handed to [normalizeString] for a non-empty first path. *)
Definition rooted `{Host} (p : string) : string :=
  if Path.isAbsolute p then p else cwd +:+ "/" +:+ p.

(** ** Escaped text, read back *)

(** The first two replacements of [getEscapedText], the backslashes, and
    the last three, the entities. *)
Definition slashes (text : string) : string :=
  Text.replaceChars (Text.isOneOf "*#[]_|`~")
    (fun x => Text.backslash +:+ String x "")
    (Text.replaceChars (Text.isOneOf Text.backslash)
       (fun _ => Text.backslash +:+ Text.backslash) text).

Definition entities (text : string) : string :=
  Text.replaceChars (Text.isOneOf ">") (fun _ => "&gt;")
    (Text.replaceChars (Text.isOneOf "<") (fun _ => "&lt;")
       (Text.replaceChars (Text.isOneOf "&") (fun _ => "&amp;") text)).

Definition escapedHyphens : string :=
  Text.backslash +:+ "-" +:+ Text.backslash +:+ "-" +:+ Text.backslash +:+ "-".

(** What [getEscapedText] makes of one character that is not part of a run
    of three hyphens. *)
Definition escapedChar (c : ascii) : string :=
  if Text.isOneOf Text.backslash c then Text.backslash +:+ Text.backslash
  else if Text.isOneOf "*#[]_|`~" c then Text.backslash +:+ String c ""
  else if Ascii.eqb c "&" then "&amp;"
  else if Ascii.eqb c "<" then "&lt;"
  else if Ascii.eqb c ">" then "&gt;"
  else String c "".

(** The six replacements as one pass from left to right; [skip] counts the
    hyphens of a run of three that are still to be passed over. *)
Fixpoint escapedFrom (skip : nat) (text : string) : string :=
  match text with
  | EmptyString => ""
  | String c rest =>
      match skip with
      | S k => escapedFrom k rest
      | O =>
          if Js.startsWith text "---"
          then escapedHyphens +:+ escapedFrom 2 rest
          else escapedChar c +:+ escapedFrom 0 rest
      end
  end.

(** The reader's side: a backslash stands for the character after it, the
    entities [&amp;], [&lt;] and [&gt;] for their characters. *)
Fixpoint unescapeFrom (skip : nat) (s : string) : string :=
  match s with
  | EmptyString => ""
  | String c rest =>
      match skip with
      | S k => unescapeFrom k rest
      | O =>
          if Text.isOneOf Text.backslash c
          then match rest with
               | String d _ => String d (unescapeFrom 1 rest)
               | EmptyString => String c ""
               end
          else if Js.startsWith s "&amp;" then String "&" (unescapeFrom 4 rest)
          else if Js.startsWith s "&lt;" then String "<" (unescapeFrom 3 rest)
          else if Js.startsWith s "&gt;" then String ">" (unescapeFrom 3 rest)
          else String c (unescapeFrom 0 rest)
      end
  end.

Definition unescape (s : string) : string := unescapeFrom 0 s.

(** The characters a Markdown reader meets outside a backslash escape. *)
Fixpoint outsideEscapes (escaped : bool) (s : string) : list ascii :=
  match s with
  | EmptyString => []
  | String c rest =>
      if escaped then outsideEscapes false rest
      else if Text.isOneOf Text.backslash c then outsideEscapes true rest
      else c :: outsideEscapes false rest
  end.

(** The characters [getEscapedText] puts a backslash before. *)
Definition isMarkup (c : ascii) : bool :=
  Text.isOneOf Text.backslash c || Text.isOneOf "*#[]_|`~" c.

(** [pat] occurs somewhere in [s]. *)
Fixpoint occurs (pat s : string) : bool :=
  Js.startsWith s pat ||
  match s with
  | EmptyString => false
  | String _ rest => occurs pat rest
  end.

(** Text that [getEscapedText] has nothing to do on. *)
Definition isPlain (c : ascii) : bool :=
  negb (isMarkup c || Ascii.eqb c "&" || Ascii.eqb c "<" || Ascii.eqb c ">").
(** ** Lines and guarded characters *)

(** Every [target] character of [s] comes right after a [guard] character;
    [prev] is the character before [s]. *)
Fixpoint guarded (guard target : ascii) (prev : option ascii) (s : string) : bool :=
  match s with
  | EmptyString => true
  | String c rest =>
      (if Ascii.eqb c target
       then match prev with Some p => Ascii.eqb p guard | None => false end
       else true)
      && guarded guard target (Some c) rest
  end.

(** Every pipe of [s] comes right after a backslash. *)
Definition pipesEscaped (s : string) : bool :=
  guarded (ascii_of_nat 92) "|" None s.

Definition hasLineFeed (s : string) : bool :=
  existsb (Ascii.eqb (ascii_of_nat 10)) (list_ascii_of_string s).

(** ** Anchors, part by part *)

(** The number a run of decimal digits stands for, continuing from [v]. *)
Definition digitsValue (s : string) (v : nat) : nat :=
  fold_left (fun v c => 10 * v + (Js.code c - 48)) (list_ascii_of_string s) v.

(** The three families of anchors. *)
Inductive AnchorFamily : Set := MethodAnchor | EventAnchor | PropertyAnchor.

Definition anchorFamily (apiItem : ApiItem) : option AnchorFamily :=
  match kind apiItem with
  | ApiItemKind.MethodSignature | ApiItemKind.Method => Some MethodAnchor
  | ApiItemKind.PropertySignature | ApiItemKind.Property =>
      Some (if isEventProperty apiItem then EventAnchor else PropertyAnchor)
  | _ => None
  end.

Definition familySuffix (apiItem : ApiItem) : string :=
  match anchorFamily apiItem with
  | Some MethodAnchor => "-method"
  | Some EventAnchor => "-event"
  | Some PropertyAnchor => "-property"
  | None => ""
  end.

Definition staticSuffix (apiItem : ApiItem) : string :=
  if isStatic apiItem then "-static" else "".

(** The overload index an anchor shows: none for an item without parameter
    list and for the overload of index 0. *)
Definition shownOverload (apiItem : ApiItem) : option nat :=
  match overloadIndex apiItem with
  | Some (S n) => Some (S n)
  | _ => None
  end.

Definition overloadSuffix (apiItem : ApiItem) : string :=
  match shownOverload apiItem with
  | Some index => "-" +:+ Js.numberToString index
  | None => ""
  end.

(** ** The declarations of a package *)

(** [x] lies below [root] in the containment tree. *)
Inductive Below (root : ApiItem) : ApiItem -> Prop :=
  | Below_member (x : ApiItem) : In x (members root) -> Below root x
  | Below_step (y x : ApiItem) :
      Below root y -> In x (members y) -> Below root x.

(** The order in which the breadth-first loop takes the nodes off its
    queue. *)
Fixpoint visitOrder (fuel : nat) (children : list ApiItem) : list ApiItem :=
  match fuel, children with
  | S fuel', child :: rest => child :: visitOrder fuel' (rest ++ members child)
  | _, _ => []
  end.

(** The kinds that get an entry of the type table. *)
Definition isTypeKind (k : ApiItemKind.t) : bool :=
  match k with
  | ApiItemKind.Class | ApiItemKind.Enum | ApiItemKind.Interface
  | ApiItemKind.TypeAlias => true
  | _ => false
  end.
(** ** The inheritance graph, edge by edge *)

(** The children an entry lists, classes first. *)
Definition childRefs (refs : Refs) : list ItemOrString :=
  childClasses refs ++ childInterfaces refs.

(** [refs.childClasses.push(child)] or [refs.childInterfaces.push(child)]. *)
Definition pushChild (asClass : bool) (child : ApiItem) (refs : Refs) : Refs :=
  if asClass then pushChildClass refs child else pushChildInterface refs child.

(** [map.set(k, f(map.get(k) || { ...empty }))] in one pass over the map. *)
Fixpoint upsert (k : ApiItem) (f : Refs -> Refs) (m : InheritanceMap)
  : InheritanceMap :=
  match m with
  | [] => [(k, f emptyRefs)]
  | (k', v) :: rest =>
      if same k' k then (k', f v) :: rest else (k', v) :: upsert k f rest
  end.

(** The reverse edges one entry asks for: the parent declaration and
    whether the child goes to [childClasses]. *)
Definition edgesOf (child : ApiItem) (entry : Refs) : list (bool * ApiItem) :=
  match parentClass entry with
  | Some (Item parent) => [(false, parent)]
  | _ => []
  end ++
  flat_map
    (fun parentInterface =>
       match parentInterface with
       | Item parent =>
           [(ApiItemKind.eqb (kind child) ApiItemKind.Class, parent)]
       | Str _ => []
       end)
    (parentInterfaces entry).

Definition applyEdge (child : ApiItem) (m : InheritanceMap) (e : bool * ApiItem)
  : InheritanceMap :=
  upsert (snd e) (pushChild (fst e) child) m.

(** The body of the reverse-pointer loop on an entry of the map. *)
Definition reverseStep (m : InheritanceMap) (e : ApiItem * Refs) : InheritanceMap :=
  reverseEdges (fst e) (snd e) m.

(** Two entries with the same key and the same parents. *)
Definition sameEdges (a b : ApiItem * Refs) : Prop :=
  fst a = fst b /\ parentClass (snd a) = parentClass (snd b) /\
  parentInterfaces (snd a) = parentInterfaces (snd b).

Definition noParents (e : ApiItem * Refs) : Prop :=
  parentClass (snd e) = None /\ parentInterfaces (snd e) = [].

(** [current] is [forward] with child lists filled in, followed by entries
    that name no parent. *)
Definition Stable (forward current : InheritanceMap) : Prop :=
  exists kept added,
    current = kept ++ added /\ Forall2 sameEdges forward kept /\
    Forall noParents added.

(** The record of [p] lists [c] as a child. *)
Definition HasChild (p c : ApiItem) (m : InheritanceMap) : Prop :=
  exists refs, inheritanceGet p m = Some refs /\ In (Item c) (childRefs refs).

(** The map the first loop of [_generateClassHierarchy] builds. *)
Definition forwardMap `{Host} (typeMap : gmap string ApiItem)
    (apiPackage : ApiItem) : InheritanceMap :=
  let children := members apiPackage in
  visitBreadthFirst (forestSize children) (forwardVisit typeMap) children [].

(** Every child an entry lists is the key of an entry of [forward] that
    names the entry's key as a parent. *)
Definition ChildrenSound (forward m : InheritanceMap) : Prop :=
  forall p refs r,
    In (p, refs) m -> In r (childRefs refs) ->
    exists c entry q,
      r = Item c /\ In (c, entry) forward /\ same p q = true /\
      In (Item q) (parentsOf entry).

(** ** Code blocks of the member tables *)

(** [String.prototype.trimLeft], [trim] and [substring(start)]. *)
Definition trimLeft (s : string) : string := Text.dropWhile Js.isSpace s.

Definition trim (s : string) : string :=
  Text.reverse (Text.dropWhile Js.isSpace (Text.reverse (trimLeft s))).

Fixpoint substringFrom (start : nat) (s : string) : string :=
  match start, s with
  | O, _ => s
  | S k, String _ rest => substringFrom k rest
  | S _, EmptyString => ""
  end.

(** [val.length - val.trimLeft().length]. *)
Definition indentOf (val : string) : nat :=
  String.length val - String.length (trimLeft val).

(** The [reduce] over the lines after the first; [None] is [Infinity]. *)
Definition sharedIndent (others : list string) : option nat :=
  fold_left
    (fun acc val =>
       Some (match acc with
             | Some a => Nat.min a (indentOf val)
             | None => indentOf val
             end))
    others None.

Definition _prettifyCodeBlock (code : string) : string :=
  match Text.splitLines code with
  | [] | [_] => trim code
  | firstPart :: others =>
      Js.join Text.nl
        (firstPart ::
         map (fun part =>
                match sharedIndent others with
                | Some indent => substringFrom indent part
                | None => ""
                end)
             others)
  end.

(** The characters of a text that are not white space, in order. *)
Definition inked (s : string) : list ascii :=
  List.filter (fun c => negb (Js.isSpace c)) (list_ascii_of_string s).

Definition hasCarriageReturn (s : string) : bool :=
  existsb (fun c => (Js.code c =? 13)%nat) (list_ascii_of_string s).

(** ** Headings *)

(** [new DocHeading({ title, level })] ([src/nodes/docHeading.ts]): the
    level defaults to 1 and must lie between 1 and 5. *)
Definition newDocHeading (title : string) (level : option Z)
  : Emitter.Result DocNode :=
  let level := match level with Some l => l | None => 1%Z end in
  if (level <? 1)%Z || (level >? 5)%Z
  then Emitter.Throw
         "IDocHeadingParameters.level must be a number between 1 and 5"
  else Emitter.Ok (Heading title (Z.to_nat level)).

(** ** Entries of the resolved member list *)

(** The chains of the entries that have one. *)
Definition attachedChains (resolved : list ResolvedMember) : list (list ApiItem) :=
  List.filter (fun chain => match chain with [] => false | _ => true end)
              (map parents resolved).
(** ** The last segment of a path *)

(** What follows the last [/] of [p]. *)
Definition baseName (p : string) : string :=
  match last (Js.splitOn "/" p) with
  | Some segment => segment
  | None => ""
  end.


(** The entries of [m] have classes, enumerations, interfaces and type
    aliases below [apiPackage] as keys, and the declarations they name as
    parents are such declarations too. *)
Definition PackageKeys (apiPackage : ApiItem) (m : InheritanceMap) : Prop :=
  forall k refs,
    In (k, refs) m ->
    (Below apiPackage k /\ isTypeKind (kind k) = true) /\
    forall p, In (Item p) (parentsOf refs) ->
              Below apiPackage p /\ isTypeKind (kind p) = true.

(** ** The layout of a list

    The [List] case of [writeNode] as the specification words it, to be
    compared with the code.  What is asked of the writer is a sequence of
    marks: a line, for which a new line is ensured and the text written, or
    a blank line, for which a skipped line is ensured.  A leaf item is one
    line, the bullet of its depth before the text of the item; a nested
    list adds the marks of its own items and no bullet; a blank line is
    ensured on entering depth 1, and on leaving the depth at which the
    layout is closed: depth 1 as the specification states it, depth 2 as
    the code has it. *)
Inductive Mark : Type :=
  | Line (text : string)
  | BlankLine.

Definition applyMark (w : IndentedWriter.t) (mark : Mark) : IndentedWriter.t :=
  match mark with
  | Line text => IndentedWriter.write text (IndentedWriter.ensureNewLine w)
  | BlankLine => IndentedWriter.ensureSkippedLine w
  end.

Definition applyMarks (marks : list Mark) (w : IndentedWriter.t)
  : IndentedWriter.t :=
  fold_left applyMark marks w.

(** The two-space string repeated [2 * (depth - 1)] times, then a dash and
    a space. *)
Definition bullet (depth : nat) : string :=
  Js.repeat "  " (2 * (depth - 1)) +:+ "- ".

(** Text without a line terminator and without white space at either
    end. *)
Definition tidy (text : string) : bool :=
  negb (existsb Js.isLineTerminator (list_ascii_of_string text)) &&
  match text with
  | String first _ => negb (Js.isSpace first)
  | EmptyString => true
  end &&
  match Js.lastChar text with
  | Some final => negb (Js.isSpace final)
  | None => true
  end.

(** The items that stay on one line, with what they add to it: tidy plain
    text, an emphasis span around tidy plain text, and a link with a URL
    that holds no line break. *)
Definition inlineText (node : DocNode) : option string :=
  match node with
  | PlainText text =>
      if tidy text then Some (Text.getEscapedText text) else None
  | EmphasisSpan bold italic [PlainText text] =>
      if tidy text
      then Some ((if bold then "<b>" else "") +:+
                 (if italic then "<i>" else "") +:+
                 Text.getEscapedText text +:+
                 (if italic then "</i>" else "") +:+
                 (if bold then "</b>" else ""))
      else None
  | LinkTag None (Some urlDestination) linkText =>
      if Js.truthy urlDestination &&
         negb (IndentedWriter.hasLineBreak urlDestination)
      then Some ("[" +:+
                 Text.getEscapedText
                   (Text.collapseSpaces false
                      (match linkText with
                       | Some text => text
                       | None => urlDestination
                       end)) +:+
                 "](" +:+ urlDestination +:+ ")")
      else None
  | _ => None
  end.

(** The marks of the items of a list of depth [depth], given the marks of
    a nested list. *)
Definition itemsLayout (nestedLayout : DocNode -> option (list Mark))
    (depth : nat) : list DocNode -> option (list Mark) :=
  fix items (nodes : list DocNode) : option (list Mark) :=
    match nodes with
    | [] => Some []
    | node :: rest =>
        match (if isList node then nestedLayout node
               else option_map (fun text => [Line (bullet depth +:+ text)])
                               (inlineText node)),
              items rest with
        | Some marks, Some others => Some (marks ++ others)
        | _, _ => None
        end
    end.

(** The marks of a [List] node met at list level [level]: its items are at
    depth [level + 1].  A blank line is ensured before the items of depth 1,
    and after the items of depth [closingDepth]. *)
Fixpoint layoutClosing (closingDepth level : nat) (node : DocNode)
    {struct node} : option (list Mark) :=
  match node with
  | List nodes =>
      option_map
        (fun marks =>
           (if (S level =? 1)%nat then [BlankLine] else []) ++ marks ++
           (if (S level =? closingDepth)%nat then [BlankLine] else []))
        (itemsLayout (layoutClosing closingDepth (S level)) (S level) nodes)
  | _ => None
  end.


(** The layout with the trailing blank line ensured on leaving depth 2. *)
Definition listLayout : nat -> DocNode -> option (list Mark) :=
  layoutClosing 2.

(** ** Type trees *)

(** The item that [_createTypeTree] writes for a node: a label as plain
    text, the declaration of the page in bold, any other declaration as a
    link to its page. *)
Definition typeTreeText `{Host} (filename : string) (currentApiItem : ApiItem)
    (item : ItemOrString) : DocNode :=
  match item with
  | Str text => PlainText text
  | Item apiItem =>
      if same apiItem currentApiItem
      then EmphasisSpan true false
             [PlainText (getScopedNameWithinPackage apiItem)]
      else LinkTag None (Some (_getLinkFilenameForApiItem filename apiItem))
             (Some (getScopedNameWithinPackage apiItem))
  end.

(** The callback of [tree.map] in [_createTypeTree]: the item, followed by
    the list of the children when there are any. *)
Fixpoint typeTreeNodes `{Host} (filename : string) (currentApiItem : ApiItem)
    (node : TreeNode) {struct node} : list DocNode :=
  match node with
  | mkTreeNode item children =>
      typeTreeText filename currentApiItem item ::
      match children with
      | [] => []
      | _ :: _ =>
          [List (concat (map (typeTreeNodes filename currentApiItem) children))]
      end
  end.

Definition _createTypeTree `{Host} (filename : string) (currentApiItem : ApiItem)
    (tree : list TreeNode) : DocNode :=
  List (concat (map (typeTreeNodes filename currentApiItem) tree)).

(** * Properties *)

#[local] Arguments String.append : simpl nomatch.

(** ** The forest traversal visits every node

    The fuel of the two breadth-first passes, the number of nodes of the
    forest, is never used up before the queue is empty: more fuel gives the
    same result. *)

Lemma declarationSize_members (d : Declaration) :
  declarationSize d = S (list_sum (map declarationSize (d_members d))).
Proof.
  destruct d as [? ? ? ? ? ? ? ? ? ms]. simpl. f_equal.
  induction ms as [| m ms IH]; simpl; [reflexivity | rewrite IH; reflexivity].
Qed.

Lemma forestSize_members (child : ApiItem) :
  declarationSize (self child) = S (forestSize (members child)).
Proof.
  rewrite declarationSize_members. unfold forestSize, members.
  rewrite map_map. reflexivity.
Qed.

Lemma forestSize_app (a b : list ApiItem) :
  forestSize (a ++ b) = forestSize a + forestSize b.
Proof. unfold forestSize. rewrite map_app, list_sum_app. reflexivity. Qed.

Lemma visitBreadthFirst_fuel {S : Type} (visit : S -> ApiItem -> S) (fuel : nat) :
  forall (children : list ApiItem) (st : S),
    forestSize children <= fuel ->
    visitBreadthFirst fuel visit children st
    = visitBreadthFirst (forestSize children) visit children st.
Proof.
  induction fuel as [| fuel IH]; intros children st Hle.
  - destruct children as [| child rest]; [reflexivity |].
    unfold forestSize in Hle. simpl in Hle.
    rewrite declarationSize_members in Hle. lia.
  - destruct children as [| child rest]; [reflexivity |].
    assert (Hsize : forestSize (child :: rest)
                    = Datatypes.S (forestSize (rest ++ members child))).
    { rewrite forestSize_app. unfold forestSize at 1. simpl.
      fold (forestSize rest). rewrite forestSize_members. lia. }
    rewrite Hsize. cbn [visitBreadthFirst].
    apply IH. lia.
Qed.

(** ** Inheritance annotation (C1) *)

Lemma kind_eqb_eq (a b : ApiItemKind.t) : ApiItemKind.eqb a b = true <-> a = b.
Proof. destruct a, b; simpl; split; intros; congruence. Qed.

(** The label is "Implements" only across the method/property divide: a
    method next to a property signature, or a method signature next to a
    property. *)
Lemma inheritanceText_implements (apiItem parent : ApiItem) :
  inheritanceText apiItem parent = "Implements " <->
  same apiItem parent = false /\
  ((kind apiItem = ApiItemKind.Method /\
    kind parent = ApiItemKind.PropertySignature) \/
   (kind parent = ApiItemKind.Property /\
    kind apiItem = ApiItemKind.MethodSignature)).
Proof.
  unfold inheritanceText.
  destruct (same apiItem parent); [split; [discriminate | intros [? _]; discriminate] |].
  destruct (kind apiItem), (kind parent); simpl; split;
    first [ intros _; reflexivity
          | intros _; split; [reflexivity | tauto]
          | discriminate
          | intros [_ [[? ?] | [? ?]]]; discriminate ].
Qed.

(** C1, at the input where the code departs from it: the method [speak] of
    the class [Dog], whose nearest chain entry is the method signature
    [speak] of the interface [Animal] it implements, is annotated
    "Overrides", not "Implements". *)
Theorem inheritance_note_of_implemented_signature :
  (fun note => (noteText note, noteUrlDestination note))
  <$> @_createInheritanceNote Sample.host "classes/dog.md"
        (Sample.memberOf (Sample.topLevel Sample.zoo Sample.dog) Sample.speak)
        [Sample.memberOf (Sample.topLevel Sample.zoo Sample.animal)
           Sample.speakSignature]
  = Some ("Overrides ", "../interfaces/animal.md#speak-method").
Proof. vm_compute. reflexivity. Qed.

(** The same holds of every method over a method signature and of every
    property over a property signature. *)
Lemma inheritanceText_signature_pairs (apiItem parent : ApiItem) :
  same apiItem parent = false ->
  (kind apiItem = ApiItemKind.Method /\
   kind parent = ApiItemKind.MethodSignature) \/
  (kind apiItem = ApiItemKind.Property /\
   kind parent = ApiItemKind.PropertySignature) ->
  inheritanceText apiItem parent = "Overrides ".
Proof.
  intros Hne [[Hi Hp] | [Hi Hp]]; unfold inheritanceText;
    rewrite Hne, Hi, Hp; reflexivity.
Qed.

(** The chain the member resolver hands to the note for [Dog.speak] is the
    one used above. *)
Lemma resolved_members_of_dog :
  option_map (map (fun r => (option_map uid (ownMember r), map uid (parents r))))
    (@_getResolvedMembers Sample.host 2 (Sample.inheritanceMapOf Sample.zoo)
       (Sample.topLevel Sample.zoo Sample.dog))
  = Some [(Some 21%N, [11%N])].
Proof. vm_compute. reflexivity. Qed.

(** ** Reverse edges of the inheritance graph (C2) *)

Lemma inheritanceGet_set_same (k : ApiItem) (v : Refs) (m : InheritanceMap) :
  inheritanceGet k (inheritanceSet k v m) = Some v.
Proof.
  unfold inheritanceGet, inheritanceSet.
  induction m as [| [k' v'] m IH]; simpl.
  - unfold same. rewrite N.eqb_refl. reflexivity.
  - destruct (same k' k) eqn:E; simpl; rewrite E; [reflexivity | exact IH].
Qed.

(** The reverse edge of an [extends] clause between classes goes to the
    parent's [childInterfaces], whatever the kind of the child. *)
Lemma reverseEdges_parentClass (child parent : ApiItem) (entry : Refs)
    (map : InheritanceMap) :
  parentClass entry = Some (Item parent) ->
  parentInterfaces entry = [] ->
  inheritanceGet parent (reverseEdges child entry map)
  = Some (pushChildInterface (refsOrEmpty parent map) child).
Proof.
  intros Hp Hi. unfold reverseEdges. rewrite Hp, Hi. simpl.
  apply inheritanceGet_set_same.
Qed.

(** C2, at the input where the code departs from it: for [class Derived
    extends Base], the record of [Base] after the reverse-edge pass has
    [Derived] in [childInterfaces] and nothing in [childClasses]. *)
Theorem reverse_edge_of_extends_family :
  option_map
    (fun refs => (map refUid (childClasses refs),
                  map refUid (childInterfaces refs)))
    (inheritanceGet (Sample.topLevel Sample.family Sample.base)
       (Sample.inheritanceMapOf Sample.family))
  = Some ([], [Some 31%N]).
Proof. vm_compute. reflexivity. Qed.

(** ** Type resolution (C10) *)

Lemma firstInTypeMap_FirstHit (typeMap : gmap string ApiItem)
    (candidates : list string) :
  FirstHit typeMap candidates (firstInTypeMap typeMap candidates).
Proof.
  induction candidates as [| name rest IH]; simpl.
  - constructor.
  - destruct (typeMap !! name) as [found |] eqn:E; simpl.
    + exists [], name, rest. repeat split; [exact E | constructor].
    + destruct (firstInTypeMap typeMap rest) as [found |]; simpl in *.
      * destruct IH as (before & n & after & -> & Hn & Hb).
        exists (name :: before), n, after. repeat split; [exact Hn |].
        constructor; assumption.
      * constructor; assumption.
Qed.

(** Dropping repeated candidates does not change the first hit. *)
Lemma firstInTypeMap_setOf (typeMap : gmap string ApiItem)
    (candidates seen : list string) :
  Forall (fun n => typeMap !! n = None) seen ->
  firstInTypeMap typeMap (JsMap.setOf candidates seen)
  = firstInTypeMap typeMap candidates.
Proof.
  revert seen. induction candidates as [| name rest IH]; intros seen Hseen; simpl.
  - reflexivity.
  - destruct (existsb (String.eqb name) seen) eqn:E.
    + apply existsb_exists in E. destruct E as (x & Hin & Hx).
      apply String.eqb_eq in Hx. subst x.
      rewrite Forall_forall in Hseen. rewrite (Hseen name).
      * apply IH. apply Forall_forall. exact Hseen.
      * apply list_elem_of_In. exact Hin.
    + simpl. destruct (typeMap !! name) eqn:En; [reflexivity |].
      apply IH. constructor; assumption.
Qed.

Lemma scopesOutward_hierarchyUp (anc : list Declaration) (d : Declaration) :
  scopesOutward (length anc) {| ancestors := anc; self := d |}
  = hierarchyUp anc d.
Proof.
  revert d. induction anc as [| p rest IH]; intros d; [reflexivity |].
  cbn [length scopesOutward hierarchyUp parent ancestors]. rewrite IH.
  reflexivity.
Qed.

Lemma prefixedCandidate_candidateName (type : string) (scope : ApiItem) :
  prefixedCandidate (getScopedNameWithinPackage scope) type
  = candidateName type scope.
Proof.
  unfold prefixedCandidate, candidateName.
  destruct (getScopedNameWithinPackage scope); reflexivity.
Qed.

Lemma isWordChar_letter_digit_underscore (c : ascii) :
  Js.isWordChar c = isLetterDigitOrUnderscore c.
Proof.
  destruct c as [[] [] [] [] [] [] [] []]; vm_compute; reflexivity.
Qed.

Lemma resolveType_candidates (typeMap : gmap string ApiItem)
    (originItem : ApiItem) (type : string) :
  startsWithWordChar type = true ->
  _resolveType typeMap originItem type
  = firstInTypeMap typeMap (scopeCandidates originItem type).
Proof.
  intros Hw. unfold _resolveType, scopeCandidates, getHierarchy.
  rewrite Hw. simpl.
  rewrite firstInTypeMap_setOf by constructor.
  rewrite map_rev, rev_involutive.
  destruct originItem as [anc d]. cbn [ancestors self].
  rewrite scopesOutward_hierarchyUp. f_equal.
  apply map_ext. intros scope. symmetry. apply prefixedCandidate_candidateName.
Qed.

(** C10.  A type text whose first character is not a letter, a digit or an
    underscore (and the empty text) resolves to no declaration, and its cell
    is a plain code span; a type text that starts with such a character
    resolves to the first type-table hit among the candidates
    [scopePrefix.type], taken from the origin item outward through its
    containers, the bare text standing for a scope without a name, and to
    nothing when no candidate is a key. *)
Theorem resolveType_first_hit_from_innermost_scope `{Host}
    (filename : string) (typeMap : gmap string ApiItem) (originItem : ApiItem)
    (type : string) :
  if match type with
     | String first _ => isLetterDigitOrUnderscore first
     | EmptyString => false
     end
  then FirstHit typeMap (scopeCandidates originItem type)
         (_resolveType typeMap originItem type)
  else _resolveType typeMap originItem type = None /\
       typeCell filename typeMap originItem type = [Paragraph [CodeSpan type]].
Proof.
  assert (Hguard : match type with
                   | String first _ => isLetterDigitOrUnderscore first
                   | EmptyString => false
                   end = startsWithWordChar type).
  { destruct type as [| first rest]; [reflexivity |].
    symmetry. apply isWordChar_letter_digit_underscore. }
  rewrite Hguard.
  destruct (startsWithWordChar type) eqn:Hw.
  - rewrite resolveType_candidates by exact Hw.
    apply firstInTypeMap_FirstHit.
  - assert (Hnone : _resolveType typeMap originItem type = None).
    { unfold _resolveType. rewrite Hw. reflexivity. }
    split; [exact Hnone |].
    unfold typeCell, _getLinkForType. rewrite Hnone. reflexivity.
Qed.

(** The candidates of a type text seen from the method [Dog.speak]. *)
Example scopeCandidates_dog_speak :
  scopeCandidates
    (Sample.memberOf (Sample.topLevel Sample.zoo Sample.dog) Sample.speak)
    "Animal"
  = ["Dog.speak().Animal"; "Dog.Animal"; "Animal"; "Animal"; "Animal"].
Proof. vm_compute. reflexivity. Qed.

Example resolveType_dog_speak :
  option_map uid
    (_resolveType (Sample.typeMapOf Sample.zoo)
       (Sample.memberOf (Sample.topLevel Sample.zoo Sample.dog) Sample.speak)
       "Animal") = Some 10%N /\
  _resolveType (Sample.typeMapOf Sample.zoo)
    (Sample.topLevel Sample.zoo Sample.dog) "{ legs: number }" = None.
Proof. vm_compute. split; reflexivity. Qed.

(** ** Base-type extraction (C7) *)

(** C7 as stated fails: the text of an import type parses to a node that is
    not a type reference, [_extractBaseType] answers [undefined], and the
    class that extends it gets no parent and no label. *)
Lemma extractBaseType_drops_import_type :
  @_extractBaseType Sample.host (Sample.typeMapOf Sample.family)
    (Sample.topLevel Sample.family Sample.derived) "import('./base').Base"
  = None /\
  ~ (forall (H : Host) (typeMap : gmap string ApiItem) (originItem : ApiItem)
            (type : string),
       exists r, _extractBaseType typeMap originItem type = Some r /\
                 (_resolveType typeMap originItem type = None ->
                  exists label, r = Str label)).
Proof.
  assert (E : @_extractBaseType Sample.host (Sample.typeMapOf Sample.family)
                (Sample.topLevel Sample.family Sample.derived)
                "import('./base').Base" = None) by (vm_compute; reflexivity).
  split; [exact E |].
  intros Hall.
  destruct (Hall Sample.host (Sample.typeMapOf Sample.family)
              (Sample.topLevel Sample.family Sample.derived)
              "import('./base').Base") as (r & Hr & _).
  rewrite E in Hr. discriminate.
Qed.

(** C7, amended.  Base-type extraction is total.  When the text parses to a
    type reference the result is the declaration its name resolves to, or
    else the bare name as a plain-text label, and the loop over the
    implemented or extended interfaces keeps it unless it is an empty label;
    when the text parses to any other type node the result is [undefined]
    and the loop drops the parent without a label. *)
Theorem extractBaseType_reference_or_dropped `{Host}
    (typeMap : gmap string ApiItem) (child : ApiItem) (text : string) :
  match _getType text with
  | TypeReference typeName =>
      match _resolveType typeMap child typeName with
      | Some resolved =>
          _extractBaseType typeMap child text = Some (Item resolved) /\
          resolveInterfaces typeMap child [text] = [Item resolved]
      | None =>
          _extractBaseType typeMap child text = Some (Str typeName) /\
          resolveInterfaces typeMap child [text]
          = if Js.truthy typeName then [Str typeName] else []
      end
  | OtherTypeNode =>
      _extractBaseType typeMap child text = None /\
      resolveInterfaces typeMap child [text] = []
  end.
Proof.
  unfold resolveInterfaces, _extractBaseType. simpl.
  destruct (_getType text) as [typeName |]; [| split; reflexivity].
  destruct (_resolveType typeMap child typeName); simpl; split; reflexivity.
Qed.

(** The parent of a class is what [_extractBaseType] makes of its [extends]
    text: the entry recorded by the forward pass. *)
Lemma forwardVisit_class_parent `{Host} (typeMap : gmap string ApiItem)
    (map : InheritanceMap) (child : ApiItem) (text : string) :
  kind child = ApiItemKind.Class ->
  extendsType child = Some text ->
  parentClass <$> inheritanceGet child (forwardVisit typeMap map child)
  = Some (_extractBaseType typeMap child text).
Proof.
  intros Hk He. unfold forwardVisit. rewrite Hk, He.
  rewrite inheritanceGet_set_same. reflexivity.
Qed.

Example extractBaseType_samples :
  (refUid <$> @_extractBaseType Sample.host (Sample.typeMapOf Sample.family)
     (Sample.topLevel Sample.family Sample.derived) "Base") = Some (Some 30%N) /\
  @_extractBaseType Sample.host (Sample.typeMapOf Sample.family)
     (Sample.topLevel Sample.family Sample.derived) "Array<string>"
  = Some (Str "Array").
Proof. vm_compute. split; reflexivity. Qed.

(** ** Page paths (C6) *)

Lemma str_app_assoc (a b c : string) : (a +:+ b) +:+ c = a +:+ (b +:+ c).
Proof. induction a as [| x a IH]; simpl; [reflexivity | rewrite IH; reflexivity]. Qed.

Lemma str_app_nil_r (a : string) : a +:+ "" = a.
Proof. induction a as [| x a IH]; simpl; [reflexivity | rewrite IH; reflexivity]. Qed.

Lemma truthy_app (a b : string) :
  Js.truthy (a +:+ b) = Js.truthy a || Js.truthy b.
Proof. destruct a; simpl; [destruct b |]; reflexivity. Qed.

Lemma truthy_false (a : string) : Js.truthy a = false <-> a = "".
Proof. destruct a; simpl; split; congruence. Qed.

Lemma toLowerCase_app (a b : string) :
  Js.toLowerCase (a +:+ b) = Js.toLowerCase a +:+ Js.toLowerCase b.
Proof. induction a as [| x a IH]; simpl; [reflexivity | rewrite IH; reflexivity]. Qed.

Lemma truthy_toLowerCase (a : string) : Js.truthy (Js.toLowerCase a) = Js.truthy a.
Proof. destruct a; reflexivity. Qed.

Lemma join_snoc (sep : string) (l : list string) (x : string) :
  Js.join sep (l ++ [x])
  = match l with [] => x | _ => Js.join sep l +:+ sep +:+ x end.
Proof.
  induction l as [| y l IH]; [reflexivity |].
  destruct l as [| z l]; [reflexivity |].
  change (Js.join sep ((y :: z :: l) ++ [x]))
    with (y +:+ sep +:+ Js.join sep ((z :: l) ++ [x])).
  rewrite IH.
  change (Js.join sep (y :: z :: l)) with (y +:+ sep +:+ Js.join sep (z :: l)).
  rewrite !str_app_assoc. reflexivity.
Qed.

Lemma toLowerCase_join_slash (l : list string) :
  Js.toLowerCase (Js.join "/" l) = Js.join "/" (map Js.toLowerCase l).
Proof.
  induction l as [| x l IH]; [reflexivity |].
  destruct l as [| y l]; [reflexivity |].
  change (Js.join "/" (x :: y :: l)) with (x +:+ "/" +:+ Js.join "/" (y :: l)).
  rewrite !toLowerCase_app, IH. reflexivity.
Qed.

Lemma toLowerCase_rawSegment (x : ApiItem) :
  Js.toLowerCase (rawSegment x) = pathSegment x.
Proof.
  unfold rawSegment, pathSegment, folderPrefix. rewrite toLowerCase_app.
  destruct (kind x); reflexivity.
Qed.

Lemma truthy_join (l : list string) :
  Forall (fun s => s <> "") l ->
  Js.truthy (Js.join "/" l) = match l with [] => false | _ => true end.
Proof.
  intros H. destruct l as [| x l]; [reflexivity |].
  inversion H as [| ? ? Hx _]; subst.
  destruct l; simpl; [| rewrite truthy_app];
    destruct x; simpl; congruence.
Qed.

Lemma anchorAfter_member (h : option string) (x : ApiItem) (l : list ApiItem) :
  isMemberKind (kind x) = true ->
  anchorAfter h (x :: l) = anchorAfter (_getAnchorForApiItem x) l.
Proof.
  intros Hm. unfold anchorAfter. simpl. rewrite Hm.
  destruct (List.filter _ l) as [| y r] eqn:E; [reflexivity |].
  rewrite last_cons. destruct (last (y :: r)) eqn:El; [reflexivity |].
  apply last_None in El. discriminate.
Qed.

Lemma anchorAfter_other (h : option string) (x : ApiItem) (l : list ApiItem) :
  isMemberKind (kind x) = false ->
  anchorAfter h (x :: l) = anchorAfter h l.
Proof. intros Hm. unfold anchorAfter. simpl. rewrite Hm. reflexivity. Qed.

Lemma filenameStep_segment (b : string) (h : option string) (x : ApiItem) :
  bearsSegment x = true ->
  filenameStep (b, h) x
  = ((if Js.truthy b then b +:+ "/" else b) +:+ rawSegment x, h).
Proof.
  unfold bearsSegment, filenameStep, rawSegment, folderPrefix.
  destruct (kind x); simpl; try discriminate; intros _;
    rewrite ?str_app_assoc; reflexivity.
Qed.

Lemma filenameStep_member (b : string) (h : option string) (x : ApiItem) :
  isMemberKind (kind x) = true ->
  filenameStep (b, h) x = (b, _getAnchorForApiItem x).
Proof.
  unfold filenameStep. destruct (kind x); simpl; try discriminate; reflexivity.
Qed.

Lemma filenameStep_wrapper (b : string) (h : option string) (x : ApiItem) :
  isWrapper (kind x) = true -> filenameStep (b, h) x = (b, h).
Proof.
  unfold filenameStep. destruct (kind x); simpl; try discriminate; reflexivity.
Qed.

Lemma filename_loop (l done : list ApiItem) (h : option string) :
  Forall (fun x => bearsSegment x = true -> rawSegment x <> "") (done ++ l) ->
  fold_left filenameStep l
    (Js.join "/" (map rawSegment (List.filter bearsSegment done)), h)
  = (Js.join "/" (map rawSegment (List.filter bearsSegment (done ++ l))),
     anchorAfter h l).
Proof.
  revert done h. induction l as [| x l IH]; intros done h Hne.
  - rewrite app_nil_r. reflexivity.
  - assert (Hne' : Forall (fun x => bearsSegment x = true -> rawSegment x <> "")
                     ((done ++ [x]) ++ l)) by (rewrite <- app_assoc; exact Hne).
    specialize (IH (done ++ [x])).
    replace (done ++ x :: l) with ((done ++ [x]) ++ l)
      by (rewrite <- app_assoc; reflexivity).
    cbn [fold_left].
    destruct (bearsSegment x) eqn:Hb.
    + rewrite filenameStep_segment by exact Hb.
      assert (Hm : isMemberKind (kind x) = false).
      { unfold bearsSegment in Hb. destruct (isMemberKind (kind x));
          [rewrite andb_false_r in Hb; discriminate | reflexivity]. }
      rewrite anchorAfter_other by exact Hm.
      rewrite <- IH by exact Hne'. f_equal. f_equal.
      rewrite List.filter_app. simpl. rewrite Hb. rewrite map_app. simpl.
      rewrite join_snoc.
      rewrite truthy_join.
      * destruct (map rawSegment (List.filter bearsSegment done));
          [reflexivity | rewrite str_app_assoc; reflexivity].
      * apply Forall_forall. intros s Hs.
        apply list_elem_of_In, in_map_iff in Hs. destruct Hs as (y & <- & Hy).
        apply filter_In in Hy. destruct Hy as [Hy Hby].
        rewrite Forall_forall in Hne. apply Hne; [| exact Hby].
        apply list_elem_of_In, in_or_app. left. exact Hy.
    + assert (Hf : List.filter bearsSegment (done ++ [x])
                   = List.filter bearsSegment done).
      { rewrite List.filter_app. simpl. rewrite Hb. apply app_nil_r. }
      destruct (isMemberKind (kind x)) eqn:Hm.
      * rewrite filenameStep_member by exact Hm.
        rewrite anchorAfter_member by exact Hm.
        rewrite <- IH by exact Hne'. rewrite Hf. reflexivity.
      * assert (Hw : isWrapper (kind x) = true).
        { unfold bearsSegment in Hb. rewrite Hm in Hb.
          destruct (isWrapper (kind x)); [reflexivity | discriminate]. }
        rewrite filenameStep_wrapper by exact Hw.
        rewrite anchorAfter_other by exact Hm.
        rewrite <- IH by exact Hne'. rewrite Hf. reflexivity.
Qed.

Lemma anchor_truthy (m : ApiItem) (a : string) :
  _getAnchorForApiItem m = Some a -> Js.truthy a = true.
Proof.
  unfold _getAnchorForApiItem.
  assert (T : forall s t, Js.truthy (s +:+ String "-" t) = true).
  { intros s t. rewrite truthy_app. simpl. apply orb_true_r. }
  destruct (kind m); try discriminate;
    destruct (isEventProperty m), (isStatic m), (overloadIndex m) as [[| n] |];
    rewrite ?T; cbn [andb Nat.ltb Nat.leb]; rewrite ?T; cbn [andb];
    intros [= <-]; rewrite ?truthy_app, ?T, ?orb_true_r; reflexivity.
Qed.

(** C6 as stated fails under either reading of "non-leaf": the page of the
    second overload of the function [parse] is [variables/parse_1.md]; the
    walk of display names gives [parse.md] when the last segment carries no
    folder and [variables/parse.md] when it does. *)
Lemma overload_page_path_departs_from_names :
  let parse1 := Sample.topLevel [Sample.parse1] Sample.parse1 in
  _getFilenameForApiItem parse1 = "variables/parse_1.md" /\
  specPath false parse1 = "parse.md" /\
  specPath true parse1 = "variables/parse.md" /\
  ~ (forall (prefixLeaf : bool) (apiItem : ApiItem),
       _getFilenameForApiItem apiItem = specPath prefixLeaf apiItem) /\
  ~ (forall apiItem : ApiItem,
       _getFilenameForApiItem apiItem = specPath false apiItem) /\
  ~ (forall apiItem : ApiItem,
       _getFilenameForApiItem apiItem = specPath true apiItem).
Proof.
  cbv zeta.
  split; [vm_compute; reflexivity |].
  split; [vm_compute; reflexivity |].
  split; [vm_compute; reflexivity |].
  split; [| split].
  - intros H.
    specialize (H true (Sample.topLevel [Sample.parse1] Sample.parse1)).
    vm_compute in H. discriminate.
  - intros H. specialize (H (Sample.topLevel [Sample.parse1] Sample.parse1)).
    vm_compute in H. discriminate.
  - intros H. specialize (H (Sample.topLevel [Sample.parse1] Sample.parse1)).
    vm_compute in H. discriminate.
Qed.

(** C6, amended.  When every item of the hierarchy that has no folder of its
    own has a non-empty name, the page path is the [/]-joined walk of the
    hierarchy without model, package and entry point and without methods and
    properties, every segment (the last one included) being the folder of
    its kind, if it has one, followed by the lower-cased display name with
    its overload suffix; [index] when there is no segment; then [.md]; then
    [#] and the anchor of the innermost method or property, if any. *)
Theorem page_path_is_folder_prefixed_walk (apiItem : ApiItem) :
  Forall (fun x => bearsSegment x = true -> folderOf (kind x) = None ->
                   displayName x <> "")
         (getHierarchy apiItem) ->
  _getFilenameForApiItem apiItem = routedPath apiItem.
Proof.
  intros Hnames.
  assert (Hraw : Forall (fun x => bearsSegment x = true -> rawSegment x <> "")
                   ([] ++ getHierarchy apiItem)).
  { simpl. eapply Forall_impl; [exact Hnames |]. cbv beta. intros x Hx Hb.
    unfold rawSegment, folderPrefix.
    destruct (folderOf (kind x)) as [folder |] eqn:Hf.
    - destruct folder; simpl; discriminate.
    - specialize (Hx Hb eq_refl). simpl. unfold qualifiedName.
      destruct (overloadIndex x) as [[| n] |]; simpl; try exact Hx.
      destruct (displayName x); [contradiction | discriminate]. }
  unfold _getFilenameForApiItem, routedPath.
  pose proof (filename_loop (getHierarchy apiItem) [] None Hraw) as Hloop.
  simpl in Hloop. rewrite Hloop.
  set (segs := List.filter bearsSegment (getHierarchy apiItem)) in *.
  rewrite toLowerCase_join_slash, map_map.
  rewrite (map_ext _ pathSegment) by (intros; apply toLowerCase_rawSegment).
  assert (Htruthy : Js.truthy (Js.join "/" (map pathSegment segs))
                    = match map pathSegment segs with [] => false | _ => true end).
  { apply truthy_join. apply Forall_forall. intros s Hs.
    apply list_elem_of_In, in_map_iff in Hs. destruct Hs as (y & <- & Hy).
    apply filter_In in Hy. destruct Hy as [Hy Hby].
    rewrite Forall_forall in Hraw.
    specialize (Hraw y (proj2 (list_elem_of_In _ _) Hy) Hby).
    rewrite <- toLowerCase_rawSegment. intros E. apply Hraw.
    apply truthy_false. rewrite <- truthy_toLowerCase. apply truthy_false, E. }
  rewrite Htruthy.
  assert (Hanchor : anchorAfter None (getHierarchy apiItem)
                    = routedAnchor (getHierarchy apiItem)).
  { unfold anchorAfter, routedAnchor.
    destruct (last _) as [m |]; reflexivity. }
  rewrite Hanchor.
  destruct (routedAnchor (getHierarchy apiItem)) as [a |] eqn:Ha.
  - assert (Js.truthy a = true) as ->.
    { unfold routedAnchor in Ha. destruct (last _) as [m |]; [| discriminate].
      eapply anchor_truthy, Ha. }
    destruct (map pathSegment segs); rewrite ?str_app_assoc; reflexivity.
  - destruct (map pathSegment segs); rewrite ?str_app_nil_r; reflexivity.
Qed.

Lemma page_path_is_folder_prefixed_walk_witness :
  let speak := Sample.memberOf (Sample.topLevel Sample.zoo Sample.dog)
                 Sample.speak in
  _getFilenameForApiItem speak = routedPath speak /\
  routedPath speak = "classes/dog.md#speak-method".
Proof.
  split; [| vm_compute; reflexivity].
  apply (page_path_is_folder_prefixed_walk
           (Sample.memberOf (Sample.topLevel Sample.zoo Sample.dog) Sample.speak)).
  repeat constructor; vm_compute; intros; discriminate.
Defined.

(** ** Relative links (C5) *)

Section PathFacts.

Let slash : ascii := "/"%char.

Lemma splitOn_nonempty (s : string) : Js.splitOn slash s <> [].
Proof.
  destruct s as [| c s]; simpl; [discriminate |].
  destruct (Ascii.eqb c slash); [discriminate |].
  destruct (Js.splitOn slash s); discriminate.
Qed.

Lemma splitOn_app (a b : string) :
  Js.splitOn slash (a +:+ String slash b)
  = Js.splitOn slash a ++ Js.splitOn slash b.
Proof.
  induction a as [| c a IH]; simpl.
  - reflexivity.
  - destruct (Ascii.eqb c slash); simpl; rewrite IH; [reflexivity |].
    pose proof (splitOn_nonempty a) as Hne.
    destruct (Js.splitOn slash a); [contradiction | reflexivity].
Qed.

Lemma splitOn_slashFree (s : string) :
  slashFree s -> Js.splitOn slash s = [s].
Proof.
  induction s as [| c s IH]; intros H; simpl; [reflexivity |].
  inversion H as [| ? ? Hc Hs]; subst.
  destruct (Ascii.eqb c slash) eqn:E.
  - apply Ascii.eqb_eq in E. contradiction.
  - rewrite (IH Hs). reflexivity.
Qed.

Lemma splitOn_parts_slashFree (s : string) :
  Forall slashFree (Js.splitOn slash s).
Proof.
  induction s as [| c s IH]; simpl.
  - repeat constructor.
  - destruct (Ascii.eqb c slash) eqn:E.
    + constructor; [constructor | exact IH].
    + destruct (Js.splitOn slash s) as [| x rest]; inversion IH; subst.
      * repeat constructor. intros ->. rewrite Ascii.eqb_refl in E. discriminate.
      * constructor; [| assumption].
        constructor; [| assumption].
        intros ->. rewrite Ascii.eqb_refl in E. discriminate.
Qed.

Lemma splitOn_join (l : list string) :
  l <> [] -> Forall slashFree l ->
  Js.splitOn slash (Js.join "/" l) = l.
Proof.
  induction l as [| x l IH]; intros Hne Hl; [contradiction |].
  inversion Hl as [| ? ? Hx Hrest]; subst.
  destruct l as [| y l].
  - apply splitOn_slashFree, Hx.
  - change (Js.join "/" (x :: y :: l))
      with (x +:+ String slash (Js.join "/" (y :: l))).
    rewrite splitOn_app, (splitOn_slashFree x Hx), IH; [reflexivity | discriminate | exact Hrest].
Qed.

Lemma normStep_kept (stack : list string) (s : string) :
  keptSegment s -> Path.normStep stack s = s :: stack.
Proof.
  intros (H1 & H2 & H3). unfold Path.normStep.
  apply String.eqb_neq in H1, H2, H3. rewrite H1, H2, H3. reflexivity.
Qed.

Lemma normStep_invariant (P : string -> Prop) (segs stack : list string) :
  Forall P segs -> Forall (fun s => keptSegment s /\ P s) stack ->
  Forall (fun s => keptSegment s /\ P s) (fold_left Path.normStep segs stack).
Proof.
  revert stack. induction segs as [| s segs IH]; intros stack Hsegs Hstack;
    simpl; [exact Hstack |].
  inversion Hsegs as [| ? ? Hs Hrest]; subst.
  apply IH; [exact Hrest |].
  unfold Path.normStep.
  destruct (String.eqb s "") eqn:E1; simpl; [exact Hstack |].
  destruct (String.eqb s ".") eqn:E2; simpl; [exact Hstack |].
  destruct (String.eqb s "..") eqn:E3.
  - destruct stack; simpl; [constructor | inversion Hstack; assumption].
  - constructor; [| exact Hstack].
    apply String.eqb_neq in E1, E2, E3. repeat split; assumption.
Qed.

Lemma normalizeAbs_kept (segs : list string) :
  Forall slashFree segs ->
  Forall (fun s => keptSegment s /\ slashFree s) (Path.normalizeAbs segs).
Proof.
  intros H. unfold Path.normalizeAbs.
  apply Forall_rev. apply normStep_invariant; [exact H | constructor].
Qed.

Lemma fold_normStep_kept (segs stack : list string) :
  Forall keptSegment segs ->
  fold_left Path.normStep segs stack = rev segs ++ stack.
Proof.
  revert stack. induction segs as [| s segs IH]; intros stack H; simpl;
    [reflexivity |].
  inversion H as [| ? ? Hs Hrest]; subst.
  rewrite normStep_kept by exact Hs. rewrite IH by exact Hrest.
  rewrite <- app_assoc. reflexivity.
Qed.

Lemma fold_normStep_ups (n : nat) (stack : list string) :
  fold_left Path.normStep (List.repeat ".." n) stack = drop n stack.
Proof.
  revert stack. induction n as [| n IH]; intros stack; simpl.
  - rewrite drop_0. reflexivity.
  - rewrite IH. change (Path.normStep stack "..") with (tail stack).
    destruct stack; simpl; [apply drop_nil | reflexivity].
Qed.

Lemma commonPrefix_take (a b : list string) :
  take (Path.commonPrefix a b) a = take (Path.commonPrefix a b) b /\
  Path.commonPrefix a b <= length a.
Proof.
  revert b. induction a as [| x a IH]; intros b; simpl.
  - split; [destruct b; reflexivity | lia].
  - destruct b as [| y b]; simpl; [split; [reflexivity | lia] |].
    destruct (String.eqb x y) eqn:E; simpl; [| split; [reflexivity | lia]].
    apply String.eqb_eq in E. subst y.
    destruct (IH b) as [Ht Hl]. split; [rewrite Ht; reflexivity | lia].
Qed.

(** Walking the relative path from [f] arrives at [t]. *)
Lemma relative_segments_arrive (f t : list string) :
  Forall keptSegment t ->
  let k := Path.commonPrefix f t in
  fold_left Path.normStep (List.repeat ".." (length f - k) ++ drop k t) (rev f)
  = rev t.
Proof.
  intros Ht k. destruct (commonPrefix_take f t) as [Htake Hle]. fold k in Htake, Hle.
  rewrite fold_left_app, fold_normStep_ups.
  rewrite fold_normStep_kept by (apply Forall_drop; exact Ht).
  assert (Hdrop : drop (length f - k) (rev f) = rev (take k f)).
  { rewrite <- (take_drop k f) at 1 2.
    rewrite rev_app_distr, length_app, length_take.
    replace (k `min` length f) with k by lia.
    replace (k + length (drop k f) - k) with (length (rev (drop k f)))
      by (rewrite length_rev; lia).
    rewrite drop_app_length. reflexivity. }
  rewrite Hdrop, Htake, <- rev_app_distr, take_drop. reflexivity.
Qed.

End PathFacts.

Section RelativeLinks.

Context `{Host}.

Lemma isAbsolute_app (a b : string) :
  Js.truthy a = true -> Path.isAbsolute (a +:+ b) = Path.isAbsolute a.
Proof.
  destruct a as [| c a]; [discriminate |]. intros _.
  unfold Path.isAbsolute. simpl. reflexivity.
Qed.

Lemma fold_normStep_trailing (segs stack : list string) :
  fold_left Path.normStep (segs ++ [""]) stack
  = fold_left Path.normStep segs stack.
Proof. rewrite fold_left_app. reflexivity. Qed.

Lemma splitOn_rooted_slashFree (p : string) :
  Forall slashFree (Js.splitOn "/" (rooted p)).
Proof. apply splitOn_parts_slashFree. Qed.

Lemma resolveSegs_one (p : string) :
  Js.truthy p = true ->
  rev (Path.resolveSegs [p])
  = fold_left Path.normStep (Js.splitOn "/" (rooted p)) [].
Proof.
  intros Hp. unfold Path.resolveSegs, Path.normalizeAbs, rooted.
  cbn [Path.resolveJoin]. change (Path.isAbsolute "") with false. cbv iota.
  rewrite Hp, rev_involutive.
  rewrite (isAbsolute_app p _ Hp).
  change (p +:+ "/" +:+ "") with (p +:+ String "/" "").
  destruct (Path.isAbsolute p).
  - rewrite splitOn_app. apply fold_normStep_trailing.
  - change (cwd +:+ "/" +:+ p +:+ String "/" "")
      with (cwd +:+ String "/" (p +:+ String "/" "")).
    change (cwd +:+ "/" +:+ p) with (cwd +:+ String "/" p).
    rewrite !splitOn_app, app_assoc. apply fold_normStep_trailing.
Qed.

Lemma resolveSegs_two (dir link : string) :
  Js.truthy dir = true -> Js.truthy link = true ->
  Path.isAbsolute link = false ->
  rev (Path.resolveSegs [dir; link])
  = fold_left Path.normStep (Js.splitOn "/" link) (rev (Path.resolveSegs [dir])).
Proof.
  intros Hd Hl Hrel. rewrite (resolveSegs_one dir Hd).
  unfold Path.resolveSegs, Path.normalizeAbs, rooted.
  cbn [Path.resolveJoin]. change (Path.isAbsolute "") with false. cbv iota.
  rewrite Hl, rev_involutive.
  rewrite (isAbsolute_app link _ Hl), Hrel, Hd.
  rewrite (isAbsolute_app dir _ Hd).
  change (dir +:+ "/" +:+ link +:+ "/" +:+ "")
    with (dir +:+ String "/" (link +:+ String "/" "")).
  destruct (Path.isAbsolute dir).
  - rewrite !splitOn_app, !fold_left_app. reflexivity.
  - change (cwd +:+ "/" +:+ dir +:+ String "/" (link +:+ String "/" ""))
      with (cwd +:+ String "/" (dir +:+ String "/" (link +:+ String "/" ""))).
    change (cwd +:+ "/" +:+ dir) with (cwd +:+ String "/" dir).
    rewrite !splitOn_app, !fold_left_app. reflexivity.
Qed.

Lemma resolveSegs_kept (paths : list string) :
  Forall (fun s => keptSegment s /\ slashFree s) (Path.resolveSegs paths).
Proof.
  unfold Path.resolveSegs. apply normalizeAbs_kept, splitOn_parts_slashFree.
Qed.

Lemma dirname_truthy (p : string) : Js.truthy (Path.dirname p) = true.
Proof.
  unfold Path.dirname. destruct p as [| c0 p]; [reflexivity |].
  destruct (Path.dirnameEnd _ true); [| destruct (Ascii.eqb c0 "/"); reflexivity].
  destruct (Ascii.eqb c0 "/" && (length l =? 0)%nat); reflexivity.
Qed.

(** Resolving what [path.relative] returns, from [from], arrives at [to]. *)
Lemma relative_arrives (from to : string) (stack : list string) :
  stack = rev (Path.resolveSegs [from]) ->
  fold_left Path.normStep (Js.splitOn "/" (Path.relative from to)) stack
  = rev (Path.resolveSegs [to]).
Proof.
  intros ->. unfold Path.relative.
  destruct (String.eqb from to) eqn:E.
  - apply String.eqb_eq in E. subst to. reflexivity.
  - set (f := Path.resolveSegs [from]). set (t := Path.resolveSegs [to]).
    pose proof (resolveSegs_kept [to]) as Ht. fold t in Ht.
    assert (Hk : Forall keptSegment t)
      by (eapply Forall_impl; [exact Ht | intros x [? ?]; assumption]).
    assert (Hs : Forall slashFree t)
      by (eapply Forall_impl; [exact Ht | intros x [? ?]; assumption]).
    pose proof (relative_segments_arrive f t Hk) as Harr. cbv zeta in Harr.
    set (segs := List.repeat ".." (length f - Path.commonPrefix f t)
                 ++ drop (Path.commonPrefix f t) t) in *.
    destruct segs as [| s segs'] eqn:Esegs.
    + simpl in *. exact Harr.
    + rewrite splitOn_join; [exact Harr | discriminate |].
      rewrite <- Esegs. unfold segs. apply Forall_app. split.
      * apply Forall_forall. intros x Hx. apply list_elem_of_In in Hx.
        apply repeat_spec in Hx. subst x. repeat constructor; discriminate.
      * apply Forall_drop. exact Hs.
Qed.

End RelativeLinks.

(** C5.  The link from the page [filename] to a declaration starts with
    [./] or [../], and resolving it against the directory of [filename]
    gives the location of the path computed for the declaration: both
    resolve to the same absolute path. *)
Theorem relative_link_resolves_to_target_path `{Host} (filename : string)
    (target : ApiItem) :
  let link := _getLinkFilenameForApiItem filename target in
  (Js.startsWith link "./" = true \/ Js.startsWith link "../" = true) /\
  Path.resolve [Path.dirname filename; link]
  = Path.resolve [_getFilenameForApiItem target].
Proof.
  cbv zeta. unfold _getLinkFilenameForApiItem.
  set (dir := Path.dirname filename).
  set (to := _getFilenameForApiItem target).
  set (destination := Path.relative dir to).
  pose proof (dirname_truthy filename) as Hdir. fold dir in Hdir.
  pose proof (relative_arrives dir to _ eq_refl) as Harr. fold destination in Harr.
  assert (Hgoal : forall link,
             Js.truthy link = true -> Path.isAbsolute link = false ->
             fold_left Path.normStep (Js.splitOn "/" link)
               (rev (Path.resolveSegs [dir])) = rev (Path.resolveSegs [to]) ->
             Path.resolve [dir; link] = Path.resolve [to]).
  { intros link Hl Hrel Hfold. unfold Path.resolve. do 2 f_equal.
    rewrite <- (rev_involutive (Path.resolveSegs [dir; link])).
    rewrite (resolveSegs_two dir link Hdir Hl Hrel), Hfold.
    apply rev_involutive. }
  assert (Hdot : forall d p, Js.startsWith d (String "." p) = true ->
                 Js.truthy d = true /\ Path.isAbsolute d = false).
  { intros [| c d] p; simpl; [discriminate |].
    destruct (Ascii.eqb c ".") eqn:Ec; [| discriminate].
    apply Ascii.eqb_eq in Ec. subst c. intros _. split; reflexivity. }
  destruct (Js.startsWith destination "./") eqn:E1; cbn [negb andb].
  - split; [left; exact E1 |].
    destruct (Hdot _ _ E1). apply Hgoal; assumption.
  - destruct (Js.startsWith destination "../") eqn:E2; cbn [negb andb].
    + split; [right; exact E2 |].
      destruct (Hdot _ _ E2). apply Hgoal; assumption.
    + split; [left; reflexivity |].
      apply Hgoal; [reflexivity | reflexivity |].
      change ("./" +:+ destination) with ("." +:+ String "/" destination).
      rewrite splitOn_app, fold_left_app. exact Harr.
Qed.

Example relative_link_samples :
  @_getLinkFilenameForApiItem Sample.host "namespaces/n/classes/c.md"
    (Sample.topLevel Sample.zoo Sample.dog) = "../../../classes/dog.md" /\
  @_getLinkFilenameForApiItem Sample.host "index.md"
    (Sample.topLevel Sample.zoo Sample.dog) = "./classes/dog.md" /\
  @Path.resolve Sample.host ["namespaces/n/classes"; "../../../classes/dog.md"]
  = "/home/docs/classes/dog.md".
Proof. vm_compute. repeat split; reflexivity. Qed.

(** When the path of the target has no empty, [.] or [..] segment, what the
    link resolves to is that very path under the working directory. *)
Lemma clean_path_resolves_to_itself `{Host} (to : string) :
  Forall keptSegment (Js.splitOn "/" to) ->
  Path.resolveSegs [to] = Path.resolveSegs [] ++ Js.splitOn "/" to.
Proof.
  intros Hclean.
  assert (Hto : Js.truthy to = true /\ Path.isAbsolute to = false).
  { destruct to as [| c to]; [inversion Hclean as [| ? ? [Hne _] _]; contradiction |].
    split; [reflexivity |]. unfold Path.isAbsolute. simpl.
    destruct (Ascii.eqb c "/") eqn:E; [| reflexivity].
    apply Ascii.eqb_eq in E. subst c. simpl in Hclean.
    inversion Hclean as [| ? ? [Hne _] _]. contradiction. }
  destruct Hto as [Htruthy Hrel].
  rewrite <- (rev_involutive (Path.resolveSegs [to])).
  rewrite (resolveSegs_one to Htruthy). unfold rooted. rewrite Hrel.
  change (cwd +:+ "/" +:+ to) with (cwd +:+ String "/" to).
  rewrite splitOn_app, fold_left_app.
  rewrite fold_normStep_kept by exact Hclean.
  rewrite rev_app_distr, rev_involutive. f_equal.
  unfold Path.resolveSegs, Path.normalizeAbs. cbn [Path.resolveJoin].
  change (Path.isAbsolute "") with false. cbv iota.
  change (cwd +:+ "/" +:+ "") with (cwd +:+ String "/" "").
  rewrite splitOn_app, fold_normStep_trailing. reflexivity.
Qed.

(** ** Termination of the upward walks (C4) *)

Section UpwardWalks.

Variable inheritanceMap : InheritanceMap.

Lemma inheritanceGet_entry (k : ApiItem) (refs : Refs) :
  inheritanceGet k inheritanceMap = Some refs ->
  exists key, In (key, refs) inheritanceMap /\ uid key = uid k.
Proof.
  unfold inheritanceGet. induction inheritanceMap as [| [k' v] m IH]; simpl;
    [discriminate |].
  destruct (same k' k) eqn:E.
  - intros [= <-]. exists k'. split; [left; reflexivity |].
    apply N.eqb_eq. exact E.
  - intros Hget. destruct (IH Hget) as (key & Hin & Hk).
    exists key. split; [right; exact Hin | exact Hk].
Qed.

(** On a cycle of two classes the member walk never leaves its loop and
    the parent walk never stops recursing. *)
Lemma inheritedLoop_two_cycle (a b : ApiItem) (ra rb : Refs) :
  inheritanceGet a inheritanceMap = Some ra -> parentsOf ra = [Item b] ->
  inheritanceGet b inheritanceMap = Some rb -> parentsOf rb = [Item a] ->
  forall fuel lvl byName,
    inheritedLoop fuel inheritanceMap lvl [Item a] [] byName = None /\
    inheritedLoop fuel inheritanceMap lvl [Item b] [] byName = None.
Proof.
  intros Ha Hpa Hb Hpb. induction fuel as [| fuel IH]; intros lvl byName.
  - split; reflexivity.
  - split; cbn [inheritedLoop]; [rewrite Ha, Hpa | rewrite Hb, Hpb];
      cbn [app]; apply IH.
Qed.

Lemma generateParentTree_two_cycle (a b : ApiItem) (ra rb : Refs) :
  inheritanceGet a inheritanceMap = Some ra -> parentClass ra = Some (Item b) ->
  inheritanceGet b inheritanceMap = Some rb -> parentClass rb = Some (Item a) ->
  forall fuel childNode,
    _generateParentTree fuel inheritanceMap (Item a) childNode = None /\
    _generateParentTree fuel inheritanceMap (Item b) childNode = None.
Proof.
  intros Ha Hpa Hb Hpb. induction fuel as [| fuel IH]; intros childNode.
  - split; reflexivity.
  - split; cbn [_generateParentTree]; [rewrite Ha, Hpa | rewrite Hb, Hpb];
      cbn [truthyRef]; apply IH.
Qed.

Variable rank : N -> nat.
Hypothesis ranked : Ranked inheritanceMap rank.

Lemma parents_rank_below (k : ApiItem) (refs : Refs) :
  inheritanceGet k inheritanceMap = Some refs ->
  Forall (fun p => refRank rank p < refRank rank (Item k)) (parentsOf refs).
Proof.
  intros Hget. destruct (inheritanceGet_entry k refs Hget) as (key & Hin & Hk).
  unfold Ranked in ranked. rewrite Forall_forall in ranked.
  specialize (ranked (key, refs) (proj2 (list_elem_of_In _ _) Hin)).
  simpl in ranked. eapply Forall_impl; [exact ranked |].
  intros [q | s] Hq; simpl; [rewrite <- Hk; lia | lia].
Qed.

(** One ring of the member walk is finished after finitely many steps, if
    every lower ring is. *)
Lemma inheritedLoop_ring (R : nat) :
  (forall cur lvl byName,
     Forall (fun r => refRank rank r < R) cur ->
     exists fuel res,
       inheritedLoop fuel inheritanceMap lvl cur [] byName = Some res) ->
  forall cur next lvl byName,
    Forall (fun r => refRank rank r <= R) cur ->
    Forall (fun r => refRank rank r < R) next ->
    exists fuel res,
      inheritedLoop fuel inheritanceMap lvl cur next byName = Some res.
Proof.
  intros Hlower. induction cur as [| current rest IH];
    intros next lvl byName Hcur Hnext.
  - exists 0, byName. reflexivity.
  - inversion Hcur as [| ? ? Hc Hrest]; subst.
    set (step :=
           match current with
           | Str _ => (byName, next)
           | Item current =>
               (fold_left (recordMember lvl) (members current) byName,
                next ++ match inheritanceGet current inheritanceMap with
                        | Some refs => parentsOf refs
                        | None => []
                        end)
           end).
    assert (Hnext' : Forall (fun r => refRank rank r < R) (snd step)).
    { unfold step. destruct current as [c | s]; simpl; [| exact Hnext].
      apply Forall_app. split; [exact Hnext |].
      destruct (inheritanceGet c inheritanceMap) as [refs |] eqn:Hget;
        [| constructor].
      eapply Forall_impl; [exact (parents_rank_below c refs Hget) |].
      cbv beta. intros p Hp. simpl in Hc, Hp. lia. }
    destruct rest as [| r rest'].
    + destruct (Hlower (snd step) (lvl + 1) (fst step) Hnext') as (fuel & res & Hres).
      exists (S fuel), res. cbn [inheritedLoop]. fold step.
      destruct step as [byName' next']. exact Hres.
    + destruct (IH (snd step) lvl (fst step) Hrest Hnext') as (fuel & res & Hres).
      exists (S fuel), res. cbn [inheritedLoop]. fold step.
      destruct step as [byName' next']. exact Hres.
Qed.

Lemma inheritedLoop_returns (R : nat) :
  forall cur lvl byName,
    Forall (fun r => refRank rank r < R) cur ->
    exists fuel res,
      inheritedLoop fuel inheritanceMap lvl cur [] byName = Some res.
Proof.
  induction R as [| R IH]; intros cur lvl byName Hcur.
  - destruct cur as [| c cur]; [exists 0, byName; reflexivity |].
    inversion Hcur; subst. lia.
  - apply (inheritedLoop_ring R IH); [| constructor].
    eapply Forall_impl; [exact Hcur |]. cbv beta. intros; lia.
Qed.

Lemma rank_bound (l : list ItemOrString) :
  exists R, Forall (fun r => refRank rank r < R) l.
Proof.
  induction l as [| x l [R HR]]; [exists 0; constructor |].
  exists (S (Nat.max R (refRank rank x))). constructor; [lia |].
  eapply Forall_impl; [exact HR |]. cbv beta. intros; lia.
Qed.

Lemma getInheritedMembers_returns (apiItem : ApiItem) :
  exists fuel members,
    _getInheritedMembers fuel inheritanceMap apiItem = Some members.
Proof.
  unfold _getInheritedMembers.
  set (cur := match inheritanceGet apiItem inheritanceMap with
              | Some refs => parentsOf refs
              | None => []
              end).
  destruct (rank_bound cur) as [R HR].
  destruct (inheritedLoop_returns R cur 1 [] HR) as (fuel & res & Hres).
  exists fuel, (flattenLevels res). rewrite Hres. reflexivity.
Qed.

Lemma generateParentTree_returns (n : nat) :
  forall start childNode,
    refRank rank start <= n ->
    exists fuel tree,
      _generateParentTree fuel inheritanceMap start childNode = Some tree.
Proof.
  induction n as [| n IH]; intros start childNode Hn.
  - destruct start as [it | s]; simpl in Hn; [lia |].
    exists 1. eexists. reflexivity.
  - destruct start as [it | s]; [| exists 1; eexists; reflexivity].
    destruct (inheritanceGet it inheritanceMap) as [entry |] eqn:Hget.
    + destruct (truthyRef (parentClass entry)) eqn:Ht.
      * destruct (parentClass entry) as [p |] eqn:Hp; [| discriminate].
        pose proof (parents_rank_below it entry Hget) as Hbelow.
        unfold parentsOf in Hbelow. rewrite Hp, Ht in Hbelow.
        inversion Hbelow as [| ? ? Hlt _]; subst.
        edestruct (IH p) as (fuel & tree & Htree);
          [simpl in Hn, Hlt |- *; lia |].
        exists (S fuel), tree. cbn [_generateParentTree].
        rewrite Hget, Hp, Ht. exact Htree.
      * exists 1. eexists. cbn [_generateParentTree]. rewrite Hget, Ht.
        reflexivity.
    + exists 1. eexists. cbn [_generateParentTree]. rewrite Hget. reflexivity.
Qed.

End UpwardWalks.

(** C4 as stated fails: neither walk remembers the nodes it has visited.
    For the malformed input [class A extends B], [class B extends A] the
    member walk of [A] does not return whatever the number of iterations,
    and neither does the parent walk that the class hierarchy of [A] starts
    at [B]. *)
Lemma cyclic_extends_walks_do_not_return :
  let inheritanceMap := Sample.inheritanceMapOf Sample.cyclic in
  let a := Sample.topLevel Sample.cyclic Sample.cycleA in
  let b := Sample.topLevel Sample.cyclic Sample.cycleB in
  (parentClass <$> inheritanceGet a inheritanceMap) = Some (Some (Item b)) /\
  (forall fuel, _getInheritedMembers fuel inheritanceMap a = None) /\
  (forall fuel childNode,
     _generateParentTree fuel inheritanceMap (Item b) childNode = None).
Proof.
  cbv zeta.
  set (inheritanceMap := Sample.inheritanceMapOf Sample.cyclic).
  set (a := Sample.topLevel Sample.cyclic Sample.cycleA).
  set (b := Sample.topLevel Sample.cyclic Sample.cycleB).
  destruct (inheritanceGet a inheritanceMap) as [ra |] eqn:Ha;
    [| vm_compute in Ha; discriminate].
  destruct (inheritanceGet b inheritanceMap) as [rb |] eqn:Hb;
    [| vm_compute in Hb; discriminate].
  assert (Hra : parentClass ra = Some (Item b) /\ parentsOf ra = [Item b]).
  { vm_compute in Ha. injection Ha as <-. split; vm_compute; reflexivity. }
  assert (Hrb : parentClass rb = Some (Item a) /\ parentsOf rb = [Item a]).
  { vm_compute in Hb. injection Hb as <-. split; vm_compute; reflexivity. }
  destruct Hra as [Hca Hpa], Hrb as [Hcb Hpb].
  split; [simpl; rewrite Hca; reflexivity |]. split.
  - intros fuel. unfold _getInheritedMembers. rewrite Ha, Hpa.
    destruct (inheritedLoop_two_cycle inheritanceMap b a rb ra Hb Hpb Ha Hpa
                fuel 1 []) as [Hloop _].
    rewrite Hloop. reflexivity.
  - intros fuel childNode.
    apply (generateParentTree_two_cycle inheritanceMap b a rb ra Hb Hcb Ha Hca).
Qed.

(** C4, amended.  When the resolved parent edges of the inheritance graph
    form no cycle (they descend along a rank), the breadth-first member walk
    of every item returns after finitely many iterations, and so does the
    parent walk of the class hierarchy from every start.  The code keeps no
    record of visited nodes: on a cycle neither walk returns. *)
Theorem upward_walks_return_on_acyclic_graph (inheritanceMap : InheritanceMap)
    (rank : N -> nat) :
  Ranked inheritanceMap rank ->
  forall apiItem : ApiItem,
    (exists fuel members,
       _getInheritedMembers fuel inheritanceMap apiItem = Some members) /\
    (forall (start : ItemOrString) (childNode : TreeNode),
       exists fuel tree,
         _generateParentTree fuel inheritanceMap start childNode = Some tree).
Proof.
  intros Hranked apiItem. split.
  - apply (getInheritedMembers_returns inheritanceMap rank Hranked).
  - intros start childNode.
    apply (generateParentTree_returns inheritanceMap rank Hranked
             (refRank rank start)). lia.
Qed.

Lemma upward_walks_return_on_acyclic_graph_witness :
  let inheritanceMap := Sample.inheritanceMapOf Sample.zoo in
  let rank := fun id : N => if N.eqb id 20 then 1 else 0 in
  Ranked inheritanceMap rank /\
  exists fuel members,
    _getInheritedMembers fuel inheritanceMap
      (Sample.topLevel Sample.zoo Sample.dog) = Some members.
Proof.
  cbv zeta.
  assert (Hranked : Ranked (Sample.inheritanceMapOf Sample.zoo)
                      (fun id : N => if N.eqb id 20 then 1 else 0)).
  { unfold Ranked. vm_compute. repeat constructor. }
  split; [exact Hranked |].
  apply (upward_walks_return_on_acyclic_graph _ _ Hranked
           (Sample.topLevel Sample.zoo Sample.dog)).
Defined.

(** ** Member resolution (C3) *)

(** *** Sorting *)

Section SortFacts.

Context {A : Type} (cmp : A -> A -> Z).
Hypothesis cmp_total : forall a b, (cmp a b <= 0)%Z \/ (cmp b a <= 0)%Z.
Hypothesis cmp_trans :
  forall a b c, (cmp a b <= 0)%Z -> (cmp b c <= 0)%Z -> (cmp a c <= 0)%Z.

Let le (a b : A) : Prop := (cmp a b <= 0)%Z.

Lemma insertSorted_perm (x : A) (l : list A) :
  Permutation (insertSorted cmp x l) (x :: l).
Proof.
  induction l as [| y l IH]; simpl; [reflexivity |].
  destruct (cmp x y <=? 0)%Z; [reflexivity |].
  rewrite IH. apply perm_swap.
Qed.

Lemma sort_perm (l : list A) : Permutation (sort cmp l) l.
Proof.
  induction l as [| x l IH]; simpl; [reflexivity |].
  rewrite insertSorted_perm, IH. reflexivity.
Qed.

Lemma insertSorted_sorted (x : A) (l : list A) :
  StronglySorted le l -> StronglySorted le (insertSorted cmp x l).
Proof.
  induction l as [| y l IH]; intros Hs; simpl.
  - repeat constructor.
  - inversion Hs as [| ? ? Hl Hy]; subst.
    destruct (cmp x y <=? 0)%Z eqn:E.
    + apply Z.leb_le in E. constructor; [exact Hs |].
      constructor; [exact E |].
      eapply Forall_impl; [exact Hy |]. cbv beta. intros z Hz.
      exact (cmp_trans x y z E Hz).
    + apply Z.leb_gt in E. constructor; [apply IH, Hl |].
      rewrite (insertSorted_perm x l). constructor; [| exact Hy].
      destruct (cmp_total y x) as [H | H]; [exact H | unfold le; lia].
Qed.

Lemma sort_sorted (l : list A) : StronglySorted le (sort cmp l).
Proof.
  induction l as [| x l IH]; simpl; [constructor |].
  apply insertSorted_sorted, IH.
Qed.

End SortFacts.

(** *** The merge loop *)

Section MergeFacts.

Context `{Host}.
Hypothesis collation : TotalCollation localeCompare.

Local Abbreviation le := nameLe.
Local Abbreviation lt := nameLt.

Lemma name_le_refl (a : string) : le a a.
Proof.
  unfold nameLe. rewrite (proj2 (collation_eq _ collation a a) eq_refl). lia.
Qed.

Lemma name_total (a b : string) : le a b \/ le b a.
Proof.
  unfold nameLe. destruct (Z_le_gt_dec (localeCompare a b) 0%Z) as [Hle | Hgt];
    [left; exact Hle |].
  right. apply (collation_antisym _ collation) in Hgt. lia.
Qed.

Lemma name_lt_le_trans (a b c : string) : lt a b -> le b c -> lt a c.
Proof.
  unfold nameLt, nameLe. intros Hab Hbc.
  assert (Hac : (localeCompare a c <= 0)%Z)
    by (apply (collation_trans _ collation a b c); lia).
  destruct (Z.eq_dec (localeCompare a c) 0%Z) as [E | E]; [| lia].
  apply (collation_eq _ collation) in E. subst c.
  apply (collation_antisym _ collation) in Hab. lia.
Qed.

Lemma name_le_lt_trans (a b c : string) : le a b -> lt b c -> lt a c.
Proof.
  unfold nameLt, nameLe. intros Hab Hbc.
  assert (Hac : (localeCompare a c <= 0)%Z)
    by (apply (collation_trans _ collation a b c); lia).
  destruct (Z.eq_dec (localeCompare a c) 0%Z) as [E | E]; [| lia].
  apply (collation_eq _ collation) in E. subst c.
  apply (collation_antisym _ collation) in Hbc. lia.
Qed.

Lemma name_lt_trans (a b c : string) : lt a b -> lt b c -> lt a c.
Proof.
  intros Hab Hbc. apply (name_lt_le_trans a b c Hab). unfold nameLt, nameLe in *. lia.
Qed.

Lemma name_lt_neq (a b : string) : lt a b -> a <> b.
Proof.
  unfold nameLt. intros Hab ->.
  rewrite (proj2 (collation_eq _ collation b b) eq_refl) in Hab. lia.
Qed.

Lemma mergeMembers_Merged (own : list ApiItem) (inh : list Inherited) :
  Merged own inh (mergeMembers own inh).
Proof.
  revert inh. induction own as [| o own IHown].
  - induction inh as [| i inh IHinh]; simpl; constructor. exact IHinh.
  - induction inh as [| i inh IHinh].
    + simpl. constructor. apply IHown.
    + cbn [mergeMembers].
      destruct (localeCompare (displayName o) (firstName i) >? 0)%Z eqn:Egt.
      * apply Merged_inherited; [apply Z.gtb_gt; exact Egt | exact IHinh].
      * destruct (localeCompare (displayName o) (firstName i) <? 0)%Z eqn:Elt.
        -- apply Merged_own; [apply Z.ltb_lt; exact Elt | apply IHown].
        -- apply Merged_both; [| apply IHown].
           rewrite Z.gtb_ltb in Egt. apply Z.ltb_ge in Egt, Elt. lia.
Qed.

Lemma entryName_inherited (i : Inherited) :
  HeadedChain i -> entryName (inheritedEntry i) = firstName i.
Proof.
  intros (f & rest & Hf & Hc). unfold entryName, renderedMember, firstName.
  simpl. rewrite Hf, Hc. reflexivity.
Qed.

(** The own members come out in their order, one entry each. *)
Lemma Merged_own_members (own : list ApiItem) (inh : list Inherited)
    (r : list ResolvedMember) :
  Merged own inh r -> omap ownMember r = own.
Proof.
  induction 1; cbn; rewrite ?IHMerged; reflexivity.
Qed.

(** The names listed are those of the two inputs. *)
Lemma Merged_names (own : list ApiItem) (inh : list Inherited)
    (r : list ResolvedMember) :
  Merged own inh r -> Forall HeadedChain inh ->
  forall n, In n (map entryName r) <->
            In n (map displayName own) \/ In n (map firstName inh).
Proof.
  induction 1 as [| i inh r Hm IH | o own r Hm IH | o own i inh r Hc Hm IH
                  | o own i inh r Hc Hm IH | o own i inh r Hc Hm IH];
    intros Hwf n.
  - simpl. tauto.
  - inversion Hwf as [| ? ? Hi Hrest]; subst. simpl.
    rewrite (entryName_inherited i Hi), (IH Hrest n). simpl. tauto.
  - simpl. rewrite (IH Hwf n). simpl. tauto.
  - inversion Hwf as [| ? ? Hi Hrest]; subst. simpl.
    rewrite (entryName_inherited i Hi), (IH Hrest n). simpl. tauto.
  - simpl. rewrite (IH Hwf n). simpl. tauto.
  - inversion Hwf as [| ? ? Hi Hrest]; subst. simpl.
    rewrite (IH Hrest n).
    apply (collation_eq _ collation) in Hc.
    change (entryName (bothEntry o i)) with (displayName o).
    rewrite <- Hc. tauto.
Qed.

(** The output is sorted for every relation [R] that [lt] implies and that
    composes with [lt] on the left, when the own names are sorted for [R]
    and the inherited names strictly. *)
Lemma Merged_sorted (R : string -> string -> Prop) :
  (forall a b, lt a b -> R a b) ->
  (forall a b c, lt a b -> R b c -> R a c) ->
  forall own inh r,
    Merged own inh r -> Forall HeadedChain inh ->
    StronglySorted R (map displayName own) ->
    StronglySorted lt (map firstName inh) ->
    StronglySorted R (map entryName r).
Proof.
  intros Hlt Hcomp own inh r Hm.
  induction Hm as [| i inh r Hm IH | o own r Hm IH | o own i inh r Hc Hm IH
                   | o own i inh r Hc Hm IH | o own i inh r Hc Hm IH];
    intros Hwf Hown Hinh.
  - constructor.
  - inversion Hwf as [| ? ? Hi Hrest]; subst.
    inversion Hinh as [| ? ? Hs Hall]; subst.
    simpl. constructor; [apply IH; assumption |].
    rewrite (entryName_inherited i Hi).
    apply Forall_forall. intros n Hn. apply list_elem_of_In in Hn.
    apply (Merged_names _ _ _ Hm Hrest) in Hn. destruct Hn as [[] | Hn].
    rewrite Forall_forall in Hall. apply Hlt, Hall, list_elem_of_In, Hn.
  - inversion Hown as [| ? ? Hs Hall]; subst.
    simpl. constructor; [apply IH; assumption |].
    apply Forall_forall. intros n Hn. apply list_elem_of_In in Hn.
    apply (Merged_names _ _ _ Hm Hwf) in Hn. destruct Hn as [Hn | []].
    rewrite Forall_forall in Hall. apply Hall, list_elem_of_In, Hn.
  - inversion Hwf as [| ? ? Hi Hrest]; subst.
    inversion Hinh as [| ? ? Hs Hall]; subst.
    inversion Hown as [| ? ? Hso Hallo]; subst.
    assert (Hio : lt (firstName i) (displayName o))
      by (apply (collation_antisym _ collation); exact Hc).
    simpl. constructor; [apply IH; assumption |].
    rewrite (entryName_inherited i Hi).
    apply Forall_forall. intros n Hn. apply list_elem_of_In in Hn.
    apply (Merged_names _ _ _ Hm Hrest) in Hn. destruct Hn as [[<- | Hn] | Hn].
    + apply Hlt, Hio.
    + apply (Hcomp _ _ _ Hio). rewrite Forall_forall in Hallo.
      apply Hallo, list_elem_of_In, Hn.
    + rewrite Forall_forall in Hall. apply Hlt, Hall, list_elem_of_In, Hn.
  - inversion Hwf as [| ? ? Hi Hrest]; subst.
    inversion Hinh as [| ? ? Hs Hall]; subst.
    inversion Hown as [| ? ? Hso Hallo]; subst.
    simpl. constructor; [apply IH; assumption |].
    change (entryName (ownEntry o)) with (displayName o).
    apply Forall_forall. intros n Hn. apply list_elem_of_In in Hn.
    apply (Merged_names _ _ _ Hm Hwf) in Hn. destruct Hn as [Hn | [<- | Hn]].
    + rewrite Forall_forall in Hallo. apply Hallo, list_elem_of_In, Hn.
    + apply Hlt, Hc.
    + apply Hlt. apply (name_lt_trans _ (firstName i)); [exact Hc |].
      rewrite Forall_forall in Hall. apply Hall, list_elem_of_In, Hn.
  - inversion Hwf as [| ? ? Hi Hrest]; subst.
    inversion Hinh as [| ? ? Hs Hall]; subst.
    inversion Hown as [| ? ? Hso Hallo]; subst.
    apply (collation_eq _ collation) in Hc.
    simpl. constructor; [apply IH; assumption |].
    change (entryName (bothEntry o i)) with (displayName o).
    apply Forall_forall. intros n Hn. apply list_elem_of_In in Hn.
    apply (Merged_names _ _ _ Hm Hrest) in Hn. destruct Hn as [Hn | Hn].
    + rewrite Forall_forall in Hallo. apply Hallo, list_elem_of_In, Hn.
    + apply Hlt. rewrite Hc. rewrite Forall_forall in Hall.
      apply Hall, list_elem_of_In, Hn.
Qed.

End MergeFacts.

(** *** The table of inherited members *)

Section StringMap.

Context {V : Type}.
Implicit Types (m : list (string * V)) (k : string) (v : V).

Lemma get_None_keys k m :
  JsMap.get String.eqb k m = None <-> ~ In k (map fst m).
Proof.
  induction m as [| [k' v'] m IH]; simpl; [tauto |].
  destruct (String.eqb k' k) eqn:E.
  - apply String.eqb_eq in E. split; [discriminate | tauto].
  - apply String.eqb_neq in E. rewrite IH. tauto.
Qed.

Lemma get_Some_In k v m : JsMap.get String.eqb k m = Some v -> In (k, v) m.
Proof.
  induction m as [| [k' v'] m IH]; simpl; [discriminate |].
  destruct (String.eqb k' k) eqn:E.
  - apply String.eqb_eq in E. intros [= <-]. left. congruence.
  - intros Hg. right. apply IH, Hg.
Qed.

Lemma set_keys_present k v m :
  In k (map fst m) -> map fst (JsMap.set String.eqb k v m) = map fst m.
Proof.
  induction m as [| [k' v'] m IH]; simpl; [tauto |].
  destruct (String.eqb k' k) eqn:E; simpl; [reflexivity |].
  apply String.eqb_neq in E. intros [Hk | Hk]; [contradiction |].
  rewrite (IH Hk). reflexivity.
Qed.

Lemma set_keys_absent k v m :
  ~ In k (map fst m) -> map fst (JsMap.set String.eqb k v m) = map fst m ++ [k].
Proof.
  induction m as [| [k' v'] m IH]; simpl; [reflexivity |].
  destruct (String.eqb k' k) eqn:E; simpl.
  - apply String.eqb_eq in E. tauto.
  - intros Hk. rewrite IH by tauto. reflexivity.
Qed.

Lemma set_In k v m k' v' :
  In (k', v') (JsMap.set String.eqb k v m) ->
  (k' = k /\ v' = v) \/ In (k', v') m.
Proof.
  induction m as [| [k0 v0] m IH]; simpl.
  - intros [[= <- <-] | []]. left. split; reflexivity.
  - destruct (String.eqb k0 k) eqn:E; simpl.
    + apply String.eqb_eq in E. subst k0.
      intros [[= <- <-] | Hin]; [left; split; reflexivity | right; right; exact Hin].
    + intros [Heq | Hin]; [right; left; exact Heq |].
      destruct (IH Hin) as [Hl | Hr]; [left; exact Hl | right; right; exact Hr].
Qed.

Lemma set_keys_In k v m n :
  In n (map fst (JsMap.set String.eqb k v m)) <-> In n (map fst m) \/ n = k.
Proof.
  destruct (in_dec string_dec k (map fst m)) as [Hin | Hout].
  - rewrite set_keys_present by exact Hin. split; [tauto |].
    intros [Hn | ->]; assumption.
  - rewrite set_keys_absent by exact Hout. rewrite in_app_iff. simpl.
    split; intros [Hn | Hn]; auto; destruct Hn as [-> | []]; auto.
Qed.

Lemma set_keys_NoDup k v m :
  NoDup (map fst m) -> NoDup (map fst (JsMap.set String.eqb k v m)).
Proof.
  intros Hnd. destruct (in_dec string_dec k (map fst m)) as [Hin | Hout].
  - rewrite set_keys_present by exact Hin. exact Hnd.
  - rewrite set_keys_absent by exact Hout.
    apply NoDup_ListNoDup. apply NoDup_ListNoDup in Hnd.
    apply List.NoDup_app; repeat split; try assumption.
    + repeat constructor. simpl. tauto.
    + intros x Hx [<- | []]. contradiction.
Qed.

End StringMap.

Lemma last_removelast {A : Type} (l : list A) (x : A) :
  last l = Some x -> removelast l ++ [x] = l.
Proof.
  induction l as [| a l IH]; [discriminate |].
  destruct l as [| b l].
  - simpl. intros [= ->]. reflexivity.
  - intros Hl. change (last (a :: b :: l)) with (last (b :: l)) in Hl.
    change (removelast (a :: b :: l) ++ [x])
      with (a :: (removelast (b :: l) ++ [x])).
    rewrite (IH Hl). reflexivity.
Qed.

Lemma recordMember_keys (lvl : nat) (byName : MemberLevels) (member : ApiItem)
    (n : string) :
  WellFiled byName ->
  (In n (map fst (recordMember lvl byName member)) <->
   In n (map fst byName) \/ n = displayName member).
Proof.
  intros [_ Hwf]. unfold recordMember.
  destruct (JsMap.get String.eqb (displayName member) byName) as [hierarchy |]
    eqn:Hget.
  - pose proof (get_Some_In _ _ _ Hget) as Hin.
    assert (Hkey : In (displayName member) (map fst byName))
      by (apply in_map_iff; exists (displayName member, hierarchy); auto).
    destruct (last hierarchy) as [lastLevel |] eqn:Hlast.
    + destruct (negb (level lastLevel =? lvl)%nat);
        rewrite set_keys_In; split; try tauto; intros [Hn | ->]; auto.
    + split; [tauto |]. intros [Hn | ->]; assumption.
  - apply set_keys_In.
Qed.

Lemma filedUnder_single (member : ApiItem) :
  FiledUnder (displayName member) [member].
Proof. split; [discriminate | repeat constructor]. Qed.

Lemma recordMember_wellFiled (lvl : nat) (byName : MemberLevels)
    (member : ApiItem) :
  WellFiled byName -> WellFiled (recordMember lvl byName member).
Proof.
  intros [Hnd Hwf]. unfold recordMember.
  assert (Hset : forall levels,
             levels <> [] ->
             Forall (fun l => FiledUnder (displayName member) (alternates l))
                    levels ->
             WellFiled (JsMap.set String.eqb (displayName member) levels byName)).
  { intros levels Hne Hall. split; [apply set_keys_NoDup, Hnd |].
    apply Forall_forall. intros [k v] Hkv. apply list_elem_of_In in Hkv.
    apply set_In in Hkv. destruct Hkv as [[-> ->] | Hkv]; simpl;
      [split; assumption |].
    rewrite Forall_forall in Hwf.
    apply (Hwf (k, v)), list_elem_of_In, Hkv. }
  destruct (JsMap.get String.eqb (displayName member) byName) as [hierarchy |]
    eqn:Hget.
  - pose proof (get_Some_In _ _ _ Hget) as Hin.
    rewrite Forall_forall in Hwf.
    destruct (Hwf _ (proj2 (list_elem_of_In _ _) Hin)) as [Hne Hall].
    simpl in Hne, Hall.
    destruct (last hierarchy) as [lastLevel |] eqn:Hlast;
      [| split; [exact Hnd | apply Forall_forall; exact Hwf]].
    destruct (negb (level lastLevel =? lvl)%nat).
    + apply Hset; [destruct hierarchy; discriminate |].
      apply Forall_app. split; [exact Hall |].
      constructor; [apply filedUnder_single | constructor].
    + pose proof (last_removelast _ _ Hlast) as Hsplit.
      rewrite <- Hsplit in Hall. apply Forall_app in Hall.
      destruct Hall as [Hinit Hlst].
      inversion Hlst as [| ? ? [Hne1 Hall1] _]; subst.
      apply Hset; [destruct (removelast hierarchy); discriminate |].
      apply Forall_app. split; [exact Hinit |].
      constructor; [| constructor]. simpl. split.
      * destruct (alternates lastLevel); discriminate.
      * apply Forall_app. split; [exact Hall1 | repeat constructor].
  - apply Hset; [discriminate |].
    constructor; [apply filedUnder_single | constructor].
Qed.

Lemma recordMembers_wellFiled (lvl : nat) (ms : list ApiItem)
    (byName : MemberLevels) :
  WellFiled byName -> WellFiled (fold_left (recordMember lvl) ms byName).
Proof.
  revert byName. induction ms as [| m ms IH]; intros byName Hwf; simpl;
    [exact Hwf |].
  apply IH, recordMember_wellFiled, Hwf.
Qed.

Lemma recordMembers_keys (lvl : nat) (ms : list ApiItem) (byName : MemberLevels)
    (n : string) :
  WellFiled byName ->
  (In n (map fst (fold_left (recordMember lvl) ms byName)) <->
   In n (map fst byName) \/ In n (map displayName ms)).
Proof.
  revert byName. induction ms as [| m ms IH]; intros byName Hwf; simpl;
    [tauto |].
  rewrite (IH _ (recordMember_wellFiled lvl byName m Hwf)).
  rewrite (recordMember_keys lvl byName m n Hwf). intuition congruence.
Qed.

(** *** The upward walk collects the names of all ancestors *)

Section WalkFacts.

Variable inheritanceMap : InheritanceMap.
Variable apiItem : ApiItem.

Lemma directParents_ancestor (q p : ApiItem) :
  Ancestor inheritanceMap apiItem q ->
  In (Item p) (directParents inheritanceMap q) ->
  Ancestor inheritanceMap apiItem p.
Proof.
  unfold directParents. intros Hq Hp.
  destruct (inheritanceGet q inheritanceMap) as [refs |] eqn:Hget; [| destruct Hp].
  exact (Ancestor_step _ _ q p refs Hq Hget Hp).
Qed.

(** One iteration keeps the invariant. *)
Lemma walk_step (visited : list ApiItem) (lvl : nat) (current : ItemOrString)
    (rest nextLevel : list ItemOrString) (byName : MemberLevels) :
  WalkInvariant inheritanceMap apiItem visited (current :: rest) nextLevel byName ->
  let byName' :=
    match current with
    | Str _ => byName
    | Item c => fold_left (recordMember lvl) (members c) byName
    end in
  let nextLevel' :=
    match current with
    | Str _ => nextLevel
    | Item c => nextLevel ++ directParents inheritanceMap c
    end in
  let visited' :=
    match current with
    | Str _ => visited
    | Item c => c :: visited
    end in
  forall cur' next',
    (forall x, In x (cur' ++ next') <-> In x (rest ++ nextLevel')) ->
    (cur' = [] -> next' = []) ->
    WalkInvariant inheritanceMap apiItem visited' cur' next' byName'.
Proof.
  intros Inv byName' nextLevel' visited' cur' next' Hsame Hlevels.
  destruct Inv as [Hreach Hsound Hparents Hclosed Hrec _ Hfiled].
  assert (Hold : forall x, In x (rest ++ nextLevel) -> In x (cur' ++ next')).
  { intros x Hx. apply Hsame. unfold nextLevel'.
    apply in_app_iff in Hx. destruct current; rewrite ?in_app_iff; tauto. }
  assert (Hmoved : forall p, In (Item p) ((current :: rest) ++ nextLevel) ->
                             In p visited' \/ In (Item p) (cur' ++ next')).
  { intros p [Hp | Hp].
    - subst current. left. left. reflexivity.
    - right. apply Hold, Hp. }
  split.
  - intros p Hp. apply Hsame in Hp. unfold nextLevel' in Hp.
    destruct current as [c | s].
    + rewrite !in_app_iff in Hp. destruct Hp as [Hp | [Hp | Hp]].
      * apply Hreach. right. apply in_app_iff. tauto.
      * apply Hreach. right. apply in_app_iff. tauto.
      * apply (directParents_ancestor c p); [| exact Hp].
        apply Hreach. left. reflexivity.
    + apply Hreach. right. exact Hp.
  - intros n Hn. unfold byName' in Hn. destruct current as [c | s];
      [| apply Hsound, Hn].
    apply (recordMembers_keys lvl (members c) byName n Hfiled) in Hn.
    destruct Hn as [Hn | Hn]; [apply Hsound, Hn |].
    apply in_map_iff in Hn. destruct Hn as (m & Hm & Hin).
    exists c, m. repeat split; [| exact Hin | exact Hm].
    apply Hreach. left. reflexivity.
  - intros p Hp. destruct (Hparents p Hp) as [Hv | Hq].
    + left. unfold visited'. destruct current; [right |]; exact Hv.
    + apply Hmoved, Hq.
  - intros q p Hq Hp. unfold visited' in Hq.
    assert (Hcase : In q visited \/ current = Item q).
    { destruct current as [c | s]; [| left; exact Hq].
      destruct Hq as [-> | Hq]; [right; reflexivity | left; exact Hq]. }
    destruct Hcase as [Hv | ->].
    + destruct (Hclosed q p Hv Hp) as [Hv' | Hq'].
      * left. unfold visited'. destruct current; [right |]; exact Hv'.
      * apply Hmoved, Hq'.
    + right. apply Hsame. unfold nextLevel'. rewrite !in_app_iff. tauto.
  - intros q m Hq Hm. unfold visited' in Hq, byName' |- *.
    destruct current as [c | s]; [| exact (Hrec q m Hq Hm)].
    apply (recordMembers_keys lvl (members c) byName _ Hfiled).
    destruct Hq as [-> | Hq].
    + right. apply in_map. exact Hm.
    + left. exact (Hrec q m Hq Hm).
  - exact Hlevels.
  - unfold byName'. destruct current; [| exact Hfiled].
    apply recordMembers_wellFiled, Hfiled.
Qed.

Lemma walk_loop (fuel : nat) :
  forall visited lvl cur next byName res,
    WalkInvariant inheritanceMap apiItem visited cur next byName ->
    inheritedLoop fuel inheritanceMap lvl cur next byName = Some res ->
    exists visited', WalkInvariant inheritanceMap apiItem visited' [] [] res.
Proof.
  induction fuel as [| fuel IH]; intros visited lvl cur next byName res Inv Hres.
  - destruct cur as [| c rest]; [| discriminate].
    injection Hres as <-. exists visited.
    rewrite (walk_levels _ _ _ _ _ _ Inv eq_refl) in Inv. exact Inv.
  - destruct cur as [| c rest].
    + injection Hres as <-. exists visited.
      rewrite (walk_levels _ _ _ _ _ _ Inv eq_refl) in Inv. exact Inv.
    + pose proof (walk_step visited lvl c rest next byName Inv) as Hstep.
      cbv zeta in Hstep. cbn [inheritedLoop] in Hres.
      destruct c as [c | s].
      * fold (directParents inheritanceMap c) in Hres.
        destruct rest as [| r rest'].
        -- eapply IH; [| exact Hres]. apply Hstep.
           ++ intros x. rewrite app_nil_r. reflexivity.
           ++ reflexivity.
        -- eapply IH; [| exact Hres]. apply Hstep.
           ++ intros x. reflexivity.
           ++ discriminate.
      * destruct rest as [| r rest'].
        -- eapply IH; [| exact Hres]. apply Hstep.
           ++ intros x. rewrite app_nil_r. reflexivity.
           ++ reflexivity.
        -- eapply IH; [| exact Hres]. apply Hstep.
           ++ intros x. reflexivity.
           ++ discriminate.
Qed.

Lemma walk_start :
  WalkInvariant inheritanceMap apiItem []
    (directParents inheritanceMap apiItem) [] [].
Proof.
  split.
  - intros p Hp. rewrite app_nil_r in Hp. unfold directParents in Hp.
    destruct (inheritanceGet apiItem inheritanceMap) as [refs |] eqn:Hget;
      [| destruct Hp].
    exact (Ancestor_parent _ _ p refs Hget Hp).
  - intros n [].
  - intros p Hp. right. rewrite app_nil_r. exact Hp.
  - intros q p [].
  - intros q m [].
  - reflexivity.
  - split; constructor.
Qed.

Lemma walk_complete (visited : list ApiItem) (res : MemberLevels) :
  WalkInvariant inheritanceMap apiItem visited [] [] res ->
  forall n, In n (map fst res) <-> InheritedName inheritanceMap apiItem n.
Proof.
  intros Inv n. split; [apply (walk_sound _ _ _ _ _ _ Inv) |].
  intros (ancestor & m & Hanc & Hm & <-).
  apply (walk_recorded _ _ _ _ _ _ Inv ancestor m); [| exact Hm].
  clear Hm. induction Hanc as [p refs Hget Hp | q p refs Hq IH Hget Hp].
  - destruct (walk_parents _ _ _ _ _ _ Inv p) as [Hv | []].
    + unfold directParents. rewrite Hget. exact Hp.
    + exact Hv.
  - destruct (walk_closed _ _ _ _ _ _ Inv q p IH) as [Hv | []].
    + unfold directParents. rewrite Hget. exact Hp.
    + exact Hv.
Qed.

(** What [_getInheritedMembers] returns: one key per inherited name, in
    distinct keys, each with a non-empty chain of members of that name. *)
Lemma getInheritedMembers_table (fuel : nat) (raw : list (string * list ApiItem)) :
  _getInheritedMembers fuel inheritanceMap apiItem = Some raw ->
  (forall n, In n (map fst raw) <-> InheritedName inheritanceMap apiItem n) /\
  NoDup (map fst raw) /\
  Forall (fun kv => FiledUnder (fst kv) (snd kv)) raw.
Proof.
  unfold _getInheritedMembers. fold (directParents inheritanceMap apiItem).
  destruct (inheritedLoop fuel inheritanceMap 1
              (directParents inheritanceMap apiItem) [] []) as [res |] eqn:Hloop;
    [| discriminate].
  simpl. intros [= <-].
  destruct (walk_loop fuel _ _ _ _ _ _ walk_start Hloop) as [visited Inv].
  assert (Hkeys : map fst (flattenLevels res) = map fst res).
  { unfold flattenLevels. rewrite map_map. reflexivity. }
  rewrite Hkeys. split; [apply (walk_complete visited res Inv) |].
  destruct (walk_filed _ _ _ _ _ _ Inv) as [Hnd Hwf]. split; [exact Hnd |].
  unfold flattenLevels. apply Forall_forall. intros kv Hkv.
  apply list_elem_of_In, in_map_iff in Hkv. destruct Hkv as ([k levels] & <- & Hin).
  rewrite Forall_forall in Hwf.
  destruct (Hwf _ (proj2 (list_elem_of_In _ _) Hin)) as [Hne Hall].
  simpl in *. clear Hin Hwf. split.
  - destruct levels as [| l levels]; [contradiction |].
    inversion Hall as [| ? ? [Hl _] _]; subst. simpl.
    destruct (alternates l); [contradiction | discriminate].
  - clear Hne. induction Hall as [| l levels [_ Hl] _ IH]; simpl;
      [constructor |].
    apply Forall_app. split; [exact Hl | exact IH].
Qed.

End WalkFacts.

(** *** Putting the walk and the merge together *)

Section ResolvedMembers.

Context `{Host}.
Hypothesis collation : TotalCollation localeCompare.

Local Abbreviation le := nameLe.
Local Abbreviation lt := nameLt.

Lemma StronglySorted_map {A B : Type} (f : A -> B) (R : B -> B -> Prop)
    (l : list A) :
  StronglySorted (fun a b => R (f a) (f b)) l -> StronglySorted R (map f l).
Proof.
  induction 1 as [| a l Hs IH Hall]; simpl; constructor; [exact IH |].
  apply Forall_forall. intros y Hy.
  apply list_elem_of_In, in_map_iff in Hy.
  destruct Hy as (x & <- & Hx). rewrite Forall_forall in Hall.
  apply Hall, list_elem_of_In, Hx.
Qed.

Lemma sorted_distinct_strict (l : list string) :
  StronglySorted le l -> NoDup l -> StronglySorted lt l.
Proof.
  induction 1 as [| a l Hs IH Hall]; intros Hnd; constructor.
  - apply IH. apply NoDup_cons in Hnd. tauto.
  - apply NoDup_cons in Hnd. destruct Hnd as [Hnotin _].
    rewrite Forall_forall in Hall. apply Forall_forall. intros b Hb.
    specialize (Hall b Hb). unfold nameLe, nameLt in *.
    destruct (Z.eq_dec (localeCompare a b) 0%Z) as [E | E]; [| lia].
    apply (collation_eq _ collation) in E. subst b. contradiction.
Qed.

Lemma strict_sorted_NoDup (l : list string) : StronglySorted lt l -> NoDup l.
Proof.
  induction 1 as [| a l Hs IH Hall]; constructor; [| exact IH].
  intros Hin. rewrite Forall_forall in Hall. specialize (Hall a Hin).
  exact (name_lt_neq collation a a Hall eq_refl).
Qed.

Lemma sortedOwnMembers_facts (apiItem : ApiItem) :
  Permutation (sortedOwnMembers apiItem) (members apiItem) /\
  StronglySorted le (map displayName (sortedOwnMembers apiItem)).
Proof.
  unfold sortedOwnMembers. split; [apply sort_perm |].
  apply StronglySorted_map. apply sort_sorted.
  - intros a b. apply (name_total collation).
  - intros a b c. apply (collation_trans _ collation).
Qed.

Lemma sortedInherited_facts (raw : list (string * list ApiItem)) :
  NoDup (map fst raw) ->
  Forall (fun kv => FiledUnder (fst kv) (snd kv)) raw ->
  Forall HeadedChain (sortedInherited raw) /\
  StronglySorted lt (map firstName (sortedInherited raw)) /\
  (forall n, In n (map firstName (sortedInherited raw)) <-> In n (map fst raw)).
Proof.
  intros Hnd Hfiled. unfold sortedInherited.
  set (sorted := sort (fun a b => localeCompare (fst a) (fst b)) raw).
  assert (Hperm : Permutation sorted raw) by apply sort_perm.
  assert (Hfiled' : Forall (fun kv => FiledUnder (fst kv) (snd kv)) sorted).
  { rewrite Hperm. exact Hfiled. }
  assert (Hnames : map firstName
                     (map (fun kv => {| first := head (snd kv); chain := snd kv |})
                          sorted) = map fst sorted).
  { rewrite map_map. clear Hperm. induction Hfiled' as [| [k v] l [Hne Hall] _ IH];
      simpl; [reflexivity |]. rewrite IH. f_equal.
    simpl in Hne, Hall. destruct v as [| f v]; [contradiction |].
    inversion Hall; subst. reflexivity. }
  rewrite Hnames. repeat split.
  - apply Forall_forall. intros i Hi.
    apply list_elem_of_In, in_map_iff in Hi. destruct Hi as ([k v] & <- & Hin).
    rewrite Forall_forall in Hfiled'.
    destruct (Hfiled' _ (proj2 (list_elem_of_In _ _) Hin)) as [Hne _].
    simpl in Hne. destruct v as [| f v]; [contradiction |].
    exists f, v. split; reflexivity.
  - apply sorted_distinct_strict.
    + apply StronglySorted_map. apply sort_sorted.
      * intros a b. apply (name_total collation).
      * intros a b c. apply (collation_trans _ collation).
    + rewrite Hperm. exact Hnd.
  - intros Hn. rewrite <- Hperm. exact Hn.
  - intros Hn. rewrite Hperm. exact Hn.
Qed.

(** The entries without an own member are listed under distinct names, none
    of which is the name of an own member. *)
Lemma Merged_inherited_only (own : list ApiItem) (inh : list Inherited)
    (r : list ResolvedMember) :
  Merged own inh r -> Forall HeadedChain inh ->
  StronglySorted le (map displayName own) ->
  StronglySorted lt (map firstName inh) ->
  StronglySorted lt (map entryName (inheritedOnly r)) /\
  Forall (fun n => In n (map firstName inh) /\ ~ In n (map displayName own))
         (map entryName (inheritedOnly r)).
Proof.
  induction 1 as [| i inh r Hm IH | o own r Hm IH | o own i inh r Hc Hm IH
                  | o own i inh r Hc Hm IH | o own i inh r Hc Hm IH];
    intros Hwf Hown Hinh.
  - split; constructor.
  - inversion Hwf as [| ? ? Hi Hrest]; subst.
    inversion Hinh as [| ? ? Hs Hall]; subst.
    destruct (IH Hrest Hown Hs) as [IHs IHin].
    cbn. rewrite (entryName_inherited i Hi). split.
    + constructor; [exact IHs |].
      rewrite Forall_forall in IHin, Hall. apply Forall_forall.
      intros n Hn. apply Hall, list_elem_of_In, (IHin n Hn).
    + constructor; [split; [left; reflexivity | intros []] |].
      eapply Forall_impl; [exact IHin |]. cbv beta. intros n [Hn Ho].
      split; [right; exact Hn | exact Ho].
  - destruct (IH Hwf) as [IHs IHin]; [inversion Hown; assumption | constructor |].
    cbn. split; [exact IHs |].
    eapply Forall_impl; [exact IHin |]. cbv beta. intros n [[] _].
  - inversion Hwf as [| ? ? Hi Hrest]; subst.
    inversion Hinh as [| ? ? Hs Hall]; subst.
    destruct (IH Hrest Hown Hs) as [IHs IHin].
    assert (Hio : lt (firstName i) (displayName o))
      by (apply (collation_antisym _ collation); exact Hc).
    cbn. rewrite (entryName_inherited i Hi). split.
    + constructor; [exact IHs |].
      rewrite Forall_forall in IHin, Hall. apply Forall_forall.
      intros n Hn. apply Hall, list_elem_of_In, (IHin n Hn).
    + constructor.
      * split; [left; reflexivity |].
        inversion Hown as [| ? ? Hso Hallo]; subst.
        intros [Heq | Hin].
        -- exact (name_lt_neq collation _ _ Hio (eq_sym Heq)).
        -- rewrite Forall_forall in Hallo.
           specialize (Hallo _ (proj2 (list_elem_of_In _ _) Hin)).
           exact (name_lt_neq collation _ _
                    (name_lt_le_trans collation _ _ _ Hio Hallo) eq_refl).
      * eapply Forall_impl; [exact IHin |]. cbv beta. intros n [Hn Ho].
        split; [right; exact Hn | exact Ho].
  - inversion Hown as [| ? ? Hso Hallo]; subst.
    destruct (IH Hwf Hso Hinh) as [IHs IHin].
    cbn. split; [exact IHs |].
    eapply Forall_impl; [exact IHin |]. cbv beta. intros n [Hn Ho].
    split; [exact Hn |]. intros [Heq | Hin]; [| exact (Ho Hin)].
    subst n. inversion Hinh as [| ? ? Hs Hall]; subst.
    destruct Hn as [Hn | Hn].
    + rewrite <- Hn in Hc. exact (name_lt_neq collation _ _ Hc eq_refl).
    + rewrite Forall_forall in Hall.
      specialize (Hall _ (proj2 (list_elem_of_In _ _) Hn)).
      exact (name_lt_neq collation _ _
               (name_lt_trans collation _ _ _ Hc Hall) eq_refl).
  - inversion Hwf as [| ? ? Hi Hrest]; subst.
    inversion Hinh as [| ? ? Hs Hall]; subst.
    inversion Hown as [| ? ? Hso Hallo]; subst.
    destruct (IH Hrest Hso Hs) as [IHs IHin].
    apply (collation_eq _ collation) in Hc.
    cbn. split; [exact IHs |].
    eapply Forall_impl; [exact IHin |]. cbv beta. intros n [Hn Ho].
    split; [right; exact Hn |]. intros [Heq | Hin]; [| exact (Ho Hin)].
    subst n. rewrite Hc in Hn. rewrite Forall_forall in Hall.
    specialize (Hall _ (proj2 (list_elem_of_In _ _) Hn)).
    exact (name_lt_neq collation _ _ Hall eq_refl).
Qed.

End ResolvedMembers.

(** The ordinal comparison of the sample environment is a total order. *)
Lemma ordinal_collation : TotalCollation Sample.ordinalCompare.
Proof.
  pose proof String_as_OT.cmp_eq as Heq.
  pose proof String_as_OT.cmp_lt as Hlt.
  pose proof String_as_OT.cmp_antisym as Hanti.
  unfold String_as_OT.cmp in *.
  unfold Sample.ordinalCompare. split.
  - intros a b. split.
    + destruct (String.compare a b) eqn:E; try discriminate. intros _. apply Heq, E.
    + intros ->. rewrite (proj2 (Heq b b) eq_refl). reflexivity.
  - intros a b. rewrite (Hanti a b).
    destruct (String.compare b a); simpl; lia.
  - intros a b c.
    destruct (String.compare a b) eqn:Eab; [| | intros; lia];
    (destruct (String.compare b c) eqn:Ebc; [| | intros; lia]); intros _ _.
    + apply Heq in Eab, Ebc. subst. rewrite (proj2 (Heq c c) eq_refl). lia.
    + apply Heq in Eab. subst. rewrite Ebc. lia.
    + apply Heq in Ebc. subst. rewrite Eab. lia.
    + apply Hlt in Eab, Ebc.
      rewrite (proj2 (Hlt a c) (String_as_OT.lt_trans _ _ _ Eab Ebc)). lia.
Qed.

(** C3 as stated fails on overloads: the class [Bus] declares [on] twice
    and [emit] once and inherits [on]; member resolution lists [emit], [on],
    [on], the first [on] with the inherited chain and the second without.
    Two entries share a name, so the entries are neither one per distinct
    name nor strictly ordered. *)
Lemma overloads_yield_repeated_names :
  (map (fun r => (entryName r, option_map uid (ownMember r), map uid (parents r)))
   <$> @_getResolvedMembers Sample.host 2 (Sample.inheritanceMapOf Sample.events)
         (Sample.topLevel Sample.events Sample.bus))
  = Some [("emit", Some 55%N, []); ("on", Some 53%N, [51%N]);
          ("on", Some 54%N, [])] /\
  ~ (forall (H : Host) (inheritanceMap : InheritanceMap) (apiItem : ApiItem)
            (fuel : nat) (resolved : list ResolvedMember),
       _getResolvedMembers fuel inheritanceMap apiItem = Some resolved ->
       NoDup (map entryName resolved)).
Proof.
  split; [vm_compute; reflexivity |].
  intros Hall.
  destruct (@_getResolvedMembers Sample.host 2
              (Sample.inheritanceMapOf Sample.events)
              (Sample.topLevel Sample.events Sample.bus)) as [resolved |] eqn:E;
    [| vm_compute in E; discriminate].
  specialize (Hall Sample.host _ _ _ _ E).
  vm_compute in E. injection E as <-. vm_compute in Hall.
  apply NoDup_cons in Hall. destruct Hall as [_ Hall].
  apply NoDup_cons in Hall. destruct Hall as [Hnotin _].
  apply Hnotin. left.
Qed.

(** C3, amended.  For a collation that is a total order and an inheritance
    graph without cycles, member resolution returns a list that
    - names exactly the display names of the item's own members and of the
      members of its ancestors,
    - is ordered by display name, ascending,
    - has one entry for each own member (several for overloads that share a
      name),
    - has one entry for each inherited name that no own member bears,
    and that is strictly ordered, one entry per distinct name, when the own
    members have pairwise distinct names. *)
Theorem resolved_members_cover_names_in_order `{Host}
    (inheritanceMap : InheritanceMap) (rank : N -> nat) (apiItem : ApiItem) :
  TotalCollation localeCompare ->
  Ranked inheritanceMap rank ->
  exists fuel resolved,
    _getResolvedMembers fuel inheritanceMap apiItem = Some resolved /\
    (forall n, In n (map entryName resolved) <->
               OwnName apiItem n \/ InheritedName inheritanceMap apiItem n) /\
    StronglySorted nameLe (map entryName resolved) /\
    Permutation (omap ownMember resolved) (members apiItem) /\
    NoDup (map entryName (inheritedOnly resolved)) /\
    Forall (fun r => ~ OwnName apiItem (entryName r)) (inheritedOnly resolved) /\
    (NoDup (map displayName (members apiItem)) ->
     StronglySorted nameLt (map entryName resolved)).
Proof.
  intros collation Hranked.
  destruct (getInheritedMembers_returns inheritanceMap rank Hranked apiItem)
    as (fuel & raw & Hraw).
  destruct (getInheritedMembers_table inheritanceMap apiItem fuel raw Hraw)
    as (Hkeys & Hnd & Hfiled).
  destruct (sortedInherited_facts collation raw Hnd Hfiled)
    as (Hheaded & Hstrict & Hinh).
  destruct (sortedOwnMembers_facts collation apiItem) as [Hperm Hsorted].
  pose proof (mergeMembers_Merged (sortedOwnMembers apiItem)
                (sortedInherited raw)) as Hmerged.
  exists fuel, (mergeMembers (sortedOwnMembers apiItem) (sortedInherited raw)).
  split; [unfold _getResolvedMembers; rewrite Hraw; reflexivity |].
  assert (Hownnames : forall n, In n (map displayName (sortedOwnMembers apiItem))
                                <-> OwnName apiItem n).
  { intros n. unfold OwnName. split; intros Hn.
    - rewrite <- Hperm. exact Hn.
    - rewrite Hperm. exact Hn. }
  split; [| split; [| split; [| split; [| split]]]].
  - intros n. rewrite (Merged_names collation _ _ _ Hmerged Hheaded n).
    rewrite Hownnames, Hinh, Hkeys. reflexivity.
  - apply (Merged_sorted collation _) with (own := sortedOwnMembers apiItem)
                                           (inh := sortedInherited raw);
      try assumption.
    + unfold nameLt, nameLe. intros a b Hab. lia.
    + intros a b c Hab Hbc.
      pose proof (name_lt_le_trans collation a b c Hab Hbc) as Hac.
      unfold nameLt, nameLe in *. lia.
  - rewrite (Merged_own_members _ _ _ Hmerged). exact Hperm.
  - apply (strict_sorted_NoDup collation).
    apply (Merged_inherited_only collation _ _ _ Hmerged Hheaded Hsorted Hstrict).
  - destruct (Merged_inherited_only collation _ _ _ Hmerged Hheaded Hsorted
                Hstrict) as [_ Hout].
    rewrite Forall_forall in Hout. apply Forall_forall. intros r Hr Hown.
    apply list_elem_of_In in Hr.
    destruct (Hout (entryName r)) as [_ Hnot].
    + apply list_elem_of_In, in_map, Hr.
    + apply Hnot, Hownnames, Hown.
  - intros Hdistinct.
    apply (Merged_sorted collation _) with (own := sortedOwnMembers apiItem)
                                           (inh := sortedInherited raw);
      try assumption.
    + intros a b Hab. exact Hab.
    + intros a b c. apply (name_lt_trans collation).
    + apply (sorted_distinct_strict collation); [exact Hsorted |].
      rewrite Hperm. exact Hdistinct.
Qed.

(** The amended statement at [File]: the two overloads of [read] give two
    entries, the first with the chain of the inherited [read]s; [close] and
    [peek] are inherited only; the five entries are in the order of their
    names. *)
Example resolved_members_of_file :
  (map (fun r => (entryName r, option_map uid (ownMember r), map uid (parents r)))
   <$> @_getResolvedMembers Sample.host 3 (Sample.inheritanceMapOf Sample.storage)
         (Sample.topLevel Sample.storage Sample.file))
  = Some [("close", None, [72%N]); ("open", Some 79%N, []);
          ("peek", None, [75%N]); ("read", Some 77%N, [74%N; 71%N]);
          ("read", Some 78%N, [])].
Proof. vm_compute. reflexivity. Qed.

Lemma resolved_members_cover_names_in_order_witness :
  let inheritanceMap := Sample.inheritanceMapOf Sample.storage in
  let file := Sample.topLevel Sample.storage Sample.file in
  exists fuel resolved,
    @_getResolvedMembers Sample.host fuel inheritanceMap file = Some resolved /\
    (forall n, In n (map entryName resolved) <->
               OwnName file n \/ InheritedName inheritanceMap file n) /\
    StronglySorted (@nameLe Sample.host) (map entryName resolved) /\
    Permutation (omap ownMember resolved) (members file) /\
    NoDup (map entryName (inheritedOnly resolved)) /\
    Forall (fun r => ~ OwnName file (entryName r)) (inheritedOnly resolved) /\
    (NoDup (map displayName (members file)) ->
     StronglySorted (@nameLt Sample.host) (map entryName resolved)).
Proof.
  cbv zeta.
  apply (@resolved_members_cover_names_in_order Sample.host
           (Sample.inheritanceMapOf Sample.storage) N.to_nat
           (Sample.topLevel Sample.storage Sample.file)).
  - exact ordinal_collation.
  - unfold Ranked. vm_compute. repeat constructor.
Defined.

(** ** Lists (C8) *)


(** The blank line is written when a nested list of depth 2 ends, also in
    the middle of the outer list. *)
Example nested_list_ends_with_blank_line :
  Emitter.emit
    (Section [List [PlainText "A"; List [PlainText "B"]; PlainText "C"]])
    TableRows.noOptions
  = Emitter.Ok (Text.nl +:+ "- A" +:+ Text.nl +:+ "    - B" +:+ Text.nl +:+
                Text.nl +:+ "- C" +:+ Text.nl).
Proof. vm_compute. reflexivity. Qed.

(** The lists the documenter itself builds are a name followed by a list of
    depth 2, where leaving depth 2 is also the end of the whole list. *)
Example type_tree_list_ends_with_blank_line :
  Emitter.emit
    (Section [List [PlainText "Base"; List [PlainText "Derived"]];
              Paragraph [PlainText "b"]])
    TableRows.noOptions
  = Emitter.Ok (Text.nl +:+ "- Base" +:+ Text.nl +:+ "    - Derived" +:+
                Text.nl +:+ Text.nl +:+ "b" +:+ Text.nl +:+ Text.nl).
Proof. vm_compute. reflexivity. Qed.

(** The body of the loop: a leaf item starts on a new line with two spaces
    repeated [2 * (depth - 1)] times and a dash; a nested list is written
    without a bullet of its own.  The amended statement is proved at the
    end of the file, after the facts on escaped text that it uses. *)
Lemma writeListItem_leaf (w : Emitter.Context -> Emitter.Result Emitter.Context)
    (context : Emitter.Context) :
  Emitter.writeListItem (false, w) context
  = w (Emitter.write
         (Js.repeat "  " ((Emitter.listLevel context - 1) * 2) +:+ "- ")
         (Emitter.ensureNewLine context)).
Proof. reflexivity. Qed.

Lemma writeListItem_nested (w : Emitter.Context -> Emitter.Result Emitter.Context)
    (context : Emitter.Context) :
  Emitter.writeListItem (true, w) context = w context.
Proof. reflexivity. Qed.

(** ** Tables (C9) *)

Section TableFacts.
Import Emitter TableRows.

Lemma columnCount_fold {Cell : Type} (rows : list (list Cell)) (n : nat) :
  fold_left
    (fun columnCount row =>
       if (columnCount <? length row)%nat then length row else columnCount)
    rows n
  = Nat.max n (list_max (map length rows)).
Proof.
  revert n. induction rows as [| row rows IH]; intros n; simpl.
  - lia.
  - rewrite IH. destruct (n <? length row)%nat eqn:E.
    + apply Nat.ltb_lt in E. lia.
    + apply Nat.ltb_ge in E. lia.
Qed.

Lemma columnCount_max {Cell : Type} (header : option (list Cell))
    (rows : list (list Cell)) :
  columnCount header rows
  = Nat.max (match header with Some cells => length cells | None => 0 end)
            (list_max (map length rows)).
Proof. apply columnCount_fold. Qed.

Lemma forEach_ext {A : Type} (f g : A -> Context -> Result Context)
    (l : list A) (context : Context) :
  (forall x c, In x l -> f x c = g x c) ->
  forEach f l context = forEach g l context.
Proof.
  revert context. induction l as [| x l IH]; intros context Hfg; simpl;
    [reflexivity |].
  rewrite (Hfg x context) by (left; reflexivity).
  destruct (g x context); simpl; [| reflexivity].
  apply IH. intros y c Hy. apply Hfg. right. exact Hy.
Qed.

Lemma forEach_map {A B : Type} (h : A -> B) (g : B -> Context -> Result Context)
    (l : list A) (context : Context) :
  forEach g (map h l) context = forEach (fun x => g (h x)) l context.
Proof.
  revert context. induction l as [| x l IH]; intros context; simpl;
    [reflexivity |].
  destruct (g (h x) context); simpl; [apply IH | reflexivity].
Qed.

Lemma lookups_padded {A : Type} (cells : list A) (n : nat) :
  length cells <= n ->
  map (fun i => cells !! i) (seq 0 n)
  = map Some cells ++ List.repeat None (n - length cells).
Proof.
  revert n. induction cells as [| c cells IH]; intros n Hle.
  - simpl. rewrite Nat.sub_0_r. clear Hle.
    generalize 0. induction n as [| n IHn]; intros start; simpl;
      [reflexivity | rewrite IHn; reflexivity].
  - destruct n as [| n]; [simpl in Hle; lia |].
    rewrite <- cons_seq, <- seq_shift, map_cons, map_map.
    simpl in Hle |- *. rewrite <- IH by lia. reflexivity.
Qed.

(** The header loop writes [columnCount] slots: the header's cells, then
    empty ones. *)
Lemma writeHeaderRow_slots (header : option (list CellWriter)) (n : nat)
    (context : Context) :
  match header with Some cells => length cells | None => 0 end <= n ->
  writeHeaderRow header n context = writeSlots (paddedHeader header n) context /\
  length (paddedHeader header n) = n.
Proof.
  intros Hle. split.
  - unfold writeHeaderRow, writeSlots, paddedHeader. f_equal.
    rewrite <- lookups_padded by (destruct header; simpl; lia).
    rewrite forEach_map. apply forEach_ext. intros i c _.
    destruct header as [cs |]; [reflexivity |].
    rewrite lookup_nil. reflexivity.
  - unfold paddedHeader. rewrite length_app, length_map, repeat_length.
    destruct header; simpl in *; lia.
Qed.

(** A data row writes the cells it has, no more. *)
Lemma writeDataRow_slots (cells : list CellWriter) (context : Context) :
  writeDataRow cells context = writeSlots (map Some cells) context.
Proof.
  unfold writeDataRow, writeSlots. rewrite forEach_map. reflexivity.
Qed.

End TableFacts.

Section TableTheorems.
Import Emitter TableRows.

Lemma columnCount_map {A B : Type} (f : A -> B) (header : option (list A))
    (rows : list (list A)) :
  columnCount (option_map (map f) header) (map (map f) rows)
  = columnCount header rows.
Proof.
  rewrite !columnCount_max. f_equal.
  - destruct header; simpl; [apply length_map | reflexivity].
  - rewrite map_map. f_equal. apply map_ext. intros row. apply length_map.
Qed.

Lemma writeIndent_midline (w : IndentedWriter.t) :
  IndentedWriter.atStartOfLine w = false -> IndentedWriter.writeIndent w = w.
Proof. unfold IndentedWriter.writeIndent. intros ->. reflexivity. Qed.

(** Writing text without line breaks appends it, after the indentation when
    the line is still empty. *)
Lemma write_plain (s : string) (w : IndentedWriter.t) :
  Js.truthy s = true -> IndentedWriter.hasLineBreak s = false ->
  IndentedWriter.write s w
  = IndentedWriter.setStart false
      (IndentedWriter.append s (IndentedWriter.writeIndent w)).
Proof.
  intros Ht Hb. unfold IndentedWriter.write, IndentedWriter.writeLinePart.
  rewrite Ht, Hb. reflexivity.
Qed.

(** The divider row: an opening pipe and [columnCount] cells of dashes. *)
Lemma writeDivider_text (n : nat) (context : Context) :
  IndentedWriter.output (writer (writeDivider n context))
  = IndentedWriter.output (IndentedWriter.writeIndent (writer context))
    +:+ "| " +:+ Js.repeat " --- |" n +:+ Text.nl.
Proof.
  unfold writeDivider.
  set (c0 := write "| " context).
  assert (H0 : IndentedWriter.atStartOfLine (writer c0) = false /\
               IndentedWriter.output (writer c0)
               = IndentedWriter.output (IndentedWriter.writeIndent (writer context))
                 +:+ "| ").
  { unfold c0, write, onWriter. cbn [writer].
    rewrite write_plain by reflexivity. split; reflexivity. }
  clearbody c0.
  assert (Hloop : forall (l : list nat) c,
             IndentedWriter.atStartOfLine (writer c) = false ->
             let c' := fold_left (fun context _ => write " --- |" context) l c in
             IndentedWriter.atStartOfLine (writer c') = false /\
             IndentedWriter.output (writer c')
             = IndentedWriter.output (writer c) +:+ Js.repeat " --- |" (length l)).
  { induction l as [| x l IH]; intros c Hc; cbn [fold_left length Js.repeat].
    - split; [exact Hc | symmetry; apply str_app_nil_r].
    - assert (Hw : writer (write " --- |" c)
                   = IndentedWriter.setStart false
                       (IndentedWriter.append " --- |" (writer c))).
      { unfold write, onWriter. cbn [writer].
        rewrite write_plain by reflexivity.
        rewrite (writeIndent_midline _ Hc). reflexivity. }
      destruct (IH (write " --- |" c)) as [Hs Ho]; [rewrite Hw; reflexivity |].
      split; [exact Hs |]. rewrite Ho, Hw. cbn [IndentedWriter.output
        IndentedWriter.setStart IndentedWriter.append].
      rewrite !str_app_assoc. reflexivity. }
  destruct H0 as [Hs0 Ho0].
  destruct (Hloop (seq 0 n) c0 Hs0) as [Hs1 Ho1]. rewrite length_seq in Ho1.
  unfold writeLine, onWriter, IndentedWriter.writeLine. cbn [writer].
  change (IndentedWriter.write "" ?w) with w.
  unfold IndentedWriter.writeNewLine.
  change (IndentedWriter.write "" (writer (fold_left _ (seq 0 n) c0)))
    with (writer (fold_left (fun context _ => write " --- |" context) (seq 0 n) c0)).
  rewrite (writeIndent_midline _ Hs1).
  cbn [IndentedWriter.output IndentedWriter.setStart IndentedWriter.append].
  rewrite Ho1, Ho0, !str_app_assoc. reflexivity.
Qed.

(** C9 as stated fails for short data rows: with a header of two cells and
    the rows [a b c] and [d], the header and the divider have three cells,
    the second data row has one. *)
Lemma short_row_is_not_padded :
  let table := plainTable ["A"; "B"] [["a"; "b"; "c"]; ["d"]] in
  let text := Text.nl +:+ "|  A | B |  |" +:+ Text.nl +:+
              "|  --- | --- | --- |" +:+ Text.nl +:+
              "|  a | b | c |" +:+ Text.nl +:+
              "|  d |" +:+ Text.nl +:+ Text.nl in
  emit table noOptions = Ok text /\
  map cellsOfLine (tableLines text) = [3; 3; 3; 1] /\
  ~ (forall (header : list string) (rows : list (list string)) (out : string),
       emit (plainTable header rows) noOptions = Ok out ->
       Forall (fun line => cellsOfLine line = columnCount (Some header) rows)
              (tableLines out)).
Proof.
  cbv zeta.
  set (text := Text.nl +:+ "|  A | B |  |" +:+ Text.nl +:+
               "|  --- | --- | --- |" +:+ Text.nl +:+
               "|  a | b | c |" +:+ Text.nl +:+
               "|  d |" +:+ Text.nl +:+ Text.nl).
  assert (Hemit : emit (plainTable ["A"; "B"] [["a"; "b"; "c"]; ["d"]]) noOptions
                  = Ok text) by (vm_compute; reflexivity).
  assert (Hcells : map cellsOfLine (tableLines text) = [3; 3; 3; 1])
    by (vm_compute; reflexivity).
  split; [exact Hemit |]. split; [exact Hcells |].
  intros Hall.
  specialize (Hall ["A"; "B"] [["a"; "b"; "c"]; ["d"]] text Hemit).
  assert (Hthree : Forall (fun n => n = 3) (map cellsOfLine (tableLines text))).
  { apply Forall_map. eapply Forall_impl; [exact Hall |].
    intros line ->. vm_compute. reflexivity. }
  rewrite Hcells in Hthree.
  do 3 (apply Forall_cons in Hthree; destruct Hthree as [_ Hthree]).
  apply Forall_cons in Hthree. destruct Hthree as [Hbad _]. discriminate.
Qed.

(** C9, amended.  The column count is the larger of the header's cell count
    and the longest row's.  The header row is written with exactly that many
    cells, the cells the header lacks being empty, and the divider row with
    exactly that many cells of dashes.  Every data row is written with the
    cells it has, at most that many: a shorter row is not padded. *)
Theorem table_header_padded_rows_as_given
    (header : option (list (list DocNode))) (rows : list (list (list DocNode)))
    (hasNextSibling : bool) (context : Context) :
  let cellWriter (cell : list DocNode) : CellWriter :=
    runNodes (map writeNode cell) in
  let n := columnCount header rows in
  let headerSlots := paddedHeader (option_map (map cellWriter) header) n in
  n = Nat.max (match header with Some cells => length cells | None => 0 end)
              (list_max (map length rows)) /\
  length headerSlots = n /\
  Forall (fun row => length row <= n) rows /\
  (forall c, IndentedWriter.output (writer (writeDivider n c))
             = IndentedWriter.output (IndentedWriter.writeIndent (writer c))
               +:+ "| " +:+ Js.repeat " --- |" n +:+ Text.nl) /\
  writeNode (Table header rows) hasNextSibling context
  = (let context := setInsideTable true (ensureSkippedLine context) in
     let* context := writeSlots headerSlots context in
     let context := writeDivider n context in
     let* context :=
       forEach (fun row => writeSlots (map (fun cell => Some (cellWriter cell)) row))
               rows context in
     Ok (setInsideTable false (writeLine "" context))).
Proof.
  cbv zeta.
  set (cellWriter := fun cell : list DocNode => runNodes (map writeNode cell)).
  set (n := columnCount header rows).
  assert (Hn : n = Nat.max (match header with
                            | Some cells => length cells | None => 0 end)
                           (list_max (map length rows)))
    by apply columnCount_max.
  assert (Hhead : match option_map (map cellWriter) header with
                  | Some cells => length cells | None => 0 end <= n).
  { rewrite Hn. destruct header; simpl; [rewrite length_map |]; lia. }
  split; [exact Hn |].
  split; [apply (writeHeaderRow_slots _ n context Hhead) |].
  split.
  { rewrite Hn. apply Forall_forall. intros row Hrow.
    apply list_elem_of_In in Hrow.
    assert (Hmax : length row <= list_max (map length rows)).
    { assert (Hall := proj1 (list_max_le (map length rows) _) (Nat.le_refl _)).
      rewrite List.Forall_forall in Hall. apply Hall, in_map, Hrow. }
    lia. }
  split; [intros c; apply writeDivider_text |].
  change (writeNode (Table header rows) hasNextSibling context)
    with (writeTable (option_map (map cellWriter) header)
            (map (map cellWriter) rows) context).
  unfold writeTable. rewrite columnCount_map. fold n.
  rewrite (proj1 (writeHeaderRow_slots _ n _ Hhead)).
  destruct (writeSlots _ _) as [c1 |]; simpl; [| reflexivity].
  rewrite forEach_map.
  rewrite (forEach_ext _ (fun row => writeSlots
                            (map (fun cell => Some (cellWriter cell)) row))).
  - reflexivity.
  - intros row c _. rewrite writeDataRow_slots, map_map. reflexivity.
Qed.

(** The scenario of the specification: a header of two cells and one row of
    three. *)
Example table_of_two_header_cells_and_three :
  emit (plainTable ["A"; "B"] [["a"; "b"; "c"]]) noOptions
  = Ok (Text.nl +:+ "|  A | B |  |" +:+ Text.nl +:+
        "|  --- | --- | --- |" +:+ Text.nl +:+
        "|  a | b | c |" +:+ Text.nl +:+ Text.nl).
Proof. vm_compute. reflexivity. Qed.

End TableTheorems.

(** * Further properties of the code *)

(** ** Escaping *)

Lemma replaceChars_app (p : ascii -> bool) (f : ascii -> string) (a b : string) :
  Text.replaceChars p f (a +:+ b)
  = Text.replaceChars p f a +:+ Text.replaceChars p f b.
Proof.
  induction a as [| c a IH]; simpl; [reflexivity |].
  rewrite IH, str_app_assoc. reflexivity.
Qed.

Lemma slashes_app (a b : string) : slashes (a +:+ b) = slashes a +:+ slashes b.
Proof. unfold slashes. rewrite !replaceChars_app. reflexivity. Qed.

Lemma entities_app (a b : string) : entities (a +:+ b) = entities a +:+ entities b.
Proof. unfold entities. rewrite !replaceChars_app. reflexivity. Qed.

Lemma slashes_cons (c : ascii) (s : string) :
  slashes (String c s) = slashes (String c "") +:+ slashes s.
Proof. change (String c s) with (String c "" +:+ s). apply slashes_app. Qed.

Lemma entities_cons (c : ascii) (s : string) :
  entities (String c s) = entities (String c "") +:+ entities s.
Proof. change (String c s) with (String c "" +:+ s). apply entities_app. Qed.

Lemma isOneOf_backslash (c : ascii) :
  Text.isOneOf Text.backslash c = true -> c = ascii_of_nat 92.
Proof.
  unfold Text.isOneOf. simpl. rewrite orb_false_r. apply Ascii.eqb_eq.
Qed.

(** The shape of the first two replacements on one character. *)
Lemma replaceChars_char (p : ascii -> bool) (f : ascii -> string) (c : ascii) :
  Text.replaceChars p f (String c "") = if p c then f c else String c "".
Proof. simpl. apply str_app_nil_r. Qed.

Lemma slashes_char (c : ascii) :
  slashes (String c "")
  = if Text.isOneOf Text.backslash c then Text.backslash +:+ Text.backslash
    else if Text.isOneOf "*#[]_|`~" c then Text.backslash +:+ String c ""
    else String c "".
Proof.
  unfold slashes. rewrite replaceChars_char.
  destruct (Text.isOneOf Text.backslash c) eqn:B; [reflexivity |].
  apply replaceChars_char.
Qed.

Lemma entities_slashes_char (c : ascii) :
  entities (slashes (String c "")) = escapedChar c.
Proof.
  rewrite slashes_char. unfold escapedChar.
  destruct (Text.isOneOf Text.backslash c) eqn:B; [reflexivity |].
  destruct (Text.isOneOf "*#[]_|`~" c) eqn:S.
  - unfold Text.isOneOf in S. cbn in S.
    repeat (apply orb_prop in S; destruct S as [S | S];
            [apply Ascii.eqb_eq in S; subst c; reflexivity |]).
    discriminate.
  - assert (One : forall x d, Text.isOneOf (String x "") d = Ascii.eqb d x).
    { intros x d. unfold Text.isOneOf. simpl. apply orb_false_r. }
    unfold entities. rewrite replaceChars_char, One.
    destruct (Ascii.eqb c "&") eqn:E1; [reflexivity |].
    rewrite replaceChars_char, One.
    destruct (Ascii.eqb c "<") eqn:E2; [reflexivity |].
    rewrite replaceChars_char, One.
    destruct (Ascii.eqb c ">") eqn:E3; reflexivity.
Qed.

Lemma isOneOf_markup_not_hyphen (c : ascii) :
  Text.isOneOf "*#[]_|`~" c = true -> Ascii.eqb c "-" = false.
Proof.
  intros S. unfold Text.isOneOf in S. cbn in S.
  repeat (apply orb_prop in S; destruct S as [S | S];
          [apply Ascii.eqb_eq in S; subst c; reflexivity |]).
  discriminate.
Qed.

(** A character that is not a hyphen is never the start of a match of the
    third replacement. *)
Lemma replaceLiteral_other (rep : string) (d : ascii) (u : string) :
  Ascii.eqb d "-" = false ->
  Text.replaceLiteral "---" rep 0 (String d u)
  = String d (Text.replaceLiteral "---" rep 0 u).
Proof. intros E. simpl. rewrite E. reflexivity. Qed.

Lemma replaceLiteral_slashes_char (rep : string) (c : ascii) (u : string) :
  Ascii.eqb c "-" = false ->
  Text.replaceLiteral "---" rep 0 (slashes (String c "") +:+ u)
  = slashes (String c "") +:+ Text.replaceLiteral "---" rep 0 u.
Proof.
  intros E. rewrite slashes_char.
  destruct (Text.isOneOf Text.backslash c) eqn:B.
  - change ((Text.backslash +:+ Text.backslash) +:+ u)
      with (String (ascii_of_nat 92) (String (ascii_of_nat 92) u)).
    rewrite !replaceLiteral_other by reflexivity. reflexivity.
  - destruct (Text.isOneOf "*#[]_|`~" c) eqn:S.
    + change ((Text.backslash +:+ String c "") +:+ u)
        with (String (ascii_of_nat 92) (String c u)).
      rewrite replaceLiteral_other by reflexivity.
      rewrite replaceLiteral_other by exact E. reflexivity.
    + change (String c "" +:+ u) with (String c u).
      apply replaceLiteral_other, E.
Qed.

Lemma slashes_hyphen (s : string) :
  slashes (String "-" s) = String "-" (slashes s).
Proof. rewrite slashes_cons. reflexivity. Qed.

(** The first two replacements neither make nor break a run of hyphens. *)
Lemma startsWith_slashes_hyphens (n : nat) (s : string) :
  Js.startsWith (slashes s) (Js.repeat "-" n)
  = Js.startsWith s (Js.repeat "-" n).
Proof.
  revert s. induction n as [| n IH]; intros s; [reflexivity |].
  destruct s as [| c s]; [reflexivity |].
  change (Js.repeat "-" (S n)) with (String "-" (Js.repeat "-" n)).
  destruct (Ascii.eqb c "-") eqn:E.
  - apply Ascii.eqb_eq in E. subst c. rewrite slashes_hyphen.
    cbn [Js.startsWith]. rewrite IH. reflexivity.
  - rewrite slashes_cons, slashes_char. cbn [Js.startsWith]. rewrite E.
    destruct (Text.isOneOf Text.backslash c); [reflexivity |].
    destruct (Text.isOneOf "*#[]_|`~" c); [reflexivity |].
    cbn [String.append Js.startsWith]. rewrite E. reflexivity.
Qed.

Lemma startsWith_cons_hyphen (c : ascii) (s p : string) :
  Js.startsWith (String c s) (String "-" p) = true ->
  c = "-"%char /\ Js.startsWith s p = true.
Proof.
  cbn [Js.startsWith]. intros H. apply andb_prop in H. destruct H as [E H].
  apply Ascii.eqb_eq in E. split; assumption.
Qed.

(** The six replacements are one pass. *)
Lemma escape_single_pass (s : string) :
  forall skip : nat,
    Js.startsWith s (Js.repeat "-" skip) = true ->
    entities (Text.replaceLiteral "---" escapedHyphens skip (slashes s))
    = escapedFrom skip s.
Proof.
  induction s as [| c s IH]; intros skip Hrun.
  - destruct skip; reflexivity.
  - destruct skip as [| k].
    + cbn [escapedFrom].
      destruct (Js.startsWith (String c s) "---") eqn:E.
      * apply (startsWith_cons_hyphen c s "--") in E. destruct E as [-> E].
        rewrite slashes_hyphen.
        cbn [Text.replaceLiteral].
        change (Js.startsWith (String "-" (slashes s)) "---")
          with (Js.startsWith (slashes s) (Js.repeat "-" 2)).
        rewrite startsWith_slashes_hyphens.
        change (Js.repeat "-" 2) with "--". rewrite E.
        change (String.length "---" - 1) with 2.
        rewrite entities_app. rewrite (IH 2 E). reflexivity.
      * destruct (Ascii.eqb c "-") eqn:Ec.
        -- apply Ascii.eqb_eq in Ec. subst c.
           rewrite slashes_hyphen. cbn [Text.replaceLiteral].
           change (Js.startsWith (String "-" (slashes s)) "---")
             with (Js.startsWith (slashes s) (Js.repeat "-" 2)).
           rewrite startsWith_slashes_hyphens.
           change (Js.startsWith s (Js.repeat "-" 2))
             with (Js.startsWith (String "-" s) "---").
           rewrite E. rewrite entities_cons. rewrite (IH 0 eq_refl). reflexivity.
        -- rewrite slashes_cons, replaceLiteral_slashes_char by exact Ec.
           rewrite entities_app, entities_slashes_char, (IH 0 eq_refl).
           reflexivity.
    + change (Js.repeat "-" (S k)) with (String "-" (Js.repeat "-" k)) in Hrun.
      apply startsWith_cons_hyphen in Hrun. destruct Hrun as [-> Hrun].
      rewrite slashes_hyphen. cbn [Text.replaceLiteral escapedFrom].
      apply IH, Hrun.
Qed.

Lemma getEscapedText_escapedFrom (text : string) :
  Text.getEscapedText text = escapedFrom 0 text.
Proof. apply (escape_single_pass text 0 eq_refl). Qed.

Lemma unescape_escapedChar (c : ascii) (rest : string) :
  unescapeFrom 0 (escapedChar c +:+ rest) = String c (unescapeFrom 0 rest).
Proof.
  unfold escapedChar.
  destruct (Text.isOneOf Text.backslash c) eqn:B.
  { apply isOneOf_backslash in B. subst c. reflexivity. }
  destruct (Text.isOneOf "*#[]_|`~" c) eqn:S; [reflexivity |].
  destruct (Ascii.eqb c "&") eqn:E1.
  { apply Ascii.eqb_eq in E1. subst c. reflexivity. }
  destruct (Ascii.eqb c "<") eqn:E2.
  { apply Ascii.eqb_eq in E2. subst c. reflexivity. }
  destruct (Ascii.eqb c ">") eqn:E3.
  { apply Ascii.eqb_eq in E3. subst c. reflexivity. }
  change (String c "" +:+ rest) with (String c rest).
  cbn [unescapeFrom Js.startsWith]. rewrite B, E1. reflexivity.
Qed.

Lemma three_hyphens (c : ascii) (s : string) :
  Js.startsWith (String c s) "---" = true ->
  exists rest, String c s = String "-" (String "-" (String "-" rest)).
Proof.
  intros E. apply startsWith_cons_hyphen in E. destruct E as [-> E].
  destruct s as [| c1 s]; [discriminate |].
  apply startsWith_cons_hyphen in E. destruct E as [-> E].
  destruct s as [| c2 s]; [discriminate |].
  apply startsWith_cons_hyphen in E. destruct E as [-> _].
  exists s. reflexivity.
Qed.

Lemma unescape_escapedFrom (n : nat) :
  forall s : string, String.length s <= n -> unescapeFrom 0 (escapedFrom 0 s) = s.
Proof.
  induction n as [| n IH]; intros s Hlen;
    (destruct s as [| c s]; [reflexivity |]); [simpl in Hlen; lia |].
  cbn [escapedFrom].
  destruct (Js.startsWith (String c s) "---") eqn:E.
  - apply three_hyphens in E. destruct E as [rest E].
    injection E as -> ->.
    change (escapedFrom 2 (String "-" (String "-" rest)))
      with (escapedFrom 0 rest).
    change (unescapeFrom 0 (escapedHyphens +:+ escapedFrom 0 rest))
      with ("---" +:+ unescapeFrom 0 (escapedFrom 0 rest)).
    rewrite IH by (simpl in Hlen; lia). reflexivity.
  - rewrite unescape_escapedChar, IH by (simpl in Hlen; lia). reflexivity.
Qed.

(** X1.  Escaping loses nothing: reading the backslash escapes and the
    three entities of [getEscapedText text] back gives [text], so two texts
    with the same escaped form are the same text. *)
Theorem escaped_text_reads_back (text : string) :
  unescape (Text.getEscapedText text) = text.
Proof.
  rewrite getEscapedText_escapedFrom. unfold unescape.
  apply (unescape_escapedFrom (String.length text)). reflexivity.
Qed.

Lemma chars_app (a b : string) :
  list_ascii_of_string (a +:+ b) = list_ascii_of_string a ++ list_ascii_of_string b.
Proof. induction a as [| c a IH]; simpl; [reflexivity | rewrite IH; reflexivity]. Qed.

(** A property of characters that the escape of one character keeps holds
    of the whole escaped text. *)
Lemma escapedFrom_forallb (ok : ascii -> bool) (s : string) :
  (forall c, In c (list_ascii_of_string s) ->
             forallb ok (list_ascii_of_string (escapedChar c)) = true) ->
  forallb ok (list_ascii_of_string escapedHyphens) = true ->
  forall skip, forallb ok (list_ascii_of_string (escapedFrom skip s)) = true.
Proof.
  intros Hchar Hrun. induction s as [| c s IH]; intros skip; [reflexivity |].
  assert (IH' : forall skip,
            forallb ok (list_ascii_of_string (escapedFrom skip s)) = true).
  { apply IH. intros d Hd. apply Hchar. right. exact Hd. }
  destruct skip as [| k]; cbn [escapedFrom]; [| apply IH'].
  destruct (Js.startsWith (String c s) "---");
    rewrite chars_app, forallb_app, IH', andb_true_r.
  - exact Hrun.
  - apply Hchar. left. reflexivity.
Qed.

Lemma escapedChar_cases (c : ascii) :
  escapedChar c = Text.backslash +:+ Text.backslash \/
  escapedChar c = Text.backslash +:+ String c "" /\
    Text.isOneOf "*#[]_|`~" c = true \/
  escapedChar c = "&amp;" \/ escapedChar c = "&lt;" \/ escapedChar c = "&gt;" \/
  escapedChar c = String c "" /\ isPlain c = true.
Proof.
  unfold escapedChar, isPlain, isMarkup.
  destruct (Text.isOneOf Text.backslash c); [left; reflexivity |].
  destruct (Text.isOneOf "*#[]_|`~" c); [right; left; split; reflexivity |].
  destruct (Ascii.eqb c "&"); [right; right; left; reflexivity |].
  destruct (Ascii.eqb c "<"); [right; right; right; left; reflexivity |].
  destruct (Ascii.eqb c ">"); [right; right; right; right; left; reflexivity |].
  right; right; right; right; right. split; reflexivity.
Qed.

(** X2.  The escaped text holds no angle bracket: whatever the text, no
    character of [getEscapedText text] is [<] or [>]. *)
Theorem escaped_text_has_no_angle_bracket (text : string) :
  forallb (fun c => negb (Ascii.eqb c "<" || Ascii.eqb c ">"))
          (list_ascii_of_string (Text.getEscapedText text)) = true.
Proof.
  rewrite getEscapedText_escapedFrom.
  apply escapedFrom_forallb; [| reflexivity].
  intros c _.
  destruct (escapedChar_cases c)
    as [-> | [[-> S] | [-> | [-> | [-> | [-> P]]]]]]; try reflexivity.
  - cbn [list_ascii_of_string String.append Text.backslash forallb].
    unfold Text.isOneOf in S. cbn in S.
    repeat (apply orb_prop in S; destruct S as [S | S];
            [apply Ascii.eqb_eq in S; subst c; reflexivity |]).
    discriminate.
  - unfold isPlain in P. cbn [list_ascii_of_string forallb].
    rewrite andb_true_r.
    destruct (Ascii.eqb c "<"), (Ascii.eqb c ">"); try reflexivity;
      rewrite ?orb_true_r in P; discriminate.
Qed.

Lemma outsideEscapes_app_pair (d : ascii) (rest : string) :
  outsideEscapes false (Text.backslash +:+ String d rest)
  = outsideEscapes false rest.
Proof. reflexivity. Qed.

Lemma outsideEscapes_plain (a rest : string) :
  forallb (fun c => negb (Text.isOneOf Text.backslash c))
          (list_ascii_of_string a) = true ->
  outsideEscapes false (a +:+ rest)
  = list_ascii_of_string a ++ outsideEscapes false rest.
Proof.
  induction a as [| c a IH]; intros H; [reflexivity |].
  cbn [list_ascii_of_string forallb] in H. apply andb_prop in H.
  destruct H as [Hc Ha]. apply negb_true_iff in Hc.
  change (String c a +:+ rest) with (String c (a +:+ rest)).
  cbn [outsideEscapes list_ascii_of_string]. rewrite Hc, IH by exact Ha.
  reflexivity.
Qed.

Lemma outsideEscapes_escapedFrom (s : string) :
  forall skip,
    forallb (fun c => negb (isMarkup c))
            (outsideEscapes false (escapedFrom skip s)) = true.
Proof.
  induction s as [| c s IH]; intros skip; [reflexivity |].
  destruct skip as [| k]; cbn [escapedFrom]; [| apply IH].
  destruct (Js.startsWith (String c s) "---").
  - change (outsideEscapes false (escapedHyphens +:+ escapedFrom 2 s))
      with (outsideEscapes false (escapedFrom 2 s)).
    apply IH.
  - destruct (escapedChar_cases c)
      as [-> | [[-> S] | [-> | [-> | [-> | [-> P]]]]]].
    + apply IH.
    + apply IH.
    + rewrite outsideEscapes_plain by reflexivity.
      rewrite forallb_app, IH. reflexivity.
    + rewrite outsideEscapes_plain by reflexivity.
      rewrite forallb_app, IH. reflexivity.
    + rewrite outsideEscapes_plain by reflexivity.
      rewrite forallb_app, IH. reflexivity.
    + assert (Hm : isMarkup c = false).
      { unfold isPlain in P. destruct (isMarkup c); [discriminate | reflexivity]. }
      assert (Hb : Text.isOneOf Text.backslash c = false).
      { unfold isMarkup in Hm. apply orb_false_elim in Hm. tauto. }
      change (String c "" +:+ escapedFrom 0 s) with (String c (escapedFrom 0 s)).
      cbn [outsideEscapes forallb]. rewrite Hb. cbn [forallb].
      rewrite Hm, IH. reflexivity.
Qed.

Lemma markup_of_escaped_text_is_escaped (text : string) :
  forallb (fun c => negb (isMarkup c))
          (outsideEscapes false (Text.getEscapedText text)) = true.
Proof. rewrite getEscapedText_escapedFrom. apply outsideEscapes_escapedFrom. Qed.

(** X3.  Every markup character of the escaped text is escaped: a reader
    that lets a backslash take the character after it meets none of
    [\ * # [ ] _ | ` ~] outside an escape in [getEscapedText text]. *)
Theorem escaped_text_leaves_no_markup (text : string) :
  forallb (fun c => negb (isMarkup c))
          (outsideEscapes false (Text.getEscapedText text)) = true.
Proof. apply markup_of_escaped_text_is_escaped. Qed.

Lemma escapedFrom_plain (s : string) :
  forallb isPlain (list_ascii_of_string s) = true ->
  occurs "---" s = false ->
  escapedFrom 0 s = s.
Proof.
  induction s as [| c s IH]; intros Hp Ho; [reflexivity |].
  cbn [list_ascii_of_string forallb] in Hp. apply andb_prop in Hp.
  destruct Hp as [Hc Hs].
  cbn [occurs] in Ho. apply orb_false_elim in Ho. destruct Ho as [Ho1 Ho2].
  cbn [escapedFrom]. rewrite Ho1, IH by assumption.
  destruct (escapedChar_cases c)
    as [E | [[E S] | [E | [E | [E | [E P]]]]]]; rewrite E;
    try reflexivity; exfalso; revert Hc E; unfold escapedChar, isPlain, isMarkup;
    destruct (Text.isOneOf Text.backslash c); try discriminate;
    destruct (Text.isOneOf "*#[]_|`~" c); try discriminate;
    destruct (Ascii.eqb c "&"); try discriminate;
    destruct (Ascii.eqb c "<"); try discriminate;
    destruct (Ascii.eqb c ">"); discriminate.
Qed.

(** X4.  Text without markup is left alone: when no character of [text]
    is one of [\ * # [ ] _ | ` ~ & < >] and [text] holds no run of three
    hyphens, [getEscapedText text] is [text]. *)
Theorem plain_text_is_not_escaped (text : string) :
  forallb isPlain (list_ascii_of_string text) = true ->
  occurs "---" text = false ->
  Text.getEscapedText text = text.
Proof.
  intros Hp Ho. rewrite getEscapedText_escapedFrom.
  apply escapedFrom_plain; assumption.
Qed.

Lemma plain_text_is_not_escaped_witness :
  Text.getEscapedText "getArea(width, height) - in cm" = "getArea(width, height) - in cm".
Proof.
  apply (plain_text_is_not_escaped "getArea(width, height) - in cm");
    vm_compute; reflexivity.
Defined.

(** ** Text written inside tables and links *)

Lemma hasLineFeed_app (a b : string) :
  hasLineFeed (a +:+ b) = hasLineFeed a || hasLineFeed b.
Proof. unfold hasLineFeed. rewrite chars_app, existsb_app. reflexivity. Qed.

Lemma splitOn_cons (sep : ascii) (s : string) :
  exists x rest, Js.splitOn sep s = x :: rest.
Proof.
  destruct s as [| c s]; simpl; [eauto |].
  destruct (Ascii.eqb c sep); [eauto |].
  destruct (Js.splitOn sep s); eauto.
Qed.

Lemma splitOn_parts_free (sep : ascii) (s : string) :
  Forall (fun p => existsb (Ascii.eqb sep) (list_ascii_of_string p) = false)
         (Js.splitOn sep s).
Proof.
  induction s as [| c s IH]; simpl; [repeat constructor |].
  destruct (Ascii.eqb c sep) eqn:E.
  - constructor; [reflexivity | exact IH].
  - destruct (Js.splitOn sep s) as [| x rest]; inversion IH; subst.
    + repeat constructor. simpl. rewrite Ascii.eqb_sym, E. reflexivity.
    + constructor; [| assumption].
      simpl. rewrite Ascii.eqb_sym, E. assumption.
Qed.

Lemma splitOn_single (sep : ascii) (s : string) :
  length (Js.splitOn sep s) <= 1 ->
  existsb (Ascii.eqb sep) (list_ascii_of_string s) = false.
Proof.
  induction s as [| c s IH]; simpl; [reflexivity |].
  destruct (splitOn_cons sep s) as (x & rest & Hs). rewrite Hs in *.
  destruct (Ascii.eqb c sep) eqn:E; simpl; [lia |].
  rewrite Ascii.eqb_sym, E. simpl. intros H. apply IH. exact H.
Qed.

Lemma mapInit_length {A : Type} (f : A -> A) (l : list A) :
  length (Text.mapInit f l) = length l.
Proof.
  induction l as [| x l IH]; [reflexivity |].
  destruct l as [| y l]; [reflexivity |].
  change (Text.mapInit f (x :: y :: l)) with (f x :: Text.mapInit f (y :: l)).
  simpl in *. rewrite IH. reflexivity.
Qed.

Lemma mapInit_Forall {A : Type} (P : A -> Prop) (f : A -> A) (l : list A) :
  (forall x, P x -> P (f x)) -> Forall P l -> Forall P (Text.mapInit f l).
Proof.
  intros Hf. induction l as [| x l IH]; intros H; [constructor |].
  inversion H as [| ? ? Hx Hl]; subst.
  destruct l as [| y l]; [constructor; [exact Hx | constructor] |].
  change (Text.mapInit f (x :: y :: l)) with (f x :: Text.mapInit f (y :: l)).
  constructor; [apply Hf, Hx | apply IH, Hl].
Qed.

Lemma dropLastCR_cons (c d : ascii) (s : string) :
  Text.dropLastCR (String c (String d s)) = String c (Text.dropLastCR (String d s)).
Proof. reflexivity. Qed.

Lemma dropLastCR_no_line_feed (p : string) :
  hasLineFeed p = false -> hasLineFeed (Text.dropLastCR p) = false.
Proof.
  induction p as [| c p IH]; [reflexivity |].
  destruct p as [| d p].
  - simpl. destruct (Js.code c =? 13)%nat; [reflexivity | intros H; exact H].
  - rewrite dropLastCR_cons. unfold hasLineFeed in *.
    cbn [list_ascii_of_string existsb]. intros H.
    apply orb_false_elim in H. destruct H as [H1 H2].
    rewrite H1. apply IH. exact H2.
Qed.

Lemma join_no_line_feed (sep : string) (l : list string) :
  hasLineFeed sep = false ->
  Forall (fun p => hasLineFeed p = false) l ->
  hasLineFeed (Js.join sep l) = false.
Proof.
  intros Hsep. induction l as [| x l IH]; intros H; [reflexivity |].
  inversion H as [| ? ? Hx Hl]; subst.
  destruct l as [| y l]; [exact Hx |].
  change (Js.join sep (x :: y :: l)) with (x +:+ sep +:+ Js.join sep (y :: l)).
  rewrite !hasLineFeed_app, Hx, Hsep, (IH Hl). reflexivity.
Qed.

Lemma splitLines_no_line_feed (s : string) :
  Forall (fun p => hasLineFeed p = false) (Text.splitLines s).
Proof.
  unfold Text.splitLines. apply mapInit_Forall.
  - apply dropLastCR_no_line_feed.
  - apply splitOn_parts_free.
Qed.

Section Guarded.

Variables guard target : ascii.

Let ok (prev : option ascii) (s : string) : Prop :=
  guarded guard target prev s = true.

Lemma guarded_any (prev : option ascii) (s : string) : ok None s -> ok prev s.
Proof.
  unfold ok. destruct s as [| c s]; [reflexivity |]. cbn [guarded].
  destruct (Ascii.eqb c target); [discriminate | intros H; exact H].
Qed.

Lemma guarded_app (prev : option ascii) (a b : string) :
  ok prev a -> ok None b -> ok prev (a +:+ b).
Proof.
  unfold ok. revert prev. induction a as [| c a IH]; intros prev Ha Hb.
  - apply guarded_any, Hb.
  - change (String c a +:+ b) with (String c (a +:+ b)). cbn [guarded] in *.
    apply andb_prop in Ha. destruct Ha as [Hc Ha].
    rewrite Hc. apply IH; assumption.
Qed.

Lemma guarded_after (p : ascii) (s : string) :
  Ascii.eqb p guard = false -> ok (Some p) s -> ok None s.
Proof.
  unfold ok. destruct s as [| c s]; [reflexivity |]. cbn [guarded].
  intros Hp. rewrite Hp. intros H; exact H.
Qed.

Lemma guarded_splitOn (sep : ascii) (s : string) :
  Ascii.eqb sep guard = false ->
  forall prev, ok prev s ->
    match Js.splitOn sep s with
    | x :: rest => ok prev x /\ Forall (ok None) rest
    | [] => False
    end.
Proof.
  intros Hsep. induction s as [| c s IH]; intros prev H.
  - simpl. split; [reflexivity | constructor].
  - unfold ok in H. cbn [guarded] in H. apply andb_prop in H.
    destruct H as [Hc Hs]. specialize (IH (Some c) Hs).
    simpl. destruct (splitOn_cons sep s) as (x & rest & Hx).
    rewrite Hx in *. destruct IH as [IHx IHrest].
    destruct (Ascii.eqb c sep) eqn:E.
    + apply Ascii.eqb_eq in E. subst c. split; [reflexivity |].
      constructor; [eapply guarded_after; eassumption | exact IHrest].
    + split; [| exact IHrest]. unfold ok. cbn [guarded].
      rewrite Hc. exact IHx.
Qed.

Lemma guarded_dropLastCR (prev : option ascii) (p : string) :
  ok prev p -> ok prev (Text.dropLastCR p).
Proof.
  unfold ok. revert prev. induction p as [| c p IH]; intros prev H;
    [reflexivity |].
  destruct p as [| d p].
  - simpl. destruct (Js.code c =? 13)%nat; [reflexivity | exact H].
  - rewrite dropLastCR_cons. cbn [guarded] in H |- *.
    apply andb_prop in H. destruct H as [Hc Hs].
    rewrite Hc. apply IH. exact Hs.
Qed.

Lemma guarded_join (sep : string) (l : list string) :
  ok None sep -> Forall (ok None) l -> ok None (Js.join sep l).
Proof.
  intros Hsep. induction l as [| x l IH]; intros H; [reflexivity |].
  inversion H as [| ? ? Hx Hl]; subst.
  destruct l as [| y l]; [exact Hx |].
  change (Js.join sep (x :: y :: l)) with (x +:+ sep +:+ Js.join sep (y :: l)).
  apply guarded_app; [exact Hx |]. apply guarded_app; [exact Hsep | exact (IH Hl)].
Qed.

End Guarded.

Lemma escapePipes_guarded (code : string) :
  forall prev, guarded (ascii_of_nat 92) "|" prev (Text.escapePipes code) = true.
Proof.
  unfold Text.escapePipes.
  induction code as [| c code IH]; intros prev; [reflexivity |].
  cbn [Text.replaceChars].
  assert (One : Text.isOneOf "|" c = Ascii.eqb c "|").
  { unfold Text.isOneOf. simpl. apply orb_false_r. }
  rewrite One. destruct (Ascii.eqb c "|") eqn:E.
  - change ((Text.backslash +:+ "|") +:+ ?r)
      with (String (ascii_of_nat 92) (String "|" r)).
    cbn [guarded]. rewrite IH. reflexivity.
  - change (String c "" +:+ ?r) with (String c r).
    cbn [guarded]. rewrite E, IH. reflexivity.
Qed.

Lemma splitLines_escapePipes_guarded (code : string) :
  Forall (fun p => pipesEscaped p = true)
         (Text.splitLines (Text.escapePipes code)).
Proof.
  unfold Text.splitLines, pipesEscaped. apply mapInit_Forall.
  - intros p. apply guarded_dropLastCR.
  - pose proof (guarded_splitOn (ascii_of_nat 92) "|" (ascii_of_nat 10)
                  (Text.escapePipes code) eq_refl None
                  (escapePipes_guarded code None)) as H.
    destruct (Js.splitOn (ascii_of_nat 10) (Text.escapePipes code));
      [contradiction |].
    destruct H as [Hx Hrest]. constructor; assumption.
Qed.

(** X5.  Inside a table a code span is handed to the writer as one
    message that holds no line feed and in which every pipe comes right
    after a backslash. *)
Theorem code_span_in_table_is_one_line_with_backslashed_pipes (code : string)
    (hasNextSibling : bool) (context : Emitter.Context) :
  Emitter.insideTable context = true ->
  exists message,
    Emitter.writeNode (CodeSpan code) hasNextSibling context
    = Emitter.Ok (Emitter.write message context) /\
    hasLineFeed message = false /\ pipesEscaped message = true.
Proof.
  intros Hin. cbn [Emitter.writeNode]. rewrite Hin.
  pose proof (splitLines_no_line_feed (Text.escapePipes code)) as Hfree.
  pose proof (splitLines_escapePipes_guarded code) as Hpipes.
  destruct (1 <? length (Text.splitLines (Text.escapePipes code)))%nat eqn:E.
  - eexists. split; [reflexivity |]. split.
    + rewrite !hasLineFeed_app, (join_no_line_feed "&#010;" _ eq_refl Hfree).
      reflexivity.
    + unfold pipesEscaped. apply guarded_app; [reflexivity |].
      apply guarded_app; [| reflexivity].
      apply guarded_join; [reflexivity | exact Hpipes].
  - eexists. split; [reflexivity |]. split.
    + rewrite !hasLineFeed_app. apply Nat.ltb_ge in E.
      unfold Text.splitLines in E. rewrite mapInit_length in E.
      unfold hasLineFeed at 2. rewrite (splitOn_single _ _ E). reflexivity.
    + unfold pipesEscaped. apply guarded_app; [reflexivity |].
      apply guarded_app; [| reflexivity]. apply escapePipes_guarded.
Qed.

Lemma code_span_in_table_is_one_line_with_backslashed_pipes_witness :
  exists message,
    Emitter.writeNode (CodeSpan "string | undefined") false
      {| Emitter.writer := IndentedWriter.create; Emitter.insideTable := true;
         Emitter.listLevel := 0; Emitter.options := TableRows.noOptions |}
    = Emitter.Ok
        (Emitter.write message
           {| Emitter.writer := IndentedWriter.create;
              Emitter.insideTable := true; Emitter.listLevel := 0;
              Emitter.options := TableRows.noOptions |}) /\
    hasLineFeed message = false /\ pipesEscaped message = true.
Proof.
  apply (code_span_in_table_is_one_line_with_backslashed_pipes "string | undefined" false
           {| Emitter.writer := IndentedWriter.create;
              Emitter.insideTable := true; Emitter.listLevel := 0;
              Emitter.options := TableRows.noOptions |}).
  reflexivity.
Defined.

(** X6.  Fenced code in a table cell is written as one [pre] element
    whose body holds no line feed and in which every pipe comes right after
    a backslash; the language is copied as it is. *)
Theorem fenced_code_in_table_keeps_the_row (language code : string)
    (hasNextSibling : bool) (context : Emitter.Context) :
  Emitter.insideTable context = true ->
  exists body,
    Emitter.writeNode (FencedCode language code) hasNextSibling context
    = Emitter.Ok
        (Emitter.write
           ("<pre lang=" +:+ Text.dquote +:+ language +:+ Text.dquote +:+ ">"
            +:+ body +:+ "</pre>") context) /\
    hasLineFeed body = false /\ pipesEscaped body = true.
Proof.
  intros Hin. cbn [Emitter.writeNode]. rewrite Hin.
  exists (Js.join "&#010;" (Text.splitLines (Text.escapePipes code))).
  split; [reflexivity |]. split.
  - apply join_no_line_feed; [reflexivity | apply splitLines_no_line_feed].
  - unfold pipesEscaped. apply guarded_join; [reflexivity |].
    apply splitLines_escapePipes_guarded.
Qed.

Lemma fenced_code_in_table_keeps_the_row_witness :
  exists body,
    Emitter.writeNode (FencedCode "typescript" "type A = B | C;") false
      {| Emitter.writer := IndentedWriter.create; Emitter.insideTable := true;
         Emitter.listLevel := 0; Emitter.options := TableRows.noOptions |}
    = Emitter.Ok
        (Emitter.write
           ("<pre lang=" +:+ Text.dquote +:+ "typescript" +:+ Text.dquote
            +:+ ">" +:+ body +:+ "</pre>")
           {| Emitter.writer := IndentedWriter.create;
              Emitter.insideTable := true; Emitter.listLevel := 0;
              Emitter.options := TableRows.noOptions |}) /\
    hasLineFeed body = false /\ pipesEscaped body = true.
Proof.
  apply (fenced_code_in_table_keeps_the_row "typescript" "type A = B | C;" false
           {| Emitter.writer := IndentedWriter.create;
              Emitter.insideTable := true; Emitter.listLevel := 0;
              Emitter.options := TableRows.noOptions |}).
  reflexivity.
Defined.

Lemma lineTerminator_isSpace (c : ascii) :
  Js.isLineTerminator c = true -> Js.isSpace c = true.
Proof.
  unfold Js.isLineTerminator, Js.isSpace, Js.between.
  destruct (Js.code c =? 10)%nat eqn:E1.
  - apply Nat.eqb_eq in E1. rewrite E1. reflexivity.
  - destruct (Js.code c =? 13)%nat eqn:E2; [| discriminate].
    apply Nat.eqb_eq in E2. rewrite E2. reflexivity.
Qed.

Lemma collapseSpaces_no_line_terminator (s : string) :
  forall inRun,
    forallb (fun c => negb (Js.isLineTerminator c))
            (list_ascii_of_string (Text.collapseSpaces inRun s)) = true.
Proof.
  induction s as [| c s IH]; intros inRun; [reflexivity |].
  cbn [Text.collapseSpaces]. destruct (Js.isSpace c) eqn:E.
  - rewrite chars_app, forallb_app, IH, andb_true_r.
    destruct inRun; reflexivity.
  - cbn [list_ascii_of_string forallb]. rewrite IH, andb_true_r.
    destruct (Js.isLineTerminator c) eqn:L; [| reflexivity].
    apply lineTerminator_isSpace in L. congruence.
Qed.

Lemma escapedChar_no_line_terminator (c : ascii) :
  Js.isLineTerminator c = false ->
  forallb (fun c => negb (Js.isLineTerminator c))
          (list_ascii_of_string (escapedChar c)) = true.
Proof.
  intros Hc.
  destruct (escapedChar_cases c)
    as [-> | [[-> S] | [-> | [-> | [-> | [-> P]]]]]]; try reflexivity.
  - cbn [String.append Text.backslash list_ascii_of_string forallb].
    rewrite Hc. reflexivity.
  - cbn [list_ascii_of_string forallb]. rewrite Hc. reflexivity.
Qed.

(** X7.  The text of a link cannot end the link early or break the line:
    [writeLinkTagWithUrlDestination] writes an opening bracket, the encoded
    link text and the destination in parentheses, and the encoded text
    holds no line terminator and no bracket (nor any other markup
    character) outside a backslash escape. *)
Theorem link_text_stays_inside_its_brackets (linkText : option string)
    (urlDestination : string) (context : Emitter.Context) :
  exists encoded,
    Emitter.writeLinkTagWithUrlDestination linkText urlDestination context
    = Emitter.write ("](" +:+ urlDestination +:+ ")")
        (Emitter.write encoded (Emitter.write "[" context)) /\
    forallb (fun c => negb (Js.isLineTerminator c))
            (list_ascii_of_string encoded) = true /\
    forallb (fun c => negb (isMarkup c)) (outsideEscapes false encoded) = true.
Proof.
  eexists. split; [reflexivity |]. split.
  - rewrite getEscapedText_escapedFrom. apply escapedFrom_forallb; [| reflexivity].
    intros c Hc. apply escapedChar_no_line_terminator.
    pose proof (collapseSpaces_no_line_terminator
                  (match linkText with Some t => t | None => urlDestination end)
                  false) as Hall.
    rewrite forallb_forall in Hall. specialize (Hall c Hc).
    apply negb_true_iff in Hall. exact Hall.
  - apply markup_of_escaped_text_is_escaped.
Qed.

(** ** Anchors *)

Lemma digitsValue_cons (c : ascii) (s : string) (v : nat) :
  digitsValue (String c s) v = digitsValue s (10 * v + (Js.code c - 48)).
Proof. reflexivity. Qed.

Lemma code_digit (n : nat) : Js.code (ascii_of_nat (48 + n mod 10)) = 48 + n mod 10.
Proof.
  unfold Js.code. apply nat_ascii_embedding.
  pose proof (Nat.mod_upper_bound n 10). lia.
Qed.

Lemma digitsFuel_value (fuel : nat) :
  forall (n : nat) (acc : string),
    n < fuel ->
    exists k, forall v,
      digitsValue (Js.digitsFuel fuel n acc) v = digitsValue acc (v * 10 ^ k + n).
Proof.
  induction fuel as [| fuel IH]; intros n acc Hlt; [lia |].
  cbn [Js.digitsFuel].
  destruct (n / 10 =? 0)%nat eqn:E.
  - exists 1. intros v. rewrite digitsValue_cons, code_digit.
    apply Nat.eqb_eq in E. f_equal.
    pose proof (Nat.div_mod_eq n 10) as Hn. rewrite E in Hn.
    rewrite Nat.pow_1_r. lia.
  - apply Nat.eqb_neq in E.
    assert (Hdiv : n / 10 < fuel).
    { pose proof (Nat.div_mod_eq n 10). lia. }
    destruct (IH (n / 10) (String (ascii_of_nat (48 + n mod 10)) acc) Hdiv)
      as [k Hk].
    exists (S k). intros v. rewrite Hk, digitsValue_cons, code_digit.
    f_equal. pose proof (Nat.div_mod_eq n 10) as Hn. rewrite Nat.pow_succ_r'.
    set (p := 10 ^ k) in *. set (q := n / 10) in *. set (r := n mod 10) in *.
    nia.
Qed.

Lemma numberToString_value (n : nat) : digitsValue (Js.numberToString n) 0 = n.
Proof.
  unfold Js.numberToString.
  destruct (digitsFuel_value (S n) n "" (Nat.lt_succ_diag_r n)) as [k Hk].
  rewrite Hk. reflexivity.
Qed.

Lemma numberToString_inj (n m : nat) :
  Js.numberToString n = Js.numberToString m -> n = m.
Proof.
  intros H. rewrite <- (numberToString_value n), <- (numberToString_value m), H.
  reflexivity.
Qed.

Lemma digitsFuel_head (fuel : nat) :
  forall (n : nat) (acc : string),
    (0 < fuel \/ exists d r, acc = String d r /\ Js.between 48 57 (Js.code d) = true) ->
    exists d r, Js.digitsFuel fuel n acc = String d r /\
                Js.between 48 57 (Js.code d) = true.
Proof.
  induction fuel as [| fuel IH]; intros n acc H.
  - destruct H as [H | H]; [lia | exact H].
  - assert (Hd : Js.between 48 57 (Js.code (ascii_of_nat (48 + n mod 10))) = true).
    { rewrite code_digit. unfold Js.between.
      pose proof (Nat.mod_upper_bound n 10).
      apply andb_true_intro. split; apply Nat.leb_le; lia. }
    cbn [Js.digitsFuel]. destruct (n / 10 =? 0)%nat; [eauto |].
    apply IH. right. eauto.
Qed.

Lemma numberToString_head (n : nat) :
  exists d r, Js.numberToString n = String d r /\
              Js.between 48 57 (Js.code d) = true.
Proof. apply digitsFuel_head. left. lia. Qed.

Lemma str_app_inv_head (a x y : string) : a +:+ x = a +:+ y -> x = y.
Proof.
  induction a as [| c a IH]; simpl; intros H; [exact H |].
  injection H as H. apply IH, H.
Qed.

(** The anchor of a method or property, part by part. *)
Lemma anchor_parts (x : ApiItem) :
  isMemberKind (kind x) = true ->
  _getAnchorForApiItem x
  = Some (displayName x +:+ familySuffix x +:+ staticSuffix x
          +:+ overloadSuffix x).
Proof.
  unfold _getAnchorForApiItem, familySuffix, anchorFamily, staticSuffix,
    overloadSuffix, shownOverload.
  assert (T : forall s t, Js.truthy (s +:+ String "-" t) = true).
  { intros s t. rewrite truthy_app. simpl. apply orb_true_r. }
  destruct (kind x); try discriminate; intros _;
    destruct (isEventProperty x), (isStatic x), (overloadIndex x) as [[| n] |];
    rewrite ?T; cbn [andb Nat.ltb Nat.leb]; rewrite ?T; cbn [andb];
    rewrite ?str_app_assoc, ?str_app_nil_r; reflexivity.
Qed.

Lemma numberToString_not_letter (n : nat) (r : string) :
  Js.numberToString n <> String "s" r.
Proof.
  destruct (numberToString_head n) as (d & r' & E & Hd).
  rewrite E. intros [= -> _]. discriminate.
Qed.

Lemma overloadSuffix_inj (a b : ApiItem) :
  overloadSuffix a = overloadSuffix b -> shownOverload a = shownOverload b.
Proof.
  unfold overloadSuffix.
  destruct (shownOverload a) as [i |], (shownOverload b) as [j |];
    simpl; intros H; try discriminate; [| reflexivity].
  injection H as H. apply numberToString_inj in H. subst. reflexivity.
Qed.

Lemma staticSuffix_inj (a b : ApiItem) :
  staticSuffix a +:+ overloadSuffix a = staticSuffix b +:+ overloadSuffix b ->
  isStatic a = isStatic b /\ overloadSuffix a = overloadSuffix b.
Proof.
  unfold staticSuffix.
  destruct (isStatic a), (isStatic b); intros H.
  - apply str_app_inv_head in H. split; [reflexivity | exact H].
  - exfalso. revert H. unfold overloadSuffix.
    destruct (shownOverload b) as [j |]; simpl; intros H; [| discriminate].
    injection H as H. symmetry in H. eapply numberToString_not_letter, H.
  - exfalso. revert H. unfold overloadSuffix.
    destruct (shownOverload a) as [i |]; simpl; intros H; [| discriminate].
    injection H as H. eapply numberToString_not_letter, H.
  - split; [reflexivity | exact H].
Qed.

Lemma familySuffix_inj (a b : ApiItem) (x y : string) :
  isMemberKind (kind a) = true -> isMemberKind (kind b) = true ->
  familySuffix a +:+ x = familySuffix b +:+ y ->
  anchorFamily a = anchorFamily b /\ x = y.
Proof.
  unfold familySuffix, anchorFamily.
  destruct (kind a); try discriminate; intros _;
    destruct (kind b); try discriminate; intros _;
    destruct (isEventProperty a), (isEventProperty b); simpl; intros H;
    try discriminate;
    (split; [reflexivity |]);
    repeat (injection H as H); exact H.
Qed.

(** X8.  Anchors tell the members of one name apart: for two methods or
    properties with the same display name the anchors are equal exactly
    when both are of the same family (method, event, property), both or
    neither are static, and they show the same overload index. *)
Theorem anchors_tell_same_named_members_apart (a b : ApiItem) :
  displayName a = displayName b ->
  isMemberKind (kind a) = true ->
  isMemberKind (kind b) = true ->
  _getAnchorForApiItem a = _getAnchorForApiItem b
  <-> anchorFamily a = anchorFamily b /\ isStatic a = isStatic b /\
      shownOverload a = shownOverload b.
Proof.
  intros Hname Ha Hb.
  rewrite (anchor_parts a Ha), (anchor_parts b Hb), Hname. split.
  - intros [= H]. apply str_app_inv_head in H.
    apply (familySuffix_inj a b _ _ Ha Hb) in H. destruct H as [Hf H].
    apply staticSuffix_inj in H. destruct H as [Hs Ho].
    apply overloadSuffix_inj in Ho. auto.
  - intros (Hf & Hs & Ho).
    unfold familySuffix, staticSuffix, overloadSuffix.
    rewrite Hf, Hs, Ho. reflexivity.
Qed.

Lemma anchors_tell_same_named_members_apart_witness :
  let bus := Sample.topLevel Sample.events Sample.bus in
  let on0 := Sample.memberOf bus (Sample.callable 53 ApiItemKind.Method "on" 0) in
  let on1 := Sample.memberOf bus (Sample.callable 54 ApiItemKind.Method "on" 1) in
  (_getAnchorForApiItem on0 = _getAnchorForApiItem on1
   <-> anchorFamily on0 = anchorFamily on1 /\ isStatic on0 = isStatic on1 /\
       shownOverload on0 = shownOverload on1) /\
  _getAnchorForApiItem on0 = Some "on-method" /\
  _getAnchorForApiItem on1 = Some "on-method-1".
Proof.
  cbv zeta. split; [| split; vm_compute; reflexivity].
  apply (anchors_tell_same_named_members_apart
           (Sample.memberOf (Sample.topLevel Sample.events Sample.bus)
              (Sample.callable 53 ApiItemKind.Method "on" 0))
           (Sample.memberOf (Sample.topLevel Sample.events Sample.bus)
              (Sample.callable 54 ApiItemKind.Method "on" 1)));
    reflexivity.
Defined.

(** ** Members on the page of their container *)

Lemma getHierarchy_member (m c : ApiItem) :
  parent m = Some c -> getHierarchy m = getHierarchy c ++ [m].
Proof.
  destruct m as [anc d]. unfold parent, getHierarchy. simpl.
  destruct anc as [| p rest]; [discriminate |].
  intros [= <-]. reflexivity.
Qed.

Lemma fold_filenameStep_hash (l : list ApiItem) :
  forallb (fun x => negb (isMemberKind (kind x))) l = true ->
  forall st, snd (fold_left filenameStep l st) = snd st.
Proof.
  induction l as [| x l IH]; intros H st; [reflexivity |].
  cbn [forallb] in H. apply andb_prop in H. destruct H as [Hx Hl].
  cbn [fold_left]. rewrite IH by exact Hl.
  destruct st as [b h]. unfold filenameStep.
  destruct (kind x); try discriminate; reflexivity.
Qed.

Lemma member_filename (m c : ApiItem) (anchor : string) :
  parent m = Some c ->
  isMemberKind (kind m) = true ->
  forallb (fun x => negb (isMemberKind (kind x))) (getHierarchy c) = true ->
  _getAnchorForApiItem m = Some anchor ->
  _getFilenameForApiItem m = _getFilenameForApiItem c +:+ "#" +:+ anchor.
Proof.
  intros Hp Hm Hc Ha.
  pose proof (anchor_truthy m _ Ha) as Ht.
  unfold _getFilenameForApiItem.
  rewrite (getHierarchy_member m c Hp), fold_left_app.
  pose proof (fold_filenameStep_hash _ Hc ("", None)) as Hh.
  destruct (fold_left filenameStep (getHierarchy c) ("", None)) as [base hash].
  simpl in Hh. subst hash. cbn [fold_left].
  rewrite filenameStep_member by exact Hm. rewrite Ha, Ht. reflexivity.
Qed.

(** X9.  A method or property lives on the page of its container: when
    no container of [m] is itself a method or property, the path of [m] is
    the path of its parent followed by [#] and the anchor of [m]. *)
Theorem member_path_is_parent_page_and_anchor (m c : ApiItem) :
  parent m = Some c ->
  isMemberKind (kind m) = true ->
  forallb (fun x => negb (isMemberKind (kind x))) (getHierarchy c) = true ->
  exists anchor,
    _getAnchorForApiItem m = Some anchor /\
    _getFilenameForApiItem m = _getFilenameForApiItem c +:+ "#" +:+ anchor.
Proof.
  intros Hp Hm Hc.
  pose proof (anchor_parts m Hm) as Ha.
  eexists. split; [exact Ha |].
  apply member_filename; assumption.
Qed.

Lemma member_path_is_parent_page_and_anchor_witness :
  exists anchor,
    _getAnchorForApiItem
      (Sample.memberOf (Sample.topLevel Sample.zoo Sample.dog) Sample.speak)
    = Some anchor /\
    _getFilenameForApiItem
      (Sample.memberOf (Sample.topLevel Sample.zoo Sample.dog) Sample.speak)
    = _getFilenameForApiItem (Sample.topLevel Sample.zoo Sample.dog)
      +:+ "#" +:+ anchor.
Proof.
  apply (member_path_is_parent_page_and_anchor
           (Sample.memberOf (Sample.topLevel Sample.zoo Sample.dog) Sample.speak)
           (Sample.topLevel Sample.zoo Sample.dog));
    reflexivity.
Defined.


(** ** The traversal of the package *)

Lemma visitBreadthFirst_order {S : Type} (visit : S -> ApiItem -> S) (fuel : nat) :
  forall (children : list ApiItem) (st : S),
    visitBreadthFirst fuel visit children st
    = fold_left visit (visitOrder fuel children) st.
Proof.
  induction fuel as [| fuel IH]; intros children st; [reflexivity |].
  destruct children as [| child rest]; [reflexivity |].
  cbn [visitBreadthFirst visitOrder fold_left]. apply IH.
Qed.

Lemma Below_first (root x : ApiItem) :
  Below root x ->
  exists z, In z (members root) /\ (x = z \/ Below z x).
Proof.
  induction 1 as [x Hx | y x Hy IH Hx].
  - exists x. split; [exact Hx | left; reflexivity].
  - destruct IH as (z & Hz & [-> | Hzy]).
    + exists z. split; [exact Hz |]. right. apply Below_member, Hx.
    + exists z. split; [exact Hz |]. right. eapply Below_step; eassumption.
Qed.

Lemma Below_trans (a b c : ApiItem) : Below a b -> Below b c -> Below a c.
Proof.
  intros Hab Hbc. induction Hbc as [x Hx | y x Hy IH Hx].
  - eapply Below_step; eassumption.
  - eapply Below_step; eassumption.
Qed.

Lemma forestSize_cons (child : ApiItem) (rest : list ApiItem) :
  forestSize (child :: rest) = S (forestSize (rest ++ members child)).
Proof.
  rewrite forestSize_app. unfold forestSize at 1. simpl.
  fold (forestSize rest). rewrite forestSize_members. lia.
Qed.

(** With the number of nodes as fuel, every node of the forest is visited. *)
Lemma visitOrder_complete (fuel : nat) :
  forall children : list ApiItem,
    forestSize children <= fuel ->
    forall y x, In y children -> x = y \/ Below y x ->
                In x (visitOrder fuel children).
Proof.
  induction fuel as [| fuel IH]; intros children Hsize y x Hy Hx.
  - destruct children as [| child rest]; [contradiction |].
    rewrite forestSize_cons in Hsize. lia.
  - destruct children as [| child rest]; [contradiction |].
    rewrite forestSize_cons in Hsize.
    cbn [visitOrder].
    assert (Hrec : forall z x, In z (rest ++ members child) ->
                               x = z \/ Below z x ->
                               In x (visitOrder fuel (rest ++ members child))).
    { apply IH. lia. }
    destruct Hy as [<- | Hy].
    + destruct Hx as [-> | Hx]; [left; reflexivity |].
      right. apply Below_first in Hx. destruct Hx as (z & Hz & Hzx).
      apply (Hrec z x); [apply in_or_app; right; exact Hz | exact Hzx].
    + right. apply (Hrec y x); [apply in_or_app; left; exact Hy | exact Hx].
Qed.

Lemma visitOrder_sound (fuel : nat) :
  forall (children : list ApiItem) (x : ApiItem),
    In x (visitOrder fuel children) ->
    exists y, In y children /\ (x = y \/ Below y x).
Proof.
  induction fuel as [| fuel IH]; intros children x Hx; [contradiction |].
  destruct children as [| child rest]; [contradiction |].
  cbn [visitOrder] in Hx. destruct Hx as [<- | Hx].
  - exists child. split; [left; reflexivity | left; reflexivity].
  - apply IH in Hx. destruct Hx as (y & Hy & Hyx).
    apply in_app_or in Hy. destruct Hy as [Hy | Hy].
    + exists y. split; [right; exact Hy | exact Hyx].
    + exists child. split; [left; reflexivity |]. right.
      destruct Hyx as [-> | Hyx].
      * apply Below_member, Hy.
      * eapply Below_trans; [apply Below_member, Hy | exact Hyx].
Qed.

(** The nodes the loops of [_generateTypeMapping] and
    [_generateClassHierarchy] visit are the declarations below the package. *)
Lemma visitOrder_package (apiPackage x : ApiItem) :
  In x (visitOrder (forestSize (members apiPackage)) (members apiPackage))
  <-> Below apiPackage x.
Proof.
  split.
  - intros Hx. apply visitOrder_sound in Hx. destruct Hx as (y & Hy & [-> | Hyx]).
    + apply Below_member, Hy.
    + eapply Below_trans; [apply Below_member, Hy | exact Hyx].
  - intros Hx. apply Below_first in Hx. destruct Hx as (z & Hz & Hzx).
    eapply visitOrder_complete; [reflexivity | exact Hz | exact Hzx].
Qed.

(** ** The type table *)

Lemma typeMapping_sound (l : list ApiItem) :
  forall (m : gmap string ApiItem) (name : string) (x : ApiItem),
    fold_left typeMappingVisit l m !! name = Some x ->
    m !! name = Some x \/
    In x l /\ isTypeKind (kind x) = true /\ getScopedNameWithinPackage x = name.
Proof.
  induction l as [| child l IH]; intros m name x H; [left; exact H |].
  cbn [fold_left] in H. apply IH in H. destruct H as [H | (Hin & Hk & Hn)].
  - unfold typeMappingVisit in H.
    destruct (kind child) eqn:Ek;
      try (left; exact H);
      (destruct (decide (getScopedNameWithinPackage child = name)) as [E | E];
       [ rewrite E, lookup_insert_eq in H; injection H as <-;
         right; repeat split; [left; reflexivity | rewrite Ek; reflexivity | exact E]
       | rewrite lookup_insert_ne in H by exact E; left; exact H ]).
  - right. repeat split; [right; exact Hin | exact Hk | exact Hn].
Qed.

Lemma typeMapping_keeps (l : list ApiItem) :
  forall (m : gmap string ApiItem) (name : string),
    is_Some (m !! name) -> is_Some (fold_left typeMappingVisit l m !! name).
Proof.
  induction l as [| child l IH]; intros m name H; [exact H |].
  cbn [fold_left]. apply IH. unfold typeMappingVisit.
  destruct (kind child); try exact H;
    (destruct (decide (getScopedNameWithinPackage child = name)) as [E | E];
     [ rewrite E, lookup_insert_eq; eauto
     | rewrite lookup_insert_ne by exact E; exact H ]).
Qed.

Lemma typeMapping_complete (l : list ApiItem) :
  forall (m : gmap string ApiItem) (x : ApiItem),
    In x l -> isTypeKind (kind x) = true ->
    is_Some (fold_left typeMappingVisit l m !! getScopedNameWithinPackage x).
Proof.
  induction l as [| child l IH]; intros m x Hin Hk; [contradiction |].
  cbn [fold_left]. destruct Hin as [-> | Hin]; [| apply IH; assumption].
  apply typeMapping_keeps. unfold typeMappingVisit.
  destruct (kind x); try discriminate; rewrite lookup_insert_eq; eauto.
Qed.

(** X10.  Every entry of the type table is a declaration of the package,
    filed under its own scoped name, and is a class, an enumeration, an
    interface or a type alias. *)
Theorem type_table_entries_are_package_types (apiPackage : ApiItem)
    (name : string) (x : ApiItem) :
  _generateTypeMapping apiPackage !! name = Some x ->
  Below apiPackage x /\ isTypeKind (kind x) = true /\
  getScopedNameWithinPackage x = name.
Proof.
  unfold _generateTypeMapping. rewrite visitBreadthFirst_order. intros H.
  apply typeMapping_sound in H. destruct H as [H | (Hin & Hk & Hn)].
  - rewrite lookup_empty in H. discriminate.
  - split; [apply visitOrder_package, Hin | split; assumption].
Qed.

Lemma type_table_entries_are_package_types_witness :
  Below (Sample.apiPackage Sample.zoo) (Sample.topLevel Sample.zoo Sample.dog) /\
  isTypeKind (kind (Sample.topLevel Sample.zoo Sample.dog)) = true /\
  getScopedNameWithinPackage (Sample.topLevel Sample.zoo Sample.dog) = "Dog".
Proof.
  apply (type_table_entries_are_package_types (Sample.apiPackage Sample.zoo)
           "Dog" (Sample.topLevel Sample.zoo Sample.dog)).
  vm_compute. reflexivity.
Defined.

(** X11.  Every class, enumeration, interface and type alias below the
    package can be looked up: the type table has an entry under its scoped
    name, and that entry is a declaration of the package with this scoped
    name. *)
Theorem package_types_are_in_type_table (apiPackage x : ApiItem) :
  Below apiPackage x ->
  isTypeKind (kind x) = true ->
  exists y,
    _generateTypeMapping apiPackage !! getScopedNameWithinPackage x = Some y /\
    Below apiPackage y /\ isTypeKind (kind y) = true /\
    getScopedNameWithinPackage y = getScopedNameWithinPackage x.
Proof.
  intros Hx Hk.
  assert (Hsome : is_Some (_generateTypeMapping apiPackage
                             !! getScopedNameWithinPackage x)).
  { unfold _generateTypeMapping. rewrite visitBreadthFirst_order.
    apply typeMapping_complete; [apply visitOrder_package, Hx | exact Hk]. }
  destruct Hsome as [y Hy]. exists y. split; [exact Hy |].
  unfold _generateTypeMapping in Hy. rewrite visitBreadthFirst_order in Hy.
  apply typeMapping_sound in Hy. destruct Hy as [Hy | (Hin & Hky & Hn)].
  - rewrite lookup_empty in Hy. discriminate.
  - split; [apply visitOrder_package, Hin | split; assumption].
Qed.

Lemma package_types_are_in_type_table_witness :
  exists y,
    _generateTypeMapping (Sample.apiPackage Sample.zoo)
      !! getScopedNameWithinPackage (Sample.topLevel Sample.zoo Sample.animal)
    = Some y /\
    Below (Sample.apiPackage Sample.zoo) y /\ isTypeKind (kind y) = true /\
    getScopedNameWithinPackage y
    = getScopedNameWithinPackage (Sample.topLevel Sample.zoo Sample.animal).
Proof.
  apply (package_types_are_in_type_table (Sample.apiPackage Sample.zoo)
           (Sample.topLevel Sample.zoo Sample.animal)).
  - apply (Below_step _
             {| ancestors := [Sample.packageOf Sample.zoo; Sample.modelOf Sample.zoo];
                self := Sample.entryPointOf Sample.zoo |}).
    + apply Below_member. simpl. left. reflexivity.
    + simpl. left. reflexivity.
  - reflexivity.
Defined.

Lemma firstInTypeMap_hit (typeMap : gmap string ApiItem) (candidates : list string)
    (found : ApiItem) :
  firstInTypeMap typeMap candidates = Some found ->
  exists name, In name candidates /\ typeMap !! name = Some found.
Proof.
  induction candidates as [| name rest IH]; simpl; [discriminate |].
  destruct (typeMap !! name) as [hit |] eqn:E.
  - intros [= <-]. exists name. split; [left; reflexivity | exact E].
  - intros H. destruct (IH H) as (n & Hn & Hf).
    exists n. split; [right; exact Hn | exact Hf].
Qed.

Lemma setOf_incl (l seen : list string) (x : string) :
  In x (JsMap.setOf l seen) -> In x l.
Proof.
  revert seen. induction l as [| y l IH]; intros seen; simpl; [tauto |].
  destruct (existsb (String.eqb y) seen).
  - intros H. right. eapply IH, H.
  - intros [-> | H]; [left; reflexivity | right; eapply IH, H].
Qed.

(** X12.  Type resolution stays inside the package: what [_resolveType]
    finds in the type table of a package is a class, an enumeration, an
    interface or a type alias below that package, and its scoped name is
    the type text, bare or qualified by the scoped name of the origin item
    or of one of its containers. *)
Theorem resolved_type_is_a_type_of_the_package (apiPackage originItem : ApiItem)
    (type : string) (found : ApiItem) :
  _resolveType (_generateTypeMapping apiPackage) originItem type = Some found ->
  Below apiPackage found /\ isTypeKind (kind found) = true /\
  exists scope, In scope (getHierarchy originItem) /\
                getScopedNameWithinPackage found = candidateName type scope.
Proof.
  unfold _resolveType.
  destruct (startsWithWordChar type); [| discriminate]. cbn [negb].
  intros H. apply firstInTypeMap_hit in H. destruct H as (name & Hname & Hfound).
  apply setOf_incl, in_rev, in_map_iff in Hname.
  destruct Hname as (scope & <- & Hscope).
  unfold _generateTypeMapping in Hfound. rewrite visitBreadthFirst_order in Hfound.
  apply typeMapping_sound in Hfound. destruct Hfound as [Hy | (Hin & Hk & Hn)].
  - rewrite lookup_empty in Hy. discriminate.
  - split; [apply visitOrder_package, Hin |]. split; [exact Hk |].
    exists scope. split; [exact Hscope | exact Hn].
Qed.

Lemma resolved_type_is_a_type_of_the_package_witness :
  Below (Sample.apiPackage Sample.zoo) (Sample.topLevel Sample.zoo Sample.animal) /\
  isTypeKind (kind (Sample.topLevel Sample.zoo Sample.animal)) = true /\
  exists scope,
    In scope (getHierarchy
                (Sample.memberOf (Sample.topLevel Sample.zoo Sample.dog)
                   Sample.speak)) /\
    getScopedNameWithinPackage (Sample.topLevel Sample.zoo Sample.animal)
    = candidateName "Animal" scope.
Proof.
  apply (resolved_type_is_a_type_of_the_package (Sample.apiPackage Sample.zoo)
           (Sample.memberOf (Sample.topLevel Sample.zoo Sample.dog) Sample.speak)
           "Animal" (Sample.topLevel Sample.zoo Sample.animal)).
  vm_compute. reflexivity.
Defined.

(** ** The inheritance graph *)

Lemma same_refl (a : ApiItem) : same a a = true.
Proof. apply N.eqb_refl. Qed.

Lemma same_sym (a b : ApiItem) : same a b = same b a.
Proof. apply N.eqb_sym. Qed.

Lemma same_trans (a b c : ApiItem) :
  same a b = true -> same b c = true -> same a c = true.
Proof.
  unfold same. intros H1 H2. apply N.eqb_eq in H1, H2. apply N.eqb_eq. congruence.
Qed.

Lemma set_upsert (k : ApiItem) (f : Refs -> Refs) (m : InheritanceMap) :
  inheritanceSet k (f (refsOrEmpty k m)) m = upsert k f m.
Proof.
  unfold inheritanceSet, refsOrEmpty, inheritanceGet.
  induction m as [| [k' v] m IH]; simpl; [reflexivity |].
  destruct (same k' k); [reflexivity |]. f_equal. exact IH.
Qed.

Lemma reverseEdges_edges (child : ApiItem) (entry : Refs) (m : InheritanceMap) :
  reverseEdges child entry m = fold_left (applyEdge child) (edgesOf child entry) m.
Proof.
  unfold reverseEdges, edgesOf. rewrite fold_left_app.
  set (m1 := match parentClass entry with
             | Some (Item parent) => _
             | _ => m
             end).
  assert (H1 : m1 = fold_left (applyEdge child)
                      match parentClass entry with
                      | Some (Item parent) => [(false, parent)]
                      | _ => []
                      end m).
  { unfold m1. destruct (parentClass entry) as [[parent | s] |]; try reflexivity.
    simpl. unfold applyEdge. simpl.
    apply (set_upsert parent (pushChild false child)). }
  rewrite <- H1. clear H1. generalize m1. clear m1.
  induction (parentInterfaces entry) as [| [parent | s] l IH]; intros m1;
    [reflexivity | | exact (IH m1)].
  cbn [fold_left flat_map app]. rewrite <- IH. f_equal.
  unfold applyEdge. cbn [fst snd].
  rewrite <- (set_upsert parent
                (pushChild (ApiItemKind.eqb (kind child) ApiItemKind.Class) child)).
  unfold pushChild.
  destruct (ApiItemKind.eqb (kind child) ApiItemKind.Class); reflexivity.
Qed.

Lemma pushChild_parents (asClass : bool) (child : ApiItem) (v : Refs) :
  parentClass (pushChild asClass child v) = parentClass v /\
  parentInterfaces (pushChild asClass child v) = parentInterfaces v.
Proof. destruct asClass; split; reflexivity. Qed.

Lemma pushChild_children (asClass : bool) (child : ApiItem) (v : Refs)
    (r : ItemOrString) :
  In r (childRefs (pushChild asClass child v))
  <-> In r (childRefs v) \/ r = Item child.
Proof.
  unfold childRefs. destruct asClass; simpl; rewrite !in_app_iff; simpl;
    intuition congruence.
Qed.

Section Upsert.

Variables (k : ApiItem) (f : Refs -> Refs).

Hypothesis f_parents :
  forall v, parentClass (f v) = parentClass v /\
            parentInterfaces (f v) = parentInterfaces v.

Lemma upsert_noParents (added : InheritanceMap) :
  Forall noParents added -> Forall noParents (upsert k f added).
Proof.
  induction 1 as [| [k' v] rest Hv Hrest IH]; simpl.
  - constructor; [| constructor]. unfold noParents. simpl.
    destruct (f_parents emptyRefs) as [-> ->]. split; reflexivity.
  - destruct (same k' k).
    + constructor; [| exact Hrest]. unfold noParents in *. simpl in *.
      destruct (f_parents v) as [-> ->]. exact Hv.
    + constructor; assumption.
Qed.

Lemma upsert_stable (forward current : InheritanceMap) :
  Stable forward current -> Stable forward (upsert k f current).
Proof.
  intros (kept & added & -> & Hkept & Hadded).
  induction Hkept as [| [k0 r0] [k1 r1] forward kept Hhead Hkept IH].
  - exists [], (upsert k f added). split; [reflexivity |].
    split; [constructor | apply upsert_noParents, Hadded].
  - destruct Hhead as (Hk & Hp & Hi). simpl in Hk, Hp, Hi. subst k1.
    cbn [app upsert]. destruct (same k0 k).
    + exists ((k0, f r1) :: kept), added. split; [reflexivity |].
      split; [| exact Hadded]. constructor; [| exact Hkept].
      unfold sameEdges. simpl. destruct (f_parents r1) as [-> ->]. auto.
    + destruct IH as (kept' & added' & E & Hkept' & Hadded').
      exists ((k0, r1) :: kept'), added'. rewrite E. split; [reflexivity |].
      split; [| exact Hadded']. constructor; [| exact Hkept'].
      unfold sameEdges. simpl. auto.
Qed.

Lemma upsert_get_key (m : InheritanceMap) :
  inheritanceGet k (upsert k f m) = Some (f (refsOrEmpty k m)).
Proof. rewrite <- set_upsert. apply inheritanceGet_set_same. Qed.

Lemma upsert_get_other (p : ApiItem) (m : InheritanceMap) :
  same k p = false ->
  inheritanceGet p (upsert k f m) = inheritanceGet p m.
Proof.
  intros Hkp. unfold inheritanceGet.
  induction m as [| [k' v] m IH]; simpl.
  - rewrite Hkp. reflexivity.
  - destruct (same k' k) eqn:E; simpl.
    + destruct (same k' p) eqn:Ep; [| reflexivity].
      rewrite same_sym in E. rewrite (same_trans k k' p E Ep) in Hkp.
      discriminate.
    + destruct (same k' p); [reflexivity | exact IH].
Qed.

Lemma upsert_get_same (p : ApiItem) (m : InheritanceMap) :
  same k p = true ->
  inheritanceGet p (upsert k f m) = Some (f (refsOrEmpty p m)).
Proof.
  intros Hkp. unfold inheritanceGet, refsOrEmpty, inheritanceGet.
  induction m as [| [k' v] m IH]; simpl.
  - rewrite Hkp. reflexivity.
  - destruct (same k' k) eqn:E; simpl.
    + rewrite (same_trans k' k p E Hkp). reflexivity.
    + destruct (same k' p) eqn:Ep; [| exact IH].
      rewrite same_sym in Hkp. rewrite (same_trans k' p k Ep Hkp) in E.
      discriminate.
Qed.

Lemma upsert_entries (p : ApiItem) (refs : Refs) (m : InheritanceMap) :
  In (p, refs) (upsert k f m) ->
  In (p, refs) m \/
  same p k = true /\
  exists v, refs = f v /\ (In (p, v) m \/ v = emptyRefs).
Proof.
  induction m as [| [k' v] m IH]; simpl.
  - intros [[= <- <-] | []]. right. split; [apply same_refl |].
    exists emptyRefs. auto.
  - destruct (same k' k) eqn:E; simpl.
    + intros [[= <- <-] | H]; [| left; right; exact H].
      right. split; [exact E |]. exists v. auto.
    + intros [H | H]; [left; left; exact H |].
      destruct (IH H) as [H' | (Hs & v' & -> & [H' | ->])].
      * left. right. exact H'.
      * right. split; [exact Hs |]. exists v'. auto.
      * right. split; [exact Hs |]. exists emptyRefs. auto.
Qed.

End Upsert.

Lemma Stable_refl (m : InheritanceMap) : Stable m m.
Proof.
  exists m, []. rewrite app_nil_r. split; [reflexivity |].
  split; [| constructor].
  induction m as [| e m IH]; constructor; [| exact IH].
  unfold sameEdges. auto.
Qed.

Lemma applyEdges_stable (child : ApiItem) (edges : list (bool * ApiItem)) :
  forall forward current,
    Stable forward current ->
    Stable forward (fold_left (applyEdge child) edges current).
Proof.
  induction edges as [| [b p] edges IH]; intros forward current H; [exact H |].
  cbn [fold_left]. apply IH. unfold applyEdge.
  apply upsert_stable; [apply pushChild_parents | exact H].
Qed.

Lemma reverseStep_stable (forward current : InheritanceMap)
    (e : ApiItem * Refs) :
  Stable forward current -> Stable forward (reverseStep current e).
Proof.
  intros H. unfold reverseStep. rewrite reverseEdges_edges.
  apply applyEdges_stable, H.
Qed.

Lemma edgesOf_parents (child : ApiItem) (a b : Refs) :
  parentClass a = parentClass b -> parentInterfaces a = parentInterfaces b ->
  edgesOf child a = edgesOf child b.
Proof. unfold edgesOf. intros -> ->. reflexivity. Qed.

(** An entry without parents leaves the map as it is. *)
Lemma reverseEdges_noParents (child : ApiItem) (entry : Refs) (m : InheritanceMap) :
  noParents (child, entry) -> reverseEdges child entry m = m.
Proof.
  intros [Hp Hi]. simpl in Hp, Hi. rewrite reverseEdges_edges.
  unfold edgesOf. rewrite Hp, Hi. reflexivity.
Qed.

Lemma reversePass_tail (fuel : nat) :
  forall (i : nat) (m : InheritanceMap),
    (forall j e, i <= j -> m !! j = Some e -> noParents e) ->
    reversePass fuel i m = m.
Proof.
  induction fuel as [| fuel IH]; intros i m H; [reflexivity |].
  cbn [reversePass]. destruct (m !! i) as [[child entry] |] eqn:E; [| reflexivity].
  rewrite reverseEdges_noParents by (eapply H; [reflexivity | exact E]).
  apply IH. intros j e Hj. apply H. lia.
Qed.

(** The reverse-pointer loop is a fold over the entries of the first loop:
    the entries it appends name no parent, and the entries it rewrites
    keep theirs. *)
Lemma reversePass_fold (forward : InheritanceMap) (rest : InheritanceMap) :
  forall (done current : InheritanceMap) (fuel : nat),
    forward = done ++ rest ->
    Stable forward current ->
    length rest <= fuel ->
    reversePass fuel (length done) current = fold_left reverseStep rest current.
Proof.
  induction rest as [| [child entry] rest IH]; intros done current fuel E Hst Hfuel.
  - rewrite app_nil_r in E. subst done. cbn [fold_left].
    apply reversePass_tail. intros j e Hj Hlook.
    destruct Hst as (kept & added & -> & Hkept & Hadded).
    apply Forall2_length in Hkept. unfold InheritanceMap in *.
    rewrite lookup_app_r in Hlook by lia.
    rewrite Forall_lookup in Hadded. eapply Hadded, Hlook.
  - destruct fuel as [| fuel]; [simpl in Hfuel; lia |].
    pose proof Hst as (kept & added & Ecur & Hkept & Hadded).
    rewrite E in Hkept. apply Forall2_app_inv_l in Hkept.
    destruct Hkept as (kd & kr & Hd & Hr & ->).
    inversion Hr as [| ? [child' entry'] ? kr' Hhead Hrest]; subst.
    destruct Hhead as (Hk & Hp & Hi). simpl in Hk, Hp, Hi. subst child'.
    assert (Hlook : (((kd ++ (child, entry') :: kr') ++ added) !! length done)
                    = Some (child, entry')).
    { unfold InheritanceMap in *.
      rewrite <- app_assoc. rewrite (Forall2_length _ _ _ Hd).
      rewrite lookup_app_r by lia. rewrite Nat.sub_diag. reflexivity. }
    cbn [reversePass]. unfold InheritanceMap in *. rewrite Hlook.
    rewrite reverseEdges_edges, <- (edgesOf_parents child entry entry' Hp Hi),
      <- reverseEdges_edges.
    cbn [fold_left]. change (reverseEdges child entry ?m)
      with (reverseStep m (child, entry)).
    replace (S (length done)) with (length (done ++ [(child, entry)]))
      by (rewrite length_app; simpl; lia).
    apply IH.
    + rewrite <- app_assoc. reflexivity.
    + apply reverseStep_stable, Hst.
    + simpl in Hfuel. lia.
Qed.

Lemma reversePassFuel_enough (m : InheritanceMap) : length m <= reversePassFuel m.
Proof. unfold reversePassFuel. lia. Qed.

Lemma generateClassHierarchy_fold `{Host} (typeMap : gmap string ApiItem)
    (apiPackage : ApiItem) :
  _generateClassHierarchy typeMap apiPackage
  = fold_left reverseStep (forwardMap typeMap apiPackage)
      (forwardMap typeMap apiPackage).
Proof.
  unfold _generateClassHierarchy. fold (forwardMap typeMap apiPackage).
  apply (reversePass_fold (forwardMap typeMap apiPackage) _ []);
    [reflexivity | apply Stable_refl | apply reversePassFuel_enough].
Qed.

Lemma fold_reverseStep_stable (l : InheritanceMap) :
  forall forward current,
    Stable forward current -> Stable forward (fold_left reverseStep l current).
Proof.
  induction l as [| e l IH]; intros forward current H; [exact H |].
  cbn [fold_left]. apply IH, reverseStep_stable, H.
Qed.

Lemma generateClassHierarchy_stable `{Host} (typeMap : gmap string ApiItem)
    (apiPackage : ApiItem) :
  Stable (forwardMap typeMap apiPackage)
         (_generateClassHierarchy typeMap apiPackage).
Proof.
  rewrite generateClassHierarchy_fold. apply fold_reverseStep_stable, Stable_refl.
Qed.

Lemma HasChild_upsert_keeps (p c k : ApiItem) (b : bool) (child : ApiItem)
    (m : InheritanceMap) :
  HasChild p c m -> HasChild p c (upsert k (pushChild b child) m).
Proof.
  intros (refs & Hget & Hin). unfold HasChild.
  destruct (same k p) eqn:E.
  - rewrite upsert_get_same by exact E. eexists. split; [reflexivity |].
    unfold refsOrEmpty. rewrite Hget. apply pushChild_children. left. exact Hin.
  - rewrite upsert_get_other by exact E. eauto.
Qed.

Lemma HasChild_upsert_adds (k child : ApiItem) (b : bool) (m : InheritanceMap) :
  HasChild k child (upsert k (pushChild b child) m).
Proof.
  unfold HasChild. rewrite upsert_get_key. eexists. split; [reflexivity |].
  apply pushChild_children. right. reflexivity.
Qed.

Lemma applyEdges_keep (p c child : ApiItem) (edges : list (bool * ApiItem)) :
  forall m, HasChild p c m -> HasChild p c (fold_left (applyEdge child) edges m).
Proof.
  induction edges as [| [b q] edges IH]; intros m H; [exact H |].
  cbn [fold_left]. apply IH. apply HasChild_upsert_keeps, H.
Qed.

Lemma applyEdges_add (p child : ApiItem) (b : bool)
    (edges : list (bool * ApiItem)) :
  forall m, In (b, p) edges ->
            HasChild p child (fold_left (applyEdge child) edges m).
Proof.
  induction edges as [| [b' q] edges IH]; intros m Hin; [contradiction |].
  cbn [fold_left]. destruct Hin as [[= -> ->] | Hin].
  - apply applyEdges_keep. apply HasChild_upsert_adds.
  - apply IH, Hin.
Qed.

Lemma edgesOf_complete (child p : ApiItem) (entry : Refs) :
  In (Item p) (parentsOf entry) -> exists b, In (b, p) (edgesOf child entry).
Proof.
  unfold parentsOf, edgesOf. intros H. apply in_app_or in H.
  destruct H as [H | H].
  - destruct (parentClass entry) as [[q | s] |]; simpl in H.
    + destruct H as [[= ->] | []]. exists false. left. reflexivity.
    + destruct (Js.truthy s); simpl in H; [| contradiction].
      destruct H as [H | []]. discriminate.
    + contradiction.
  - exists (ApiItemKind.eqb (kind child) ApiItemKind.Class).
    apply in_or_app. right. apply in_flat_map.
    exists (Item p). split; [exact H | left; reflexivity].
Qed.

Lemma edgesOf_sound (child p : ApiItem) (b : bool) (entry : Refs) :
  In (b, p) (edgesOf child entry) -> In (Item p) (parentsOf entry).
Proof.
  unfold parentsOf, edgesOf. intros H. apply in_app_or in H.
  apply in_or_app. destruct H as [H | H].
  - left. destruct (parentClass entry) as [[q | s] |]; simpl in H;
      try contradiction.
    destruct H as [[= _ ->] | []]. left. reflexivity.
  - right. apply in_flat_map in H. destruct H as ([q | s] & Hq & Hin);
      simpl in Hin; [| contradiction].
    destruct Hin as [[= _ ->] | []]. exact Hq.
Qed.

Lemma fold_reverseStep_keep (p c : ApiItem) (l : InheritanceMap) :
  forall m, HasChild p c m -> HasChild p c (fold_left reverseStep l m).
Proof.
  induction l as [| [child entry] l IH]; intros m H; [exact H |].
  cbn [fold_left]. apply IH. unfold reverseStep. cbn [fst snd].
  rewrite reverseEdges_edges. apply applyEdges_keep, H.
Qed.

Lemma fold_reverseStep_add (p child : ApiItem) (entry : Refs)
    (l : InheritanceMap) :
  forall m, In (child, entry) l -> In (Item p) (parentsOf entry) ->
            HasChild p child (fold_left reverseStep l m).
Proof.
  induction l as [| e l IH]; intros m Hin Hp; [contradiction |].
  cbn [fold_left]. destruct Hin as [-> | Hin]; [| apply IH; assumption].
  apply fold_reverseStep_keep. unfold reverseStep. cbn [fst snd].
  rewrite reverseEdges_edges.
  destruct (edgesOf_complete child p entry Hp) as [b Hb].
  eapply applyEdges_add, Hb.
Qed.

Lemma parentsOf_parents (a b : Refs) :
  parentClass a = parentClass b -> parentInterfaces a = parentInterfaces b ->
  parentsOf a = parentsOf b.
Proof. unfold parentsOf. intros -> ->. reflexivity. Qed.

(** An entry of the final map is an entry of the first loop with the same
    parents, or names no parent. *)
Lemma Stable_entry (forward current : InheritanceMap) (k : ApiItem) (refs : Refs) :
  Stable forward current -> In (k, refs) current ->
  (exists entry, In (k, entry) forward /\ parentsOf entry = parentsOf refs) \/
  parentsOf refs = [].
Proof.
  intros (kept & added & -> & Hkept & Hadded) Hin.
  apply in_app_or in Hin. destruct Hin as [Hin | Hin].
  - left. induction Hkept as [| [k0 r0] [k1 r1] forward kept Hhead Hkept IH];
      [contradiction |].
    destruct Hin as [[= -> ->] | Hin].
    + destruct Hhead as (Hk & Hp & Hi). simpl in Hk, Hp, Hi. subst k0.
      exists r0. split; [left; reflexivity | apply parentsOf_parents; assumption].
    + destruct (IH Hin) as (entry & He & Hp). exists entry.
      split; [right; exact He | exact Hp].
  - right. rewrite Forall_forall in Hadded.
    destruct (Hadded (k, refs) (proj2 (list_elem_of_In _ _) Hin)) as [Hp Hi].
    simpl in Hp, Hi. unfold parentsOf. rewrite Hp, Hi. reflexivity.
Qed.

Lemma Stable_forward_entry (forward current : InheritanceMap) (k : ApiItem)
    (entry : Refs) :
  Stable forward current -> In (k, entry) forward ->
  exists refs, In (k, refs) current /\ parentsOf refs = parentsOf entry.
Proof.
  intros (kept & added & -> & Hkept & Hadded) Hin.
  induction Hkept as [| [k0 r0] [k1 r1] forward kept Hhead Hkept IH];
    [contradiction |].
  destruct Hhead as (Hk & Hp & Hi). simpl in Hk, Hp, Hi. subst k1.
  destruct Hin as [[= -> ->] | Hin].
  - exists r1. split; [left; reflexivity |].
    symmetry. apply parentsOf_parents; assumption.
  - destruct (IH Hin) as (refs & Hr & Hpar). exists refs.
    split; [right; exact Hr | exact Hpar].
Qed.

(** X13.  Every parent edge has its reverse edge: when an entry of the
    inheritance map names a declaration as parent class or parent
    interface, the record of that declaration lists the entry's key among
    its child classes or child interfaces. *)
Theorem parent_edges_have_reverse_edges `{Host} (typeMap : gmap string ApiItem)
    (apiPackage child parent : ApiItem) (refs : Refs) :
  In (child, refs) (_generateClassHierarchy typeMap apiPackage) ->
  In (Item parent) (parentsOf refs) ->
  exists parentRefs,
    inheritanceGet parent (_generateClassHierarchy typeMap apiPackage)
    = Some parentRefs /\
    In (Item child) (childClasses parentRefs ++ childInterfaces parentRefs).
Proof.
  intros Hin Hp.
  pose proof (generateClassHierarchy_stable typeMap apiPackage) as Hst.
  destruct (Stable_entry _ _ _ _ Hst Hin) as [(entry & He & Hpar) | Hnone].
  - rewrite generateClassHierarchy_fold.
    apply (fold_reverseStep_add parent child entry); [exact He |].
    rewrite Hpar. exact Hp.
  - rewrite Hnone in Hp. contradiction.
Qed.

Lemma parent_edges_have_reverse_edges_witness :
  let base := Sample.topLevel Sample.family Sample.base in
  let derived := Sample.topLevel Sample.family Sample.derived in
  exists parentRefs,
    inheritanceGet base
      (@_generateClassHierarchy Sample.host (Sample.typeMapOf Sample.family)
         (Sample.apiPackage Sample.family))
    = Some parentRefs /\
    In (Item derived) (childClasses parentRefs ++ childInterfaces parentRefs).
Proof.
  cbv zeta.
  apply (@parent_edges_have_reverse_edges Sample.host
           (Sample.typeMapOf Sample.family) (Sample.apiPackage Sample.family)
           (Sample.topLevel Sample.family Sample.derived)
           (Sample.topLevel Sample.family Sample.base)
           {| parentClass := Some (Item (Sample.topLevel Sample.family Sample.base));
              childClasses := []; parentInterfaces := [];
              childInterfaces := [] |}).
  - vm_compute. right. left. reflexivity.
  - vm_compute. left. reflexivity.
Defined.

Lemma applyEdges_sound (forward : InheritanceMap) (child : ApiItem)
    (entry : Refs) (edges : list (bool * ApiItem)) :
  In (child, entry) forward ->
  (forall b p, In (b, p) edges -> In (Item p) (parentsOf entry)) ->
  forall m, ChildrenSound forward m ->
            ChildrenSound forward (fold_left (applyEdge child) edges m).
Proof.
  intros Hentry. induction edges as [| [b q] edges IH]; intros Hedges m Hm;
    [exact Hm |].
  cbn [fold_left]. apply IH.
  { intros b' p' H'. eapply Hedges. right. exact H'. }
  unfold applyEdge. cbn [fst snd]. intros p refs r Hin Hr.
  apply upsert_entries in Hin.
  destruct Hin as [Hin | (Hs & v & -> & Hv)]; [eapply Hm; eassumption |].
  apply pushChild_children in Hr. destruct Hr as [Hr | ->].
  - destruct Hv as [Hv | ->]; [eapply Hm; eassumption | contradiction].
  - exists child, entry, q. repeat split; [exact Hentry | exact Hs |].
    eapply Hedges. left. reflexivity.
Qed.

Lemma fold_reverseStep_sound (forward : InheritanceMap) (l : InheritanceMap) :
  (forall e, In e l -> In e forward) ->
  forall m, ChildrenSound forward m ->
            ChildrenSound forward (fold_left reverseStep l m).
Proof.
  induction l as [| [child entry] l IH]; intros Hl m Hm; [exact Hm |].
  cbn [fold_left]. apply IH.
  { intros e He. apply Hl. right. exact He. }
  unfold reverseStep. cbn [fst snd]. rewrite reverseEdges_edges.
  apply (applyEdges_sound forward child entry).
  - apply Hl. left. reflexivity.
  - intros b p. apply edgesOf_sound.
  - exact Hm.
Qed.

Lemma inheritanceSet_entries (k : ApiItem) (v : Refs) (m : InheritanceMap)
    (e : ApiItem * Refs) :
  In e (inheritanceSet k v m) -> In e m \/ snd e = v.
Proof.
  unfold inheritanceSet. induction m as [| [k' v'] m IH]; simpl.
  - intros [<- | []]. right. reflexivity.
  - destruct (same k' k); simpl.
    + intros [<- | H]; [right; reflexivity | left; right; exact H].
    + intros [<- | H]; [left; left; reflexivity |].
      destruct (IH H) as [H' | H']; [left; right; exact H' | right; exact H'].
Qed.

(** The first loop leaves every child list empty. *)
Lemma forwardMap_no_children `{Host} (typeMap : gmap string ApiItem)
    (apiPackage : ApiItem) (e : ApiItem * Refs) :
  In e (forwardMap typeMap apiPackage) -> childRefs (snd e) = [].
Proof.
  unfold forwardMap. rewrite visitBreadthFirst_order.
  generalize (visitOrder (forestSize (members apiPackage)) (members apiPackage)).
  intros l.
  assert (Hgen : forall m, (forall e, In e m -> childRefs (snd e) = []) ->
                           forall e, In e (fold_left (forwardVisit typeMap) l m) ->
                                     childRefs (snd e) = []).
  { induction l as [| x l IH]; intros m Hm; [exact Hm |].
    cbn [fold_left]. apply IH. intros e' He'. unfold forwardVisit in He'.
    destruct (kind x); try (apply Hm; exact He');
      (apply inheritanceSet_entries in He';
       destruct He' as [He' | ->]; [apply Hm; exact He' | reflexivity]). }
  apply Hgen. intros e' [].
Qed.

(** X14.  The child lists hold nothing but real children: every element of
    the [childClasses] and [childInterfaces] of an entry is a declaration,
    never a label, that is itself a key of the inheritance map, with an
    entry naming the first entry's key as parent class or parent
    interface. *)
Theorem child_lists_hold_real_children `{Host} (typeMap : gmap string ApiItem)
    (apiPackage parent : ApiItem) (parentRefs : Refs) (r : ItemOrString) :
  In (parent, parentRefs) (_generateClassHierarchy typeMap apiPackage) ->
  In r (childClasses parentRefs ++ childInterfaces parentRefs) ->
  exists child entry q,
    r = Item child /\
    In (child, entry) (_generateClassHierarchy typeMap apiPackage) /\
    same parent q = true /\ In (Item q) (parentsOf entry).
Proof.
  intros Hin Hr.
  pose proof (generateClassHierarchy_stable typeMap apiPackage) as Hst.
  assert (Hsound : ChildrenSound (forwardMap typeMap apiPackage)
                     (_generateClassHierarchy typeMap apiPackage)).
  { rewrite generateClassHierarchy_fold. apply fold_reverseStep_sound.
    - intros e He. exact He.
    - intros p refs r' Hp Hr'.
      pose proof (forwardMap_no_children typeMap apiPackage (p, refs) Hp) as Hno.
      simpl in Hno. rewrite Hno in Hr'. contradiction. }
  destruct (Hsound parent parentRefs r Hin Hr) as (c & entry & q & -> & He & Hs & Hq).
  destruct (Stable_forward_entry _ _ _ _ Hst He) as (refs & Hrefs & Hpar).
  exists c, refs, q. repeat split; [exact Hrefs | exact Hs |].
  rewrite Hpar. exact Hq.
Qed.

Lemma child_lists_hold_real_children_witness :
  let base := Sample.topLevel Sample.family Sample.base in
  let derived := Sample.topLevel Sample.family Sample.derived in
  exists child entry q,
    Item derived = Item child /\
    In (child, entry)
       (@_generateClassHierarchy Sample.host (Sample.typeMapOf Sample.family)
          (Sample.apiPackage Sample.family)) /\
    same base q = true /\ In (Item q) (parentsOf entry).
Proof.
  cbv zeta.
  apply (@child_lists_hold_real_children Sample.host
           (Sample.typeMapOf Sample.family) (Sample.apiPackage Sample.family)
           (Sample.topLevel Sample.family Sample.base)
           {| parentClass := None; childClasses := []; parentInterfaces := [];
              childInterfaces :=
                [Item (Sample.topLevel Sample.family Sample.derived)] |}
           (Item (Sample.topLevel Sample.family Sample.derived))).
  - vm_compute. left. reflexivity.
  - vm_compute. left. reflexivity.
Defined.

Lemma inheritanceGet_set_other (k p : ApiItem) (v : Refs) (m : InheritanceMap) :
  same k p = false ->
  inheritanceGet p (inheritanceSet k v m) = inheritanceGet p m.
Proof.
  intros Hkp. unfold inheritanceGet, inheritanceSet.
  induction m as [| [k' v'] m IH]; simpl.
  - rewrite Hkp. reflexivity.
  - destruct (same k' k) eqn:E; simpl.
    + destruct (same k' p) eqn:Ep; [| reflexivity].
      rewrite same_sym in E. rewrite (same_trans k k' p E Ep) in Hkp.
      discriminate.
    + destruct (same k' p); [reflexivity | exact IH].
Qed.

Lemma forwardVisit_other `{Host} (typeMap : gmap string ApiItem)
    (m : InheritanceMap) (y x : ApiItem) :
  same y x = false ->
  inheritanceGet x (forwardVisit typeMap m y) = inheritanceGet x m.
Proof.
  intros Hyx. unfold forwardVisit.
  destruct (kind y); try reflexivity; apply inheritanceGet_set_other, Hyx.
Qed.

(** What the first loop records for [x] stays in place while the loop
    visits other declarations. *)
Lemma forward_fold_records `{Host} (typeMap : gmap string ApiItem) (x : ApiItem)
    (l : list ApiItem) :
  kind x = ApiItemKind.Class \/ kind x = ApiItemKind.Interface ->
  (forall y, In y l -> same y x = true -> y = x) ->
  forall m,
    In x l \/
    inheritanceGet x m = inheritanceGet x (forwardVisit typeMap [] x) ->
    inheritanceGet x (fold_left (forwardVisit typeMap) l m)
    = inheritanceGet x (forwardVisit typeMap [] x).
Proof.
  intros Hkind.
  assert (Hvisit : forall m,
            inheritanceGet x (forwardVisit typeMap m x)
            = inheritanceGet x (forwardVisit typeMap [] x)).
  { intros m. unfold forwardVisit.
    destruct Hkind as [-> | ->]; rewrite !inheritanceGet_set_same; reflexivity. }
  induction l as [| y l IH]; intros Huniq m Hm.
  - destruct Hm as [[] | Hm]. exact Hm.
  - cbn [fold_left]. apply IH.
    { intros z Hz. apply Huniq. right. exact Hz. }
    destruct (same y x) eqn:Eyx.
    + assert (y = x) by (apply Huniq; [left; reflexivity | exact Eyx]).
      subst y. right. apply Hvisit.
    + destruct Hm as [[-> | Hin] | Hm].
      * rewrite same_refl in Eyx. discriminate.
      * left. exact Hin.
      * right. rewrite forwardVisit_other by exact Eyx. exact Hm.
Qed.

Lemma Stable_get (forward current : InheritanceMap) (k : ApiItem) (entry : Refs) :
  Stable forward current ->
  inheritanceGet k forward = Some entry ->
  exists refs,
    inheritanceGet k current = Some refs /\
    parentClass refs = parentClass entry /\
    parentInterfaces refs = parentInterfaces entry.
Proof.
  intros (kept & added & -> & Hkept & Hadded). unfold inheritanceGet.
  induction Hkept as [| [k0 r0] [k1 r1] forward kept Hhead Hkept IH];
    [discriminate |].
  destruct Hhead as (Hk & Hp & Hi). simpl in Hk, Hp, Hi. subst k1.
  simpl. destruct (same k0 k).
  - intros [= <-]. exists r1. auto.
  - exact IH.
Qed.

(** X15.  The parents recorded for a class or an interface are those of
    its own clauses: when no other declaration of the package is the same
    object, the entry of a class holds what its [extends] clause resolves
    to as parent class and what its [implements] clauses resolve to as
    parent interfaces; the entry of an interface holds no parent class
    and what its [extends] clauses resolve to. *)
Theorem entry_records_own_heritage_clauses `{Host}
    (typeMap : gmap string ApiItem) (apiPackage x : ApiItem) :
  Below apiPackage x ->
  (forall y, Below apiPackage y -> same y x = true -> y = x) ->
  kind x = ApiItemKind.Class \/ kind x = ApiItemKind.Interface ->
  exists refs,
    inheritanceGet x (_generateClassHierarchy typeMap apiPackage) = Some refs /\
    parentClass refs
    = (if ApiItemKind.eqb (kind x) ApiItemKind.Class
       then match extendsType x with
            | Some parentClassText => _extractBaseType typeMap x parentClassText
            | None => None
            end
       else None) /\
    parentInterfaces refs
    = resolveInterfaces typeMap x
        (if ApiItemKind.eqb (kind x) ApiItemKind.Class
         then implementsTypes x else extendsTypes x).
Proof.
  intros Hx Huniq Hkind.
  assert (Hforward : inheritanceGet x (forwardMap typeMap apiPackage)
                     = inheritanceGet x (forwardVisit typeMap [] x)).
  { unfold forwardMap. rewrite visitBreadthFirst_order.
    apply forward_fold_records; [exact Hkind | |].
    - intros y Hy. apply Huniq, visitOrder_package, Hy.
    - left. apply visitOrder_package, Hx. }
  pose proof (generateClassHierarchy_stable typeMap apiPackage) as Hst.
  unfold forwardVisit in Hforward.
  destruct Hkind as [Ek | Ek]; rewrite Ek in *;
    rewrite inheritanceGet_set_same in Hforward;
    destruct (Stable_get _ _ _ _ Hst Hforward) as (refs & Hget & Hp & Hi);
    exists refs; (split; [exact Hget |]); split; assumption.
Qed.

Lemma entry_records_own_heritage_clauses_witness :
  let dog := Sample.topLevel Sample.zoo Sample.dog in
  exists refs,
    inheritanceGet dog
      (@_generateClassHierarchy Sample.host (Sample.typeMapOf Sample.zoo)
         (Sample.apiPackage Sample.zoo)) = Some refs /\
    parentClass refs
    = (if ApiItemKind.eqb (kind dog) ApiItemKind.Class
       then match extendsType dog with
            | Some parentClassText =>
                @_extractBaseType Sample.host (Sample.typeMapOf Sample.zoo) dog
                  parentClassText
            | None => None
            end
       else None) /\
    parentInterfaces refs
    = @resolveInterfaces Sample.host (Sample.typeMapOf Sample.zoo) dog
        (if ApiItemKind.eqb (kind dog) ApiItemKind.Class
         then implementsTypes dog else extendsTypes dog).
Proof.
  cbv zeta.
  apply (@entry_records_own_heritage_clauses Sample.host
           (Sample.typeMapOf Sample.zoo) (Sample.apiPackage Sample.zoo)
           (Sample.topLevel Sample.zoo Sample.dog)).
  - apply (Below_step _
             {| ancestors := [Sample.packageOf Sample.zoo; Sample.modelOf Sample.zoo];
                self := Sample.entryPointOf Sample.zoo |}).
    + apply Below_member. simpl. left. reflexivity.
    + simpl. right. left. reflexivity.
  - intros y Hy Hsame.
    apply visitOrder_package in Hy. vm_compute in Hy.
    repeat (destruct Hy as [<- | Hy]; [first [reflexivity | discriminate] |]).
    contradiction.
  - left. reflexivity.
Defined.


(** ** Prettified code blocks *)

Lemma inked_app (a b : string) : inked (a +:+ b) = inked a ++ inked b.
Proof. unfold inked. rewrite chars_app, List.filter_app. reflexivity. Qed.

Lemma inked_dropWhile (s : string) : inked (Text.dropWhile Js.isSpace s) = inked s.
Proof.
  induction s as [| c s IH]; [reflexivity |]. simpl.
  destruct (Js.isSpace c) eqn:E; [| reflexivity].
  rewrite IH. unfold inked. simpl. rewrite E. reflexivity.
Qed.

Lemma filter_rev_list {A : Type} (f : A -> bool) (l : list A) :
  List.filter f (rev l) = rev (List.filter f l).
Proof.
  induction l as [| x l IH]; [reflexivity |]. simpl.
  rewrite List.filter_app, IH. simpl.
  destruct (f x); simpl; [reflexivity | apply app_nil_r].
Qed.

Lemma inked_reverse (s : string) : inked (Text.reverse s) = rev (inked s).
Proof.
  unfold inked, Text.reverse.
  rewrite list_ascii_of_string_of_list_ascii. apply filter_rev_list.
Qed.

Lemma inked_trim (s : string) : inked (trim s) = inked s.
Proof.
  unfold trim, trimLeft.
  rewrite inked_reverse, inked_dropWhile, inked_reverse, rev_involutive.
  apply inked_dropWhile.
Qed.

Lemma dropWhile_length (p : ascii -> bool) (s : string) :
  String.length (Text.dropWhile p s) <= String.length s.
Proof.
  induction s as [| c s IH]; simpl; [lia |].
  destruct (p c); simpl; lia.
Qed.

Lemma indentOf_cons (c : ascii) (s : string) :
  indentOf (String c s) = if Js.isSpace c then S (indentOf s) else 0.
Proof.
  unfold indentOf, trimLeft. simpl.
  pose proof (dropWhile_length Js.isSpace s).
  destruct (Js.isSpace c); simpl; lia.
Qed.

Lemma inked_substringFrom (start : nat) :
  forall part, start <= indentOf part -> inked (substringFrom start part) = inked part.
Proof.
  induction start as [| k IH]; intros part Hle; [reflexivity |].
  destruct part as [| c part]; [reflexivity |].
  rewrite indentOf_cons in Hle. cbn [substringFrom].
  destruct (Js.isSpace c) eqn:E; [| lia].
  rewrite IH by lia. unfold inked. simpl. rewrite E. reflexivity.
Qed.

Lemma sharedIndent_fold (others : list string) :
  forall acc,
    exists indent,
      fold_left
        (fun acc val =>
           Some (match acc with
                 | Some a => Nat.min a (indentOf val)
                 | None => indentOf val
                 end))
        others (Some acc) = Some indent /\
      indent <= acc /\
      Forall (fun part => indent <= indentOf part) others /\
      (indent = acc \/ Exists (fun part => indentOf part = indent) others).
Proof.
  induction others as [| val others IH]; intros acc; simpl.
  - exists acc. repeat split; [lia | constructor | left; reflexivity].
  - destruct (IH (Nat.min acc (indentOf val))) as (indent & E & Hle & Hall & Hex).
    exists indent. split; [exact E |]. split; [lia |]. split.
    + constructor; [lia | exact Hall].
    + destruct Hex as [-> | Hex].
      * destruct (Nat.min_dec acc (indentOf val)) as [Hm | Hm]; rewrite Hm.
        -- left. reflexivity.
        -- right. constructor. reflexivity.
      * right. apply Exists_cons_tl, Hex.
Qed.

(** The shared indent of a non-empty list of lines is the least of their
    indents. *)
Lemma sharedIndent_least (val : string) (others : list string) :
  exists indent,
    sharedIndent (val :: others) = Some indent /\
    Forall (fun part => indent <= indentOf part) (val :: others) /\
    Exists (fun part => indentOf part = indent) (val :: others).
Proof.
  unfold sharedIndent. cbn [fold_left].
  destruct (sharedIndent_fold others (indentOf val))
    as (indent & E & Hle & Hall & Hex).
  exists indent. split; [exact E |]. split.
  - constructor; assumption.
  - destruct Hex as [-> | Hex]; [constructor; reflexivity |].
    apply Exists_cons_tl, Hex.
Qed.

Lemma inked_join_lines (parts : list string) :
  inked (Js.join Text.nl parts) = concat (map inked parts).
Proof.
  induction parts as [| x parts IH]; [reflexivity |].
  destruct parts as [| y parts].
  - simpl. symmetry. apply app_nil_r.
  - change (Js.join Text.nl (x :: y :: parts))
      with (x +:+ Text.nl +:+ Js.join Text.nl (y :: parts)).
    rewrite !inked_app, IH. reflexivity.
Qed.

Lemma inked_dropLastCR (p : string) : inked (Text.dropLastCR p) = inked p.
Proof.
  induction p as [| c p IH]; [reflexivity |].
  destruct p as [| d p].
  - simpl. destruct (Js.code c =? 13)%nat eqn:E; [| reflexivity].
    apply Nat.eqb_eq in E. unfold inked. simpl.
    unfold Js.isSpace. rewrite E. reflexivity.
  - rewrite dropLastCR_cons. unfold inked in *.
    cbn [list_ascii_of_string List.filter]. rewrite IH. reflexivity.
Qed.

Lemma inked_mapInit (parts : list string) :
  concat (map inked (Text.mapInit Text.dropLastCR parts))
  = concat (map inked parts).
Proof.
  induction parts as [| x parts IH]; [reflexivity |].
  destruct parts as [| y parts]; [reflexivity |].
  change (Text.mapInit Text.dropLastCR (x :: y :: parts))
    with (Text.dropLastCR x :: Text.mapInit Text.dropLastCR (y :: parts)).
  cbn [map concat]. rewrite IH, inked_dropLastCR. reflexivity.
Qed.

Lemma inked_cons (c : ascii) (s : string) :
  inked (String c s) = if Js.isSpace c then inked s else c :: inked s.
Proof. unfold inked. simpl. destruct (Js.isSpace c); reflexivity. Qed.

Lemma inked_splitOn (s : string) :
  concat (map inked (Js.splitOn (ascii_of_nat 10) s)) = inked s.
Proof.
  induction s as [| c s IH]; [reflexivity |]. simpl.
  destruct (splitOn_cons (ascii_of_nat 10) s) as (x & rest & E).
  rewrite E in *. cbn [map concat] in IH.
  destruct (Ascii.eqb c (ascii_of_nat 10)) eqn:Ec.
  - apply Ascii.eqb_eq in Ec. subst c. cbn [map concat].
    rewrite IH. reflexivity.
  - cbn [map concat]. rewrite !inked_cons, <- IH.
    destruct (Js.isSpace c); reflexivity.
Qed.

Lemma inked_splitLines (code : string) :
  concat (map inked (Text.splitLines code)) = inked code.
Proof. unfold Text.splitLines. rewrite inked_mapInit. apply inked_splitOn. Qed.

(** X16.  Prettifying a code block removes white space only: the
    characters of the result that are not white space are those of the
    code, in the same order. *)
Theorem prettified_code_keeps_every_inked_character (code : string) :
  inked (_prettifyCodeBlock code) = inked code.
Proof.
  unfold _prettifyCodeBlock.
  pose proof (inked_splitLines code) as Hparts.
  destruct (Text.splitLines code) as [| firstPart [| val others]].
  - apply inked_trim.
  - apply inked_trim.
  - rewrite inked_join_lines, <- Hparts.
    destruct (sharedIndent_least val others) as (indent & -> & Hall & _).
    change (concat (map inked (firstPart :: ?l))) with (inked firstPart ++ concat (map inked l)).
    f_equal. rewrite map_map. f_equal. apply map_ext_in. intros part Hpart.
    apply inked_substringFrom.
    rewrite Forall_forall in Hall. apply Hall, list_elem_of_In, Hpart.
Qed.

Lemma reverse_involutive (s : string) : Text.reverse (Text.reverse s) = s.
Proof.
  unfold Text.reverse.
  rewrite list_ascii_of_string_of_list_ascii, rev_involutive.
  apply string_of_list_ascii_of_string.
Qed.

Lemma string_of_list_app (a b : list ascii) :
  string_of_list_ascii (a ++ b) = string_of_list_ascii a +:+ string_of_list_ascii b.
Proof. induction a as [| c a IH]; simpl; [reflexivity | rewrite IH; reflexivity]. Qed.

Lemma reverse_app (a b : string) :
  Text.reverse (a +:+ b) = Text.reverse b +:+ Text.reverse a.
Proof.
  unfold Text.reverse. rewrite chars_app, rev_app_distr. apply string_of_list_app.
Qed.

Lemma takeWhile_dropWhile (p : ascii -> bool) (s : string) :
  Text.takeWhile p s +:+ Text.dropWhile p s = s.
Proof.
  induction s as [| c s IH]; [reflexivity |]. simpl.
  destruct (p c); simpl; [rewrite IH |]; reflexivity.
Qed.

Lemma dropWhile_head (p : ascii -> bool) (s : string) (c : ascii) (r : string) :
  Text.dropWhile p s = String c r -> p c = false.
Proof.
  induction s as [| d s IH]; simpl; [discriminate |].
  destruct (p d) eqn:E; [exact IH |]. intros [= <- _]. exact E.
Qed.

Lemma dropWhile_fixed (p : ascii -> bool) (s : string) :
  match s with String c _ => p c = false | EmptyString => True end ->
  Text.dropWhile p s = s.
Proof. destruct s as [| c s]; [reflexivity |]. simpl. intros ->. reflexivity. Qed.

Lemma dropWhile_idempotent (p : ascii -> bool) (s : string) :
  Text.dropWhile p (Text.dropWhile p s) = Text.dropWhile p s.
Proof.
  apply dropWhile_fixed. destruct (Text.dropWhile p s) as [| c r] eqn:E;
    [exact I | eapply dropWhile_head, E].
Qed.

Lemma trim_idempotent (s : string) : trim (trim s) = trim s.
Proof.
  unfold trim, trimLeft.
  set (u := Text.dropWhile Js.isSpace s).
  set (w := Text.dropWhile Js.isSpace (Text.reverse u)).
  assert (Hfix : Text.dropWhile Js.isSpace (Text.reverse w) = Text.reverse w).
  { apply dropWhile_fixed.
    destruct (Text.reverse w) as [| c r] eqn:E; [exact I |].
    pose proof (takeWhile_dropWhile Js.isSpace (Text.reverse u)) as Hsplit.
    fold w in Hsplit. apply (f_equal Text.reverse) in Hsplit.
    rewrite reverse_app, reverse_involutive, E in Hsplit.
    eapply (dropWhile_head Js.isSpace s). fold u. rewrite <- Hsplit.
    reflexivity. }
  rewrite Hfix, reverse_involutive. unfold w.
  rewrite dropWhile_idempotent. reflexivity.
Qed.

Lemma splitOn_free (sep : ascii) (s : string) :
  existsb (Ascii.eqb sep) (list_ascii_of_string s) = false ->
  Js.splitOn sep s = [s].
Proof.
  induction s as [| c s IH]; [reflexivity |]. simpl. intros H.
  apply orb_false_elim in H. destruct H as [Hc Hs].
  rewrite Ascii.eqb_sym, Hc, (IH Hs). reflexivity.
Qed.

Lemma splitOn_app_sep (sep : ascii) (a b : string) :
  Js.splitOn sep (a +:+ String sep b) = Js.splitOn sep a ++ Js.splitOn sep b.
Proof.
  induction a as [| c a IH]; simpl.
  - rewrite Ascii.eqb_refl. reflexivity.
  - destruct (Ascii.eqb c sep); simpl; rewrite IH; [reflexivity |].
    destruct (splitOn_cons sep a) as (x & rest & ->). reflexivity.
Qed.

Lemma splitOn_join_sep (sep : ascii) (parts : list string) :
  parts <> [] ->
  Forall (fun p => existsb (Ascii.eqb sep) (list_ascii_of_string p) = false)
         parts ->
  Js.splitOn sep (Js.join (String sep "") parts) = parts.
Proof.
  induction parts as [| x parts IH]; intros Hne Hfree; [contradiction |].
  inversion Hfree as [| ? ? Hx Hrest]; subst.
  destruct parts as [| y parts].
  - apply splitOn_free, Hx.
  - change (Js.join (String sep "") (x :: y :: parts))
      with (x +:+ String sep (Js.join (String sep "") (y :: parts))).
    rewrite splitOn_app_sep, (splitOn_free sep x Hx), IH;
      [reflexivity | discriminate | exact Hrest].
Qed.

Lemma dropLastCR_free (p : string) :
  hasCarriageReturn p = false -> Text.dropLastCR p = p.
Proof.
  unfold hasCarriageReturn. induction p as [| c p IH]; [reflexivity |].
  cbn [list_ascii_of_string existsb]. intros H.
  apply orb_false_elim in H. destruct H as [Hc Hp].
  destruct p as [| d p].
  - simpl. rewrite Hc. reflexivity.
  - rewrite dropLastCR_cons, (IH Hp). reflexivity.
Qed.

Lemma mapInit_fixed {A : Type} (f : A -> A) (l : list A) :
  Forall (fun x => f x = x) l -> Text.mapInit f l = l.
Proof.
  induction 1 as [| x l Hx Hl IH]; [reflexivity |].
  destruct l as [| y l]; [reflexivity |].
  change (Text.mapInit f (x :: y :: l)) with (f x :: Text.mapInit f (y :: l)).
  rewrite Hx, IH. reflexivity.
Qed.

Lemma existsb_substringFrom (q : ascii -> bool) (start : nat) :
  forall s, existsb q (list_ascii_of_string s) = false ->
            existsb q (list_ascii_of_string (substringFrom start s)) = false.
Proof.
  induction start as [| k IH]; intros s H; [exact H |].
  destruct s as [| c s]; [reflexivity |]. cbn [substringFrom].
  apply IH. simpl in H. apply orb_false_elim in H. tauto.
Qed.

Lemma existsb_dropWhile (q p : ascii -> bool) (s : string) :
  existsb q (list_ascii_of_string s) = false ->
  existsb q (list_ascii_of_string (Text.dropWhile p s)) = false.
Proof.
  induction s as [| c s IH]; intros H; [reflexivity |]. simpl.
  destruct (p c); [| exact H].
  apply IH. simpl in H. apply orb_false_elim in H. tauto.
Qed.

Lemma existsb_rev_list {A : Type} (q : A -> bool) (l : list A) :
  existsb q (rev l) = existsb q l.
Proof.
  induction l as [| x l IH]; [reflexivity |]. simpl.
  rewrite existsb_app, IH. simpl. rewrite orb_false_r. apply orb_comm.
Qed.

Lemma existsb_reverse (q : ascii -> bool) (s : string) :
  existsb q (list_ascii_of_string (Text.reverse s))
  = existsb q (list_ascii_of_string s).
Proof.
  unfold Text.reverse. rewrite list_ascii_of_string_of_list_ascii.
  apply existsb_rev_list.
Qed.

Lemma existsb_trim (q : ascii -> bool) (s : string) :
  existsb q (list_ascii_of_string s) = false ->
  existsb q (list_ascii_of_string (trim s)) = false.
Proof.
  intros H. unfold trim, trimLeft. rewrite existsb_reverse.
  apply existsb_dropWhile. rewrite existsb_reverse.
  apply existsb_dropWhile, H.
Qed.

Lemma existsb_splitOn (q : ascii -> bool) (sep : ascii) (s : string) :
  existsb q (list_ascii_of_string s) = false ->
  Forall (fun p => existsb q (list_ascii_of_string p) = false) (Js.splitOn sep s).
Proof.
  induction s as [| c s IH]; intros H; simpl; [repeat constructor |].
  simpl in H. apply orb_false_elim in H. destruct H as [Hc Hs].
  specialize (IH Hs).
  destruct (splitOn_cons sep s) as (x & rest & E). rewrite E in *.
  inversion IH as [| ? ? Hx Hrest]; subst.
  destruct (Ascii.eqb c sep).
  - constructor; [reflexivity | exact IH].
  - constructor; [| exact Hrest]. simpl. rewrite Hc. exact Hx.
Qed.

Lemma indentOf_substringFrom (start : nat) :
  forall part, start <= indentOf part ->
               indentOf (substringFrom start part) = indentOf part - start.
Proof.
  induction start as [| k IH]; intros part Hle; [cbn [substringFrom]; lia |].
  destruct part as [| c part]; [reflexivity |].
  rewrite indentOf_cons in *. cbn [substringFrom].
  destruct (Js.isSpace c); [| lia]. rewrite IH by lia. lia.
Qed.

Lemma substringFrom_zero (l : list string) : map (substringFrom 0) l = l.
Proof.
  induction l as [| x l IH]; [reflexivity |].
  cbn [map]. rewrite IH. reflexivity.
Qed.

Lemma splitLines_free (code : string) :
  hasCarriageReturn code = false ->
  Text.splitLines code = Js.splitOn (ascii_of_nat 10) code.
Proof.
  intros H. unfold Text.splitLines. apply mapInit_fixed.
  eapply Forall_impl; [apply existsb_splitOn, H |].
  intros p. apply dropLastCR_free.
Qed.

(** X17.  Prettifying twice is prettifying once, for code without
    carriage returns: a single line is already trimmed, and the lines of a
    block have lost the indent they shared. *)
Theorem prettified_code_is_stable (code : string) :
  hasCarriageReturn code = false ->
  _prettifyCodeBlock (_prettifyCodeBlock code) = _prettifyCodeBlock code.
Proof.
  intros Hcr. unfold _prettifyCodeBlock at 2 3.
  rewrite (splitLines_free code Hcr).
  pose proof (splitOn_parts_free (ascii_of_nat 10) code) as Hlf.
  pose proof (existsb_splitOn (fun c => (Js.code c =? 13)%nat) (ascii_of_nat 10)
                code Hcr) as Hno.
  destruct (Js.splitOn (ascii_of_nat 10) code) as [| firstPart [| val others]] eqn:E.
  - destruct (splitOn_cons (ascii_of_nat 10) code) as (x & rest & E').
    congruence.
  - assert (Hline : hasLineFeed code = false).
    { apply splitOn_single. rewrite E. simpl. lia. }
    unfold _prettifyCodeBlock.
    rewrite (splitLines_free (trim code)) by (apply existsb_trim, Hcr).
    rewrite splitOn_free by (apply existsb_trim, Hline).
    apply trim_idempotent.
  - destruct (sharedIndent_least val others) as (indent & Ei & Hall & Hex).
    rewrite Ei.
    set (shifted := map (substringFrom indent) (val :: others)).
    assert (Hshift_lf :
              Forall (fun p => existsb (Ascii.eqb (ascii_of_nat 10))
                                       (list_ascii_of_string p) = false)
                     (firstPart :: shifted)).
    { inversion Hlf as [| ? ? Hf Hrest]; subst. constructor; [exact Hf |].
      unfold shifted. apply Forall_map.
      eapply Forall_impl; [exact Hrest |]. intros p. apply existsb_substringFrom. }
    assert (Hshift_cr :
              Forall (fun p => hasCarriageReturn p = false) (firstPart :: shifted)).
    { inversion Hno as [| ? ? Hf Hrest]; subst. constructor; [exact Hf |].
      unfold shifted. apply Forall_map.
      eapply Forall_impl; [exact Hrest |]. intros p. apply existsb_substringFrom. }
    unfold _prettifyCodeBlock, Text.splitLines.
    change Text.nl with (String (ascii_of_nat 10) "").
    rewrite splitOn_join_sep by (try discriminate; exact Hshift_lf).
    rewrite mapInit_fixed
      by (eapply Forall_impl; [exact Hshift_cr | intros p; apply dropLastCR_free]).
    unfold shifted at 1. cbn [map].
    fold (map (substringFrom indent) (val :: others)). fold shifted.
    destruct (sharedIndent_least (substringFrom indent val)
                (map (substringFrom indent) others))
      as (indent' & Ei' & Hall' & Hex').
    change (substringFrom indent val :: map (substringFrom indent) others)
      with shifted in Ei', Hall', Hex'.
    assert (indent' = 0).
    { apply Exists_exists in Hex. destruct Hex as (p & Hp & Hpi).
      rewrite Forall_forall in Hall'.
      assert (Hin : substringFrom indent p ∈ shifted).
      { unfold shifted. apply list_elem_of_fmap. exists p. split; [reflexivity |].
        exact Hp. }
      specialize (Hall' _ Hin).
      rewrite indentOf_substringFrom in Hall' by lia. lia. }
    subst indent'. rewrite Ei'.
    replace (map (fun part => substringFrom 0 part) shifted) with shifted
      by (symmetry; apply substringFrom_zero).
    reflexivity.
Qed.

Lemma prettified_code_is_stable_witness :
  let code := "Map<" +:+ Text.nl +:+ "    string," +:+ Text.nl +:+ "    number"
              +:+ Text.nl +:+ "  >" in
  _prettifyCodeBlock (_prettifyCodeBlock code) = _prettifyCodeBlock code /\
  _prettifyCodeBlock code
  = "Map<" +:+ Text.nl +:+ "  string," +:+ Text.nl +:+ "  number" +:+ Text.nl +:+ ">".
Proof.
  cbv zeta. split; [| vm_compute; reflexivity].
  apply (prettified_code_is_stable
           ("Map<" +:+ Text.nl +:+ "    string," +:+ Text.nl +:+ "    number"
            +:+ Text.nl +:+ "  >")).
  vm_compute. reflexivity.
Defined.


(** ** Plain text *)

Lemma takeWhile_all (p : ascii -> bool) (s : string) :
  forallb p (list_ascii_of_string (Text.takeWhile p s)) = true.
Proof.
  induction s as [| c s IH]; [reflexivity |]. simpl.
  destruct (p c) eqn:E; [| reflexivity]. simpl. rewrite E, IH. reflexivity.
Qed.

Lemma forallb_rev_list {A : Type} (q : A -> bool) (l : list A) :
  forallb q (rev l) = forallb q l.
Proof.
  induction l as [| x l IH]; [reflexivity |]. simpl.
  rewrite forallb_app, IH. simpl. rewrite andb_true_r. apply andb_comm.
Qed.

Lemma forallb_reverse (q : ascii -> bool) (s : string) :
  forallb q (list_ascii_of_string (Text.reverse s))
  = forallb q (list_ascii_of_string s).
Proof.
  unfold Text.reverse. rewrite list_ascii_of_string_of_list_ascii.
  apply forallb_rev_list.
Qed.

(** The three groups of the regular expression of [writePlainText]. *)
Lemma splitPlainText_parts (text : string) :
  let leading := Text.takeWhile Js.isSpace text in
  let trailing :=
    Text.reverse (Text.takeWhile Js.isSpace (Text.reverse (trimLeft text))) in
  Text.splitPlainText text
  = (if existsb Js.isLineTerminator (list_ascii_of_string (trim text))
     then None else Some (leading, trim text, trailing)) /\
  leading +:+ trim text +:+ trailing = text /\
  forallb Js.isSpace (list_ascii_of_string leading) = true /\
  forallb Js.isSpace (list_ascii_of_string trailing) = true.
Proof.
  cbv zeta. split; [reflexivity |]. split; [| split].
  - unfold trim. rewrite <- reverse_app, takeWhile_dropWhile, reverse_involutive.
    apply takeWhile_dropWhile.
  - apply takeWhile_all.
  - rewrite forallb_reverse. apply takeWhile_all.
Qed.

(** X18.  Plain text is written whole or not at all: when the trimmed text
    holds a line terminator [writePlainText] throws; otherwise it returns,
    and what it splits the text into, leading white space, the trimmed text
    and trailing white space, gives the text back when put together. *)
Theorem plain_text_is_written_whole_or_not_at_all (text : string)
    (context : Emitter.Context) :
  if existsb Js.isLineTerminator (list_ascii_of_string (trim text))
  then Emitter.writePlainText text context = Emitter.Throw "TypeError"
  else exists leading trailing context',
         Text.splitPlainText text = Some (leading, trim text, trailing) /\
         leading +:+ trim text +:+ trailing = text /\
         forallb Js.isSpace (list_ascii_of_string leading) = true /\
         forallb Js.isSpace (list_ascii_of_string trailing) = true /\
         Emitter.writePlainText text context = Emitter.Ok context'.
Proof.
  destruct (splitPlainText_parts text) as (Hsplit & Hwhole & Hlead & Htrail).
  unfold Emitter.writePlainText. rewrite Hsplit.
  destruct (existsb Js.isLineTerminator (list_ascii_of_string (trim text)));
    [reflexivity |].
  eexists _, _, _. repeat split; try eassumption.
Qed.

(** ** Headings *)

(** X19.  A heading that can be built has a level from 1 to 5, and the
    emitter gives it as many [#] as its level, but never more than four:
    levels 4 and 5 are written alike. *)
Theorem heading_prefix_follows_level (title : string) (level : option Z)
    (node : DocNode) :
  newDocHeading title level = Emitter.Ok node ->
  exists l,
    node = Heading title l /\ 1 <= l <= 5 /\
    Emitter.headingPrefix l = Js.repeat "#" (Nat.min l 4).
Proof.
  unfold newDocHeading.
  set (z := match level with Some l => l | None => 1%Z end).
  destruct ((z <? 1)%Z || (z >? 5)%Z) eqn:E; [discriminate |].
  intros [= <-]. apply orb_false_elim in E. destruct E as [E1 E2].
  apply Z.ltb_ge in E1. rewrite Z.gtb_ltb in E2. apply Z.ltb_ge in E2.
  exists (Z.to_nat z). split; [reflexivity |]. split; [lia |].
  assert (Hz : Z.to_nat z = 1 \/ Z.to_nat z = 2 \/ Z.to_nat z = 3 \/
               Z.to_nat z = 4 \/ Z.to_nat z = 5) by lia.
  destruct Hz as [-> | [-> | [-> | [-> | ->]]]]; reflexivity.
Qed.

Lemma heading_prefix_follows_level_witness :
  exists l,
    Heading "Parameters" 5 = Heading "Parameters" l /\ 1 <= l <= 5 /\
    Emitter.headingPrefix l = Js.repeat "#" (Nat.min l 4).
Proof.
  apply (heading_prefix_follows_level "Parameters" (Some 5%Z)
           (Heading "Parameters" 5)).
  reflexivity.
Defined.

(** ** The merge loop *)

Lemma Merged_chains `{Host} (own : list ApiItem) (inh : list Inherited)
    (r : list ResolvedMember) :
  Merged own inh r ->
  Forall (fun i => chain i <> []) inh ->
  attachedChains r = map chain inh.
Proof.
  unfold attachedChains.
  induction 1 as [| i inh r Hm IH | o own r Hm IH | o own i inh r Hc Hm IH
                  | o own i inh r Hc Hm IH | o own i inh r Hc Hm IH];
    intros Hne; cbn [map List.filter parents inheritedEntry ownEntry bothEntry].
  - reflexivity.
  - inversion Hne as [| ? ? Hi Hrest]; subst. rewrite (IH Hrest).
    destruct (chain i); [contradiction | reflexivity].
  - apply IH, Hne.
  - inversion Hne as [| ? ? Hi Hrest]; subst. rewrite (IH Hrest).
    destruct (chain i); [contradiction | reflexivity].
  - apply IH, Hne.
  - inversion Hne as [| ? ? Hi Hrest]; subst. rewrite (IH Hrest).
    destruct (chain i); [contradiction | reflexivity].
Qed.

(** X20.  The merge loop loses nothing, whatever the collation: every own
    member gets exactly one entry, in the order of the sorted own members,
    and every chain of inherited members is attached to exactly one entry,
    in the order of the sorted inherited names. *)
Theorem merge_keeps_every_member_and_chain `{Host} (ownMembers : list ApiItem)
    (inheritedMembers : list Inherited) :
  Forall (fun i => chain i <> []) inheritedMembers ->
  omap ownMember (mergeMembers ownMembers inheritedMembers) = ownMembers /\
  attachedChains (mergeMembers ownMembers inheritedMembers)
  = map chain inheritedMembers.
Proof.
  intros Hne.
  pose proof (mergeMembers_Merged ownMembers inheritedMembers) as Hm.
  split; [apply (Merged_own_members _ _ _ Hm) | apply (Merged_chains _ _ _ Hm Hne)].
Qed.

(** ** Links to the members of a page *)

Lemma join_splitOn (s : string) : Js.join "/" (Js.splitOn "/" s) = s.
Proof.
  induction s as [| c s IH]; [reflexivity |]. simpl.
  destruct (splitOn_cons "/" s) as (x & rest & E). rewrite E in *.
  destruct (Ascii.eqb c "/") eqn:Ec.
  - apply Ascii.eqb_eq in Ec. subst c.
    change (Js.join "/" ("" :: x :: rest)) with ("" +:+ "/" +:+ Js.join "/" (x :: rest)).
    rewrite IH. reflexivity.
  - destruct rest as [| y rest].
    + simpl in *. rewrite IH. reflexivity.
    + change (Js.join "/" (String c x :: y :: rest))
        with (String c (x +:+ "/" +:+ Js.join "/" (y :: rest))).
      change (Js.join "/" (x :: y :: rest))
        with (x +:+ "/" +:+ Js.join "/" (y :: rest)) in IH.
      rewrite IH. reflexivity.
Qed.

Lemma splitOn_append_free (t : string) :
  slashFree t ->
  forall (s : string) (init : list string) (lastSeg : string),
    Js.splitOn "/" s = init ++ [lastSeg] ->
    Js.splitOn "/" (s +:+ t) = init ++ [lastSeg +:+ t].
Proof.
  intros Ht. induction s as [| c s IH]; intros init lastSeg E.
  - simpl in E. destruct init as [| i init].
    + injection E as <-. apply splitOn_slashFree, Ht.
    + destruct init; discriminate.
  - change (String c s +:+ t) with (String c (s +:+ t)).
    simpl in E |- *.
    destruct (splitOn_cons "/" s) as (x & rest & Es). rewrite Es in *.
    destruct (Ascii.eqb c "/").
    + destruct init as [| i init]; [destruct rest; discriminate |].
      injection E as <- E. rewrite (IH init lastSeg E). reflexivity.
    + destruct init as [| i init].
      * injection E as <- ->. rewrite (IH [] x eq_refl). reflexivity.
      * injection E as <- ->. rewrite (IH (x :: init) lastSeg eq_refl).
        reflexivity.
Qed.

Lemma dirnameEnd_none (l : list ascii) :
  Forall (fun c => c <> "/"%char) l ->
  forall b, Path.dirnameEnd l b = None.
Proof.
  induction 1 as [| c l Hc Hl IH]; intros b; [reflexivity |]. simpl.
  destruct (Ascii.eqb c "/") eqn:E; [apply Ascii.eqb_eq in E; contradiction |].
  apply IH.
Qed.

Lemma dirnameEnd_scan (l : list ascii) :
  l <> [] -> Forall (fun c => c <> "/"%char) l ->
  forall b rest, Path.dirnameEnd (l ++ "/"%char :: rest) b = Some rest.
Proof.
  intros Hne Hl. induction Hl as [| c l Hc Hl IH]; [contradiction |].
  intros b rest. cbn [app Path.dirnameEnd].
  destruct (Ascii.eqb c "/") eqn:E; [apply Ascii.eqb_eq in E; contradiction |].
  destruct l as [| d l].
  - simpl. reflexivity.
  - apply IH. discriminate.
Qed.

Lemma slashFree_rev (s : string) :
  slashFree s -> Forall (fun c => c <> "/"%char) (rev (list_ascii_of_string s)).
Proof. intros H. apply Forall_rev, H. Qed.

(** [path.dirname] of a path whose segments are kept. *)
Lemma dirname_clean (init : list string) (lastSeg : string) :
  Forall (fun s => keptSegment s /\ slashFree s) (init ++ [lastSeg]) ->
  Path.dirname (Js.join "/" (init ++ [lastSeg]))
  = match init with [] => "." | _ => Js.join "/" init end.
Proof.
  intros Hall. apply Forall_app in Hall. destruct Hall as [Hinit Hlast].
  inversion Hlast as [| ? ? [[Hne _] Hfree] _]; subst.
  destruct init as [| i init].
  - simpl. destruct lastSeg as [| c0 rest]; [contradiction |].
    inversion Hfree as [| ? ? Hc0 Hrest]; subst.
    unfold Path.dirname.
    rewrite dirnameEnd_none by (apply Forall_rev, Hrest).
    destruct (Ascii.eqb c0 "/") eqn:E; [apply Ascii.eqb_eq in E; contradiction |].
    reflexivity.
  - rewrite join_snoc.
    assert (Hhead : exists c0 rest, Js.join "/" (i :: init) = String c0 rest /\
                                    c0 <> "/"%char).
    { inversion Hinit as [| ? ? [[Hi _] Hif] _]; subst.
      destruct i as [| c0 i']; [contradiction |].
      inversion Hif as [| ? ? Hc0 _]; subst.
      destruct init; simpl; eauto. }
    destruct Hhead as (c0 & rest & E & Hc0). rewrite E.
    change (String c0 rest +:+ "/" +:+ lastSeg)
      with (String c0 (rest +:+ String "/" lastSeg)).
    unfold Path.dirname.
    rewrite chars_app. cbn [list_ascii_of_string].
    rewrite rev_app_distr. cbn [rev]. rewrite <- app_assoc. cbn [app].
    rewrite dirnameEnd_scan.
    + destruct (Ascii.eqb c0 "/") eqn:Ec;
        [apply Ascii.eqb_eq in Ec; contradiction |].
      cbn [andb]. rewrite rev_involutive, string_of_list_ascii_of_string.
      reflexivity.
    + destruct lastSeg; [contradiction |]. simpl.
      intros Hnil. apply app_eq_nil in Hnil. destruct Hnil; discriminate.
    + apply Forall_rev, Hfree.
Qed.

Lemma commonPrefix_app (a b : list string) :
  Path.commonPrefix a (a ++ b) = length a.
Proof.
  induction a as [| x a IH]; simpl.
  - destruct b; reflexivity.
  - rewrite String.eqb_refl, IH. reflexivity.
Qed.

Lemma resolveSegs_dot `{Host} : Path.resolveSegs ["."] = Path.resolveSegs [].
Proof.
  rewrite <- (rev_involutive (Path.resolveSegs ["."])).
  rewrite (resolveSegs_one "." eq_refl).
  unfold rooted. change (Path.isAbsolute ".") with false. cbv iota.
  change (cwd +:+ "/" +:+ ".") with (cwd +:+ String "/" ".").
  rewrite splitOn_app, fold_left_app.
  unfold Path.resolveSegs, Path.normalizeAbs. cbn [Path.resolveJoin].
  change (Path.isAbsolute "") with false. cbv iota.
  change (cwd +:+ "/" +:+ "") with (cwd +:+ String "/" "").
  rewrite splitOn_app, fold_left_app. reflexivity.
Qed.

Lemma keptSegment_hash (s a : string) : keptSegment (s +:+ "#" +:+ a).
Proof.
  assert (Hin : In "#"%char (list_ascii_of_string (s +:+ "#" +:+ a))).
  { rewrite chars_app. apply in_or_app. right. left. reflexivity. }
  unfold keptSegment. repeat split; intros E; rewrite E in Hin; simpl in Hin;
    intuition discriminate.
Qed.

Lemma Forall_kept_slashFree (s : string) :
  Forall keptSegment (Js.splitOn "/" s) ->
  Forall (fun x => keptSegment x /\ slashFree x) (Js.splitOn "/" s).
Proof.
  intros H. pose proof (splitOn_parts_slashFree s) as Hf.
  rewrite Forall_forall in *. intros x Hx. split; [apply H | apply Hf]; exact Hx.
Qed.

Lemma list_snoc {A : Type} (l : list A) :
  l <> [] -> exists init x, l = init ++ [x].
Proof.
  intros Hne. destruct (exists_last Hne) as (init & x & E). eauto.
Qed.

(** From the directory of a page to a place on that page: the last
    segment of the page, then the place. *)
Lemma relative_to_same_page `{Host} (f a : string) :
  Forall keptSegment (Js.splitOn "/" f) -> slashFree a ->
  Path.relative (Path.dirname f) (f +:+ "#" +:+ a) = baseName f +:+ "#" +:+ a.
Proof.
  intros Hkept Ha.
  destruct (list_snoc (Js.splitOn "/" f) (splitOn_nonempty f))
    as (init & lastSeg & Esegs).
  pose proof (Forall_kept_slashFree f Hkept) as Hboth. rewrite Esegs in Hboth.
  assert (Hf : f = Js.join "/" (init ++ [lastSeg]))
    by (rewrite <- Esegs; symmetry; apply join_splitOn).
  assert (Hbase : baseName f = lastSeg).
  { unfold baseName. rewrite Esegs, last_snoc. reflexivity. }
  assert (Hto : Js.splitOn "/" (f +:+ "#" +:+ a)
                = init ++ [lastSeg +:+ "#" +:+ a]).
  { apply splitOn_append_free; [| exact Esegs].
    constructor; [discriminate | exact Ha]. }
  assert (Hinit : Forall keptSegment init).
  { apply Forall_app in Hboth. destruct Hboth as [Hi _].
    eapply Forall_impl; [exact Hi | intros x [? ?]; assumption]. }
  assert (HtoSegs : Path.resolveSegs [f +:+ "#" +:+ a]
                    = Path.resolveSegs [] ++ init ++ [lastSeg +:+ "#" +:+ a]).
  { rewrite clean_path_resolves_to_itself; rewrite Hto; [reflexivity |].
    apply Forall_app. split; [exact Hinit |].
    constructor; [apply keptSegment_hash | constructor]. }
  assert (HfromSegs : Path.resolveSegs [Path.dirname f]
                      = Path.resolveSegs [] ++ init).
  { rewrite Hf at 1. rewrite (dirname_clean init lastSeg Hboth).
    destruct init as [| i init].
    - rewrite app_nil_r. apply resolveSegs_dot.
    - assert (Hsplit : Js.splitOn "/" (Js.join "/" (i :: init)) = i :: init).
      { apply splitOn_join; [discriminate |].
        apply Forall_app in Hboth. destruct Hboth as [Hi _].
        eapply Forall_impl; [exact Hi | intros x [? ?]; assumption]. }
      rewrite clean_path_resolves_to_itself; rewrite Hsplit;
        [reflexivity | exact Hinit]. }
  unfold Path.relative.
  destruct (String.eqb (Path.dirname f) (f +:+ "#" +:+ a)) eqn:E.
  - apply String.eqb_eq in E. rewrite E in HfromSegs.
    rewrite HtoSegs in HfromSegs. apply (f_equal (@length string)) in HfromSegs.
    rewrite !length_app in HfromSegs. simpl in HfromSegs. lia.
  - rewrite HtoSegs, HfromSegs, app_assoc, commonPrefix_app.
    rewrite Nat.sub_diag, drop_app_length. cbn [List.repeat app Js.join].
    rewrite Hbase. reflexivity.
Qed.

Lemma startsWith_dot_slash (lastSeg rest : string) :
  lastSeg <> "" -> slashFree lastSeg ->
  Js.startsWith (lastSeg +:+ "#" +:+ rest) "./" = false /\
  Js.startsWith (lastSeg +:+ "#" +:+ rest) "../" = false.
Proof.
  intros Hne Hfree.
  destruct lastSeg as [| c0 s]; [contradiction |].
  inversion Hfree as [| ? ? Hc0 Hs]; subst.
  change (String c0 s +:+ "#" +:+ rest) with (String c0 (s +:+ "#" +:+ rest)).
  cbn [Js.startsWith].
  destruct (Ascii.eqb c0 ".") eqn:E0; [| split; reflexivity]. cbn [andb].
  destruct s as [| c1 s].
  - split; reflexivity.
  - inversion Hs as [| ? ? Hc1 Hs']; subst.
    change (String c1 s +:+ "#" +:+ rest) with (String c1 (s +:+ "#" +:+ rest)).
    cbn [Js.startsWith].
    assert (E1 : Ascii.eqb c1 "/" = false).
    { apply Ascii.eqb_neq. exact Hc1. }
    rewrite E1. split; [reflexivity |].
    destruct (Ascii.eqb c1 ".") eqn:E2; [| reflexivity]. cbn [andb].
    destruct s as [| c2 s]; [reflexivity |].
    inversion Hs' as [| ? ? Hc2 _]; subst.
    change (String c2 s +:+ "#" +:+ rest) with (String c2 (s +:+ "#" +:+ rest)).
    cbn [Js.startsWith].
    assert (E3 : Ascii.eqb c2 "/" = false) by (apply Ascii.eqb_neq; exact Hc2).
    rewrite E3. reflexivity.
Qed.

(** X21.  The link to a method or property from the page of its container
    stays on that page: when the path of the page has no empty, [.] or
    [..] segment and the anchor holds no slash, the link is [./], the last
    segment of the page path, [#] and the anchor. *)
Theorem member_link_stays_on_the_page `{Host} (m c : ApiItem) (anchor : string) :
  parent m = Some c ->
  isMemberKind (kind m) = true ->
  forallb (fun x => negb (isMemberKind (kind x))) (getHierarchy c) = true ->
  _getAnchorForApiItem m = Some anchor ->
  slashFree anchor ->
  Forall keptSegment (Js.splitOn "/" (_getFilenameForApiItem c)) ->
  _getLinkFilenameForApiItem (_getFilenameForApiItem c) m
  = "./" +:+ baseName (_getFilenameForApiItem c) +:+ "#" +:+ anchor.
Proof.
  intros Hp Hm Hc Ha Hfree Hkept.
  unfold _getLinkFilenameForApiItem.
  rewrite (member_filename m c anchor Hp Hm Hc Ha).
  rewrite (relative_to_same_page _ anchor Hkept Hfree).
  assert (Hlast : baseName (_getFilenameForApiItem c) <> "" /\
                  slashFree (baseName (_getFilenameForApiItem c))).
  { destruct (list_snoc (Js.splitOn "/" (_getFilenameForApiItem c))
                (splitOn_nonempty _)) as (init & lastSeg & Esegs).
    pose proof (Forall_kept_slashFree _ Hkept) as Hboth.
    unfold baseName. rewrite Esegs in *. rewrite last_snoc.
    apply Forall_app in Hboth. destruct Hboth as [_ Hl].
    inversion Hl as [| ? ? [[Hne _] Hsf] _]; subst. split; assumption. }
  destruct Hlast as [Hne Hsf].
  destruct (startsWith_dot_slash _ anchor Hne Hsf) as [-> ->].
  reflexivity.
Qed.

Lemma member_link_stays_on_the_page_witness :
  @_getLinkFilenameForApiItem Sample.host
    (_getFilenameForApiItem (Sample.topLevel Sample.zoo Sample.dog))
    (Sample.memberOf (Sample.topLevel Sample.zoo Sample.dog) Sample.speak)
  = "./" +:+ baseName (_getFilenameForApiItem (Sample.topLevel Sample.zoo Sample.dog))
    +:+ "#" +:+ "speak-method".
Proof.
  apply (@member_link_stays_on_the_page Sample.host
           (Sample.memberOf (Sample.topLevel Sample.zoo Sample.dog) Sample.speak)
           (Sample.topLevel Sample.zoo Sample.dog) "speak-method").
  - reflexivity.
  - reflexivity.
  - reflexivity.
  - reflexivity.
  - repeat constructor; discriminate.
  - vm_compute. repeat constructor; discriminate.
Defined.


Lemma merge_keeps_every_member_and_chain_witness :
  let bus := Sample.topLevel Sample.events Sample.bus in
  let on0 := Sample.memberOf bus (Sample.callable 53 ApiItemKind.Method "on" 0) in
  let emit0 := Sample.memberOf bus (Sample.callable 55 ApiItemKind.Method "emit" 0) in
  let sig := Sample.memberOf (Sample.topLevel Sample.events Sample.emitterLike)
               (Sample.callable 51 ApiItemKind.MethodSignature "on" 0) in
  omap ownMember
    (@mergeMembers Sample.host [emit0; on0] [{| first := Some sig; chain := [sig] |}])
  = [emit0; on0] /\
  attachedChains
    (@mergeMembers Sample.host [emit0; on0] [{| first := Some sig; chain := [sig] |}])
  = map chain [{| first := Some sig; chain := [sig] |}].
Proof.
  cbv zeta.
  apply (@merge_keeps_every_member_and_chain Sample.host).
  repeat constructor. discriminate.
Defined.

(** ** Pages of one container *)

Lemma str_app_inv_tail (a b t : string) : a +:+ t = b +:+ t -> a = b.
Proof.
  intros H. apply (f_equal list_ascii_of_string) in H.
  rewrite !chars_app in H. apply app_inv_tail in H.
  rewrite <- (string_of_list_ascii_of_string a),
    <- (string_of_list_ascii_of_string b), H.
  reflexivity.
Qed.

Lemma getHierarchy_last (x : ApiItem) :
  getHierarchy x
  = match ancestors x with
    | [] => []
    | p :: rest => rev (hierarchyUp rest p)
    end ++ [x].
Proof.
  destruct x as [anc d]. unfold getHierarchy. simpl.
  destruct anc as [| p rest]; reflexivity.
Qed.

(** The path of a declaration that has a folder: a part that depends on
    its containers only, its segment, and [.md] with the anchor of the
    containers. *)
Lemma filename_of_sibling (anc : list Declaration) :
  exists before after,
    forall x, ancestors x = anc -> folderOf (kind x) <> None ->
              _getFilenameForApiItem x = before +:+ pathSegment x +:+ after.
Proof.
  set (containers := match anc with
                     | [] => []
                     | p :: rest => rev (hierarchyUp rest p)
                     end).
  destruct (fold_left filenameStep containers ("", None)) as [base hash] eqn:E.
  exists (Js.toLowerCase (if Js.truthy base then base +:+ "/" else base)),
         (".md" +:+ match hash with
                    | Some h => if Js.truthy h then "#" +:+ h else ""
                    | None => ""
                    end).
  intros x Hanc Hfolder.
  assert (Hbears : bearsSegment x = true).
  { unfold bearsSegment. destruct (kind x); simpl in *; congruence. }
  unfold _getFilenameForApiItem.
  rewrite getHierarchy_last, Hanc. fold containers.
  rewrite fold_left_app, E. cbn [fold_left].
  rewrite filenameStep_segment by exact Hbears.
  rewrite toLowerCase_app, toLowerCase_rawSegment.
  assert (Hseg : Js.truthy (pathSegment x) = true).
  { unfold pathSegment, folderPrefix.
    destruct (folderOf (kind x)) as [folder |]; [| contradiction].
    rewrite !truthy_app. simpl. rewrite orb_true_r. reflexivity. }
  rewrite truthy_app, Hseg, orb_true_r.
  destruct hash as [h |]; [destruct (Js.truthy h) |];
    rewrite ?str_app_assoc, ?str_app_nil_r; reflexivity.
Qed.

(** X22.  Two declarations of one container that have a folder are
    written to the same path exactly when they have the same segment: the
    same folder and, after lower-casing, the same name and overload
    suffix. *)
Theorem sibling_pages_collide_on_equal_segments (x y : ApiItem) :
  ancestors x = ancestors y ->
  folderOf (kind x) <> None ->
  folderOf (kind y) <> None ->
  _getFilenameForApiItem x = _getFilenameForApiItem y
  <-> pathSegment x = pathSegment y.
Proof.
  intros Hanc Hx Hy.
  destruct (filename_of_sibling (ancestors y)) as (before & after & Hpath).
  rewrite (Hpath x Hanc Hx), (Hpath y eq_refl Hy). split.
  - intros H. apply str_app_inv_head in H. apply str_app_inv_tail in H. exact H.
  - intros ->. reflexivity.
Qed.

Lemma sibling_pages_collide_on_equal_segments_witness :
  let upper := Sample.topLevel Sample.zoo Sample.dog in
  let lower := Sample.topLevel Sample.zoo (Sample.classDecl 22 "dog" None [] []) in
  (_getFilenameForApiItem upper = _getFilenameForApiItem lower
   <-> pathSegment upper = pathSegment lower) /\
  _getFilenameForApiItem upper = "classes/dog.md" /\
  _getFilenameForApiItem lower = "classes/dog.md".
Proof.
  cbv zeta. split; [| split; vm_compute; reflexivity].
  apply (sibling_pages_collide_on_equal_segments
           (Sample.topLevel Sample.zoo Sample.dog)
           (Sample.topLevel Sample.zoo (Sample.classDecl 22 "dog" None [] [])));
    [reflexivity | discriminate | discriminate].
Defined.


(** ** Keys of the inheritance map *)

Lemma resolveType_package (apiPackage originItem : ApiItem) (type : string)
    (found : ApiItem) :
  _resolveType (_generateTypeMapping apiPackage) originItem type = Some found ->
  Below apiPackage found /\ isTypeKind (kind found) = true.
Proof.
  unfold _resolveType.
  destruct (startsWithWordChar type); [| discriminate]. cbn [negb].
  intros H. apply firstInTypeMap_hit in H. destruct H as (name & _ & Hfound).
  unfold _generateTypeMapping in Hfound. rewrite visitBreadthFirst_order in Hfound.
  apply typeMapping_sound in Hfound. destruct Hfound as [Hy | (Hin & Hk & _)].
  - rewrite lookup_empty in Hy. discriminate.
  - split; [apply visitOrder_package, Hin | exact Hk].
Qed.

Lemma extractBaseType_package `{Host} (apiPackage originItem : ApiItem)
    (type : string) (p : ApiItem) :
  _extractBaseType (_generateTypeMapping apiPackage) originItem type
  = Some (Item p) ->
  Below apiPackage p /\ isTypeKind (kind p) = true.
Proof.
  unfold _extractBaseType.
  destruct (_getType type) as [typeText |]; [| discriminate].
  destruct (_resolveType _ originItem typeText) as [resolved |] eqn:E;
    [| discriminate].
  intros [= <-]. eapply resolveType_package, E.
Qed.

Lemma resolveInterfaces_package `{Host} (apiPackage child : ApiItem)
    (texts : list string) (p : ApiItem) :
  In (Item p) (resolveInterfaces (_generateTypeMapping apiPackage) child texts) ->
  Below apiPackage p /\ isTypeKind (kind p) = true.
Proof.
  unfold resolveInterfaces.
  assert (Hgen : forall acc,
            (forall q, In (Item q) acc ->
                       Below apiPackage q /\ isTypeKind (kind q) = true) ->
            In (Item p)
               (fold_left
                  (fun acc parentInterfaceText =>
                     let resolvedBaseInterface :=
                       _extractBaseType (_generateTypeMapping apiPackage) child
                         parentInterfaceText in
                     match resolvedBaseInterface with
                     | Some r => if truthyRef resolvedBaseInterface
                                 then acc ++ [r] else acc
                     | None => acc
                     end) texts acc) ->
            Below apiPackage p /\ isTypeKind (kind p) = true).
  { induction texts as [| t texts IH]; intros acc Hacc Hin; [apply Hacc, Hin |].
    cbn [fold_left] in Hin. eapply IH; [| exact Hin]. cbv zeta.
    destruct (_extractBaseType (_generateTypeMapping apiPackage) child t)
      as [r |] eqn:E; [| exact Hacc].
    destruct (truthyRef (Some r)); [| exact Hacc].
    intros q Hq. apply in_app_or in Hq. destruct Hq as [Hq | [-> | []]].
    - apply Hacc, Hq.
    - eapply extractBaseType_package, E. }
  apply Hgen. intros q [].
Qed.

Lemma inheritanceSet_keys (k : ApiItem) (v : Refs) (m : InheritanceMap)
    (k' : ApiItem) (e' : Refs) :
  In (k', e') (inheritanceSet k v m) ->
  In (k', e') m \/ e' = v /\ (k' = k \/ exists v0, In (k', v0) m).
Proof.
  unfold inheritanceSet. induction m as [| [k0 v0] m IH]; simpl.
  - intros [[= <- <-] | []]. right. auto.
  - destruct (same k0 k); simpl.
    + intros [[= <- <-] | H]; [| left; right; exact H].
      right. split; [reflexivity |]. right. exists v0. left. reflexivity.
    + intros [H | H]; [left; left; exact H |].
      destruct (IH H) as [H' | (-> & [-> | (v1 & H1)])].
      * left. right. exact H'.
      * right. auto.
      * right. split; [reflexivity |]. right. exists v1. right. exact H1.
Qed.

Lemma parentsOf_items (refs : Refs) (p : ApiItem) :
  In (Item p) (parentsOf refs) ->
  parentClass refs = Some (Item p) \/ In (Item p) (parentInterfaces refs).
Proof.
  unfold parentsOf. intros H. apply in_app_or in H. destruct H as [H | H];
    [| right; exact H].
  left. destruct (parentClass refs) as [[q | s] |]; simpl in H.
  - destruct H as [[= ->] | []]. reflexivity.
  - destruct (Js.truthy s); simpl in H; [| contradiction].
    destruct H as [H | []]. discriminate.
  - contradiction.
Qed.

Lemma inheritanceSet_package_keys (apiPackage x : ApiItem) (v : Refs)
    (m : InheritanceMap) :
  PackageKeys apiPackage m ->
  Below apiPackage x -> isTypeKind (kind x) = true ->
  (forall p, In (Item p) (parentsOf v) ->
             Below apiPackage p /\ isTypeKind (kind p) = true) ->
  PackageKeys apiPackage (inheritanceSet x v m).
Proof.
  intros Hm Hx Hk Hv k refs Hin. apply inheritanceSet_keys in Hin.
  destruct Hin as [Hin | (-> & Hkey)]; [apply Hm, Hin |].
  split; [| exact Hv].
  destruct Hkey as [-> | (v0 & Hv0)].
  - split; assumption.
  - exact (proj1 (Hm _ _ Hv0)).
Qed.

Lemma forwardMap_package_keys `{Host} (apiPackage : ApiItem) :
  PackageKeys apiPackage
    (forwardMap (_generateTypeMapping apiPackage) apiPackage).
Proof.
  unfold forwardMap. rewrite visitBreadthFirst_order.
  assert (Hgen : forall l m,
            (forall x, In x l -> Below apiPackage x) ->
            PackageKeys apiPackage m ->
            PackageKeys apiPackage
              (fold_left (forwardVisit (_generateTypeMapping apiPackage)) l m)).
  { induction l as [| x l IH]; intros m Hl Hm; [exact Hm |].
    cbn [fold_left]. apply IH; [intros y Hy; apply Hl; right; exact Hy |].
    assert (Hx : Below apiPackage x) by (apply Hl; left; reflexivity).
    unfold forwardVisit.
    destruct (kind x) eqn:Ek; try exact Hm.
    - apply inheritanceSet_package_keys;
        [exact Hm | exact Hx | rewrite Ek; reflexivity |].
      intros p Hp. apply parentsOf_items in Hp. cbn in Hp.
      destruct Hp as [Hp | Hp].
      + destruct (extendsType x) as [t |]; [| discriminate].
        eapply extractBaseType_package, Hp.
      + eapply resolveInterfaces_package, Hp.
    - apply inheritanceSet_package_keys;
        [exact Hm | exact Hx | rewrite Ek; reflexivity |].
      intros p Hp. apply parentsOf_items in Hp. cbn in Hp.
      destruct Hp as [Hp | Hp]; [discriminate |].
      eapply resolveInterfaces_package, Hp. }
  apply Hgen.
  - intros x Hx. apply visitOrder_package, Hx.
  - intros k refs [].
Qed.

Lemma upsert_keys (k : ApiItem) (f : Refs -> Refs) (m : InheritanceMap)
    (p : ApiItem) (refs : Refs) :
  In (p, refs) (upsert k f m) ->
  (exists v, In (p, v) m /\ (refs = v \/ refs = f v)) \/
  p = k /\ refs = f emptyRefs.
Proof.
  induction m as [| [k' v] m IH]; simpl.
  - intros [[= <- <-] | []]. right. auto.
  - destruct (same k' k); simpl.
    + intros [[= <- <-] | H].
      * left. exists v. split; [left; reflexivity | right; reflexivity].
      * left. exists refs. split; [right; exact H | left; reflexivity].
    + intros [[= <- <-] | H].
      * left. exists v. split; [left; reflexivity | left; reflexivity].
      * destruct (IH H) as [(v' & Hv & Hr) | Hnew]; [| right; exact Hnew].
        left. exists v'. split; [right; exact Hv | exact Hr].
Qed.

Lemma applyEdges_package_keys (apiPackage child : ApiItem)
    (edges : list (bool * ApiItem)) :
  (forall b p, In (b, p) edges ->
               Below apiPackage p /\ isTypeKind (kind p) = true) ->
  forall m, PackageKeys apiPackage m ->
            PackageKeys apiPackage (fold_left (applyEdge child) edges m).
Proof.
  induction edges as [| [b q] edges IH]; intros Hedges m Hm; [exact Hm |].
  cbn [fold_left]. apply IH.
  { intros b' p' H'. eapply Hedges. right. exact H'. }
  unfold applyEdge. cbn [fst snd]. intros k refs Hin.
  apply upsert_keys in Hin.
  destruct Hin as [(v & Hv & [-> | ->]) | (-> & ->)].
  - apply (Hm _ _ Hv).
  - destruct (Hm _ _ Hv) as [Hk Hp]. split; [exact Hk |].
    intros p. unfold parentsOf.
    destruct (pushChild_parents b child v) as [-> ->]. apply Hp.
  - split; [eapply Hedges; left; reflexivity |].
    intros p. unfold parentsOf.
    destruct (pushChild_parents b child emptyRefs) as [-> ->].
    intros [].
Qed.

(** X23.  The inheritance map built with the type table of a package has
    only types of that package as keys: every key is a class, an
    enumeration, an interface or a type alias below the package, and so
    is every declaration an entry names as parent. *)
Theorem inheritance_map_keys_are_package_types `{Host}
    (apiPackage k : ApiItem) (refs : Refs) :
  In (k, refs)
     (_generateClassHierarchy (_generateTypeMapping apiPackage) apiPackage) ->
  (Below apiPackage k /\ isTypeKind (kind k) = true) /\
  forall p, In (Item p) (parentsOf refs) ->
            Below apiPackage p /\ isTypeKind (kind p) = true.
Proof.
  rewrite generateClassHierarchy_fold.
  pose proof (forwardMap_package_keys apiPackage) as Hforward.
  set (forward := forwardMap (_generateTypeMapping apiPackage) apiPackage) in *.
  assert (Hgen : forall l m,
            (forall e, In e l -> In e forward) ->
            PackageKeys apiPackage m ->
            PackageKeys apiPackage (fold_left reverseStep l m)).
  { induction l as [| [child entry] l IH]; intros m Hl Hm; [exact Hm |].
    cbn [fold_left]. apply IH; [intros e He; apply Hl; right; exact He |].
    unfold reverseStep. cbn [fst snd]. rewrite reverseEdges_edges.
    apply applyEdges_package_keys; [| exact Hm].
    intros b p Hp. apply edgesOf_sound in Hp.
    apply (Hforward child entry (Hl _ (or_introl eq_refl))), Hp. }
  apply (Hgen forward forward); [intros e He; exact He | exact Hforward].
Qed.

Lemma inheritance_map_keys_are_package_types_witness :
  let base := Sample.topLevel Sample.family Sample.base in
  let derived := Sample.topLevel Sample.family Sample.derived in
  (Below (Sample.apiPackage Sample.family) derived /\
   isTypeKind (kind derived) = true) /\
  forall p,
    In (Item p)
       (parentsOf {| parentClass := Some (Item base); childClasses := [];
                     parentInterfaces := []; childInterfaces := [] |}) ->
    Below (Sample.apiPackage Sample.family) p /\ isTypeKind (kind p) = true.
Proof.
  cbv zeta.
  apply (@inheritance_map_keys_are_package_types Sample.host
           (Sample.apiPackage Sample.family)
           (Sample.topLevel Sample.family Sample.derived)
           {| parentClass := Some (Item (Sample.topLevel Sample.family Sample.base));
              childClasses := []; parentInterfaces := [];
              childInterfaces := [] |}).
  vm_compute. right. left. reflexivity.
Defined.

(** ** Lists, laid out (C8) *)

(** Induction on a document node that follows nested lists. *)
Lemma DocNode_list_ind (P : DocNode -> Prop) :
  (forall nodes, Forall P nodes -> P (List nodes)) ->
  (forall node, isList node = false -> P node) ->
  forall node, P node.
Proof.
  intros Hlist Hleaf. fix IH 1. intros node.
  destruct node; try (apply Hleaf; reflexivity).
  apply Hlist. revert nodes. fix IHnodes 1. intros [| n rest].
  - constructor.
  - constructor; [apply IH | apply IHnodes].
Qed.

Lemma hasLineBreak_app (a b : string) :
  IndentedWriter.hasLineBreak (a +:+ b)
  = IndentedWriter.hasLineBreak a || IndentedWriter.hasLineBreak b.
Proof.
  unfold IndentedWriter.hasLineBreak. rewrite chars_app, existsb_app.
  reflexivity.
Qed.

(** Two writes of text without line breaks are one write. *)
Lemma write_write (a b : string) (w : IndentedWriter.t) :
  IndentedWriter.hasLineBreak a = false ->
  IndentedWriter.hasLineBreak b = false ->
  IndentedWriter.write b (IndentedWriter.write a w)
  = IndentedWriter.write (a +:+ b) w.
Proof.
  intros Ha Hb. destruct a as [| x a]; [reflexivity |].
  destruct b as [| y b]; [rewrite str_app_nil_r; reflexivity |].
  rewrite (write_plain (String x a) w eq_refl Ha).
  rewrite (write_plain (String y b) _ eq_refl Hb).
  rewrite (write_plain (String x a +:+ String y b) w eq_refl)
    by (rewrite hasLineBreak_app, Ha, Hb; reflexivity).
  rewrite writeIndent_midline by reflexivity.
  unfold IndentedWriter.setStart, IndentedWriter.append.
  cbn [IndentedWriter.output IndentedWriter.atStartOfLine
       IndentedWriter.indentStack].
  rewrite str_app_assoc. reflexivity.
Qed.

Lemma lastChar_app (a b : string) :
  Js.truthy b = true -> Js.lastChar (a +:+ b) = Js.lastChar b.
Proof.
  intros Hb. induction a as [| c a IH]; [reflexivity |].
  change (String c a +:+ b) with (String c (a +:+ b)).
  cbn [Js.lastChar]. rewrite IH.
  destruct (a +:+ b) eqn:E; [| reflexivity].
  pose proof (truthy_app a b) as Ht. rewrite E, Hb, orb_true_r in Ht.
  discriminate.
Qed.

(** After a write of text without line breaks the last character is the
    last character of the text. *)
Lemma peekLast_write (s : string) (w : IndentedWriter.t) :
  Js.truthy s = true -> IndentedWriter.hasLineBreak s = false ->
  IndentedWriter.peekLastCharacter (IndentedWriter.write s w)
  = match Js.lastChar s with Some c => String c "" | None => "" end.
Proof.
  intros Ht Hb. rewrite (write_plain s w Ht Hb).
  unfold IndentedWriter.peekLastCharacter, IndentedWriter.setStart,
    IndentedWriter.append.
  cbn [IndentedWriter.output]. rewrite lastChar_app by exact Ht. reflexivity.
Qed.

Lemma forallb_negb_existsb {A : Type} (p : A -> bool) (l : list A) :
  forallb (fun x => negb (p x)) l = negb (existsb p l).
Proof.
  induction l as [| x l IH]; [reflexivity |]. simpl. rewrite IH.
  destruct (p x); reflexivity.
Qed.

Lemma escaped_text_no_line_break (text : string) :
  existsb Js.isLineTerminator (list_ascii_of_string text) = false ->
  IndentedWriter.hasLineBreak (Text.getEscapedText text) = false.
Proof.
  intros Hfree. unfold IndentedWriter.hasLineBreak.
  apply negb_true_iff. rewrite <- forallb_negb_existsb.
  rewrite getEscapedText_escapedFrom. apply escapedFrom_forallb; [| reflexivity].
  intros c Hc. apply escapedChar_no_line_terminator.
  destruct (Js.isLineTerminator c) eqn:E; [| reflexivity].
  assert (Hex : existsb Js.isLineTerminator (list_ascii_of_string text) = true).
  { apply existsb_exists. exists c. split; assumption. }
  rewrite Hex in Hfree. discriminate.
Qed.

(** The reversed string starts with the last character. *)
Lemma lastChar_reverse (s : string) :
  match Js.lastChar s with
  | Some c => exists r, Text.reverse s = String c r
  | None => s = ""
  end.
Proof.
  induction s as [| c s IH]; [reflexivity |].
  cbn [Js.lastChar]. destruct s as [| d s].
  - exists "". reflexivity.
  - destruct (Js.lastChar (String d s)) as [e |]; [| discriminate].
    destruct IH as [r Hr].
    change (String c (String d s)) with (String c "" +:+ String d s).
    rewrite reverse_app, Hr. exists (r +:+ Text.reverse (String c "")).
    reflexivity.
Qed.

(** Tidy text is its own middle: no leading and no trailing white space is
    split off. *)
Lemma tidy_split (text : string) :
  tidy text = true -> Text.splitPlainText text = Some ("", text, "").
Proof.
  unfold tidy. intros H.
  apply andb_prop in H. destruct H as [H Hlast].
  apply andb_prop in H. destruct H as [Hfree Hfirst].
  apply negb_true_iff in Hfree.
  assert (Hlead : Text.takeWhile Js.isSpace text = "").
  { destruct text as [| c s]; [reflexivity |]. simpl.
    apply negb_true_iff in Hfirst. rewrite Hfirst. reflexivity. }
  assert (Hdrop : Text.dropWhile Js.isSpace text = text).
  { destruct text as [| c s]; [reflexivity |]. simpl.
    apply negb_true_iff in Hfirst. rewrite Hfirst. reflexivity. }
  assert (Hrev : Text.takeWhile Js.isSpace (Text.reverse text) = "" /\
                 Text.dropWhile Js.isSpace (Text.reverse text)
                 = Text.reverse text).
  { pose proof (lastChar_reverse text) as Hr.
    destruct (Js.lastChar text) as [c |].
    - destruct Hr as [r ->]. apply negb_true_iff in Hlast. simpl.
      rewrite Hlast. split; reflexivity.
    - subst text. split; reflexivity. }
  destruct Hrev as [Htake Hkeep].
  unfold Text.splitPlainText.
  rewrite Hlead, Hdrop, Htake, Hkeep, reverse_involutive, Hfree.
  reflexivity.
Qed.

Lemma emitter_write_write (a b : string) (context : Emitter.Context) :
  IndentedWriter.hasLineBreak a = false ->
  IndentedWriter.hasLineBreak b = false ->
  Emitter.write b (Emitter.write a context) = Emitter.write (a +:+ b) context.
Proof.
  intros Ha Hb. unfold Emitter.write, Emitter.onWriter.
  cbn [Emitter.writer Emitter.insideTable Emitter.listLevel Emitter.options].
  rewrite (write_write a b _ Ha Hb). reflexivity.
Qed.

Lemma emitter_write_nothing (context : Emitter.Context) :
  Emitter.write "" context = context.
Proof. destruct context. reflexivity. Qed.

Lemma emitter_write_if (b : bool) (s : string) (context : Emitter.Context) :
  (if b then Emitter.write s context else context)
  = Emitter.write (if b then s else "") context.
Proof. destruct b; [reflexivity | symmetry; apply emitter_write_nothing]. Qed.

(** Tidy plain text that follows a space or a closing angle bracket is
    written escaped, with nothing before it. *)
Lemma writePlainText_tidy (text : string) (context : Emitter.Context) :
  tidy text = true ->
  IndentedWriter.peekLastCharacter (Emitter.writer context) = " " \/
  IndentedWriter.peekLastCharacter (Emitter.writer context) = ">" ->
  Emitter.writePlainText text context
  = Emitter.Ok (Emitter.write (Text.getEscapedText text) context).
Proof.
  intros Htidy Hlast.
  assert (Hfits :
            let lastCharacter :=
              IndentedWriter.peekLastCharacter (Emitter.writer context) in
            String.eqb lastCharacter "" || String.eqb lastCharacter Text.nl ||
            String.eqb lastCharacter " " || String.eqb lastCharacter "[" ||
            String.eqb lastCharacter ">" = true).
  { destruct Hlast as [-> | ->]; reflexivity. }
  unfold Emitter.writePlainText.
  rewrite (tidy_split text Htidy). cbv zeta in *.
  rewrite !emitter_write_nothing.
  destruct text as [| c s].
  - change (Text.getEscapedText "") with "". cbn [String.eqb negb].
    rewrite emitter_write_nothing. reflexivity.
  - cbn [String.eqb negb]. rewrite Hfits. reflexivity.
Qed.

Lemma peekLast_emitter_write (s : string) (context : Emitter.Context) :
  Js.truthy s = true -> IndentedWriter.hasLineBreak s = false ->
  IndentedWriter.peekLastCharacter (Emitter.writer (Emitter.write s context))
  = match Js.lastChar s with Some c => String c "" | None => "" end.
Proof. intros Ht Hb. apply (peekLast_write s _ Ht Hb). Qed.

(** An inline item that follows a space is one write of its text, and the
    text holds no line break. *)
Lemma inline_item_written (node : DocNode) (text : string)
    (context : Emitter.Context) :
  inlineText node = Some text ->
  IndentedWriter.peekLastCharacter (Emitter.writer context) = " " ->
  Emitter.writeNode node false context
  = Emitter.Ok (Emitter.write text context) /\
  IndentedWriter.hasLineBreak text = false.
Proof.
  intros Hinline Hlast.
  destruct node as [plain | | | | codeDestination urlDestination linkText
                    | | | | | | | | | | | | | bold italic nodes |];
    try discriminate.
  - (* plain text *)
    cbn [inlineText] in Hinline.
    destruct (tidy plain) eqn:Htidy; [| discriminate].
    injection Hinline as <-. split.
    + cbn [Emitter.writeNode]. apply writePlainText_tidy; [exact Htidy |].
      left. exact Hlast.
    + apply escaped_text_no_line_break.
      unfold tidy in Htidy. apply andb_prop in Htidy. destruct Htidy as [H _].
      apply andb_prop in H. destruct H as [H _].
      apply negb_true_iff in H. exact H.
  - (* link *)
    cbn [inlineText] in Hinline.
    destruct codeDestination; [discriminate |].
    destruct urlDestination as [url |]; [| discriminate].
    destruct (Js.truthy url && negb (IndentedWriter.hasLineBreak url)) eqn:Hurl;
      [| discriminate].
    apply andb_prop in Hurl. destruct Hurl as [Htruthy Hfree].
    apply negb_true_iff in Hfree.
    injection Hinline as <-.
    set (encoded := Text.getEscapedText
                      (Text.collapseSpaces false
                         match linkText with
                         | Some t => t
                         | None => url
                         end)).
    assert (Hencoded : IndentedWriter.hasLineBreak encoded = false).
    { apply escaped_text_no_line_break. apply negb_true_iff.
      rewrite <- forallb_negb_existsb. apply collapseSpaces_no_line_terminator. }
    assert (Hclose : IndentedWriter.hasLineBreak ("](" +:+ url +:+ ")") = false).
    { rewrite !hasLineBreak_app, Hfree. reflexivity. }
    split.
    + cbn [Emitter.writeNode]. rewrite Htruthy.
      unfold Emitter.writeLinkTagWithUrlDestination. cbn [default].
      fold encoded.
      rewrite (emitter_write_write "[" encoded) by (reflexivity || exact Hencoded).
      rewrite emitter_write_write;
        [| rewrite hasLineBreak_app, Hencoded; reflexivity | exact Hclose].
      rewrite str_app_assoc. reflexivity.
    + change (IndentedWriter.hasLineBreak
                ("[" +:+ encoded +:+ "](" +:+ url +:+ ")") = false).
      rewrite !hasLineBreak_app, Hencoded, Hfree. reflexivity.
  - (* emphasis *)
    cbn [inlineText] in Hinline.
    destruct nodes as [| [plain | | | | | | | | | | | | | | | | | |] [| ? ?]];
      try discriminate.
    destruct (tidy plain) eqn:Htidy; [| discriminate].
    injection Hinline as <-.
    assert (Hescaped : IndentedWriter.hasLineBreak (Text.getEscapedText plain)
                       = false).
    { apply escaped_text_no_line_break.
      unfold tidy in Htidy. apply andb_prop in Htidy. destruct Htidy as [H _].
      apply andb_prop in H. destruct H as [H _].
      apply negb_true_iff in H. exact H. }
    split.
    + cbn [Emitter.writeNode map Emitter.runNodes].
      rewrite !emitter_write_if.
      set (openBold := if bold then "<b>" else "").
      set (openItalic := if italic then "<i>" else "").
      set (closeItalic := if italic then "</i>" else "").
      set (closeBold := if bold then "</b>" else "").
      assert (Hob : IndentedWriter.hasLineBreak openBold = false)
        by (unfold openBold; destruct bold; reflexivity).
      assert (Hoi : IndentedWriter.hasLineBreak openItalic = false)
        by (unfold openItalic; destruct italic; reflexivity).
      assert (Hci : IndentedWriter.hasLineBreak closeItalic = false)
        by (unfold closeItalic; destruct italic; reflexivity).
      assert (Hcb : IndentedWriter.hasLineBreak closeBold = false)
        by (unfold closeBold; destruct bold; reflexivity).
      rewrite (emitter_write_write openBold openItalic _ Hob Hoi).
      rewrite writePlainText_tidy; [| exact Htidy |].
      * cbn [Emitter.bind].
        rewrite !emitter_write_if. fold closeItalic closeBold.
        rewrite !emitter_write_write;
          rewrite ?hasLineBreak_app, ?Hob, ?Hoi, ?Hci, ?Hcb, ?Hescaped;
          try reflexivity.
        rewrite !str_app_assoc. reflexivity.
      * unfold openBold, openItalic.
        destruct bold, italic.
        -- right. apply peekLast_emitter_write; reflexivity.
        -- right. apply peekLast_emitter_write; reflexivity.
        -- right. apply peekLast_emitter_write; reflexivity.
        -- left. cbn [String.append]. rewrite emitter_write_nothing. exact Hlast.
    + rewrite !hasLineBreak_app, Hescaped.
      destruct bold, italic; reflexivity.
Qed.

Lemma repeat_spaces_no_line_break (n : nat) :
  IndentedWriter.hasLineBreak (Js.repeat "  " n) = false.
Proof.
  induction n as [| n IH]; [reflexivity |].
  cbn [Js.repeat]. rewrite hasLineBreak_app, IH. reflexivity.
Qed.

Lemma bullet_no_line_break (depth : nat) :
  IndentedWriter.hasLineBreak (bullet depth) = false.
Proof.
  unfold bullet. rewrite hasLineBreak_app, repeat_spaces_no_line_break.
  reflexivity.
Qed.

Lemma bullet_ends_with_space (depth : nat) :
  Js.truthy (bullet depth) = true /\ Js.lastChar (bullet depth) = Some " "%char.
Proof.
  unfold bullet. split.
  - rewrite truthy_app. apply orb_true_r.
  - rewrite lastChar_app by reflexivity. reflexivity.
Qed.

(** A leaf item of a list is one line: a new line is ensured, then the
    bullet of the depth and the text of the item are written. *)
Lemma leaf_item_is_a_line (node : DocNode) (text : string)
    (context : Emitter.Context) :
  isList node = false ->
  inlineText node = Some text ->
  Emitter.writeListItem (isList node, Emitter.writeNode node false) context
  = Emitter.Ok
      (Emitter.onWriter
         (fun w => applyMark w (Line (bullet (Emitter.listLevel context) +:+ text)))
         context).
Proof.
  intros Hleaf Hinline. unfold Emitter.writeListItem. rewrite Hleaf.
  cbn [fst snd].
  replace (Js.repeat "  "
             ((Emitter.listLevel (Emitter.ensureNewLine context) - 1) * 2)
           +:+ "- ")
    with (bullet (Emitter.listLevel context))
    by (unfold bullet; cbn [Emitter.ensureNewLine Emitter.onWriter
                             Emitter.listLevel];
        rewrite Nat.mul_comm; reflexivity).
  destruct (bullet_ends_with_space (Emitter.listLevel context)) as [Ht Hl].
  pose proof (bullet_no_line_break (Emitter.listLevel context)) as Hb.
  destruct (inline_item_written node text
              (Emitter.write (bullet (Emitter.listLevel context))
                 (Emitter.ensureNewLine context)) Hinline) as [Hw Hfree].
  { rewrite (peekLast_emitter_write _ _ Ht Hb), Hl. reflexivity. }
  rewrite Hw. rewrite (emitter_write_write _ _ _ Hb Hfree). reflexivity.
Qed.

Lemma onWriter_compose (f g : IndentedWriter.t -> IndentedWriter.t)
    (context : Emitter.Context) :
  Emitter.onWriter g (Emitter.onWriter f context)
  = Emitter.onWriter (fun w => g (f w)) context.
Proof. reflexivity. Qed.

Lemma onWriter_nothing (context : Emitter.Context) :
  Emitter.onWriter (fun w => w) context = context.
Proof. destruct context. reflexivity. Qed.

Lemma onWriter_ext (f g : IndentedWriter.t -> IndentedWriter.t)
    (context : Emitter.Context) :
  f (Emitter.writer context) = g (Emitter.writer context) ->
  Emitter.onWriter f context = Emitter.onWriter g context.
Proof. unfold Emitter.onWriter. intros ->. reflexivity. Qed.

(** The loop over the items of a list applies their marks, given that the
    nested lists among them do. *)
Lemma items_are_laid_out (nodes : list DocNode) :
  Forall
    (fun node =>
       forall marks hasNextSibling context,
         listLayout (Emitter.listLevel context) node = Some marks ->
         Emitter.writeNode node hasNextSibling context
         = Emitter.Ok (Emitter.onWriter (applyMarks marks) context))
    nodes ->
  forall marks context,
    itemsLayout (listLayout (Emitter.listLevel context))
      (Emitter.listLevel context) nodes = Some marks ->
    Emitter.forEach Emitter.writeListItem
      (map (fun node => (isList node, Emitter.writeNode node false)) nodes)
      context
    = Emitter.Ok (Emitter.onWriter (applyMarks marks) context).
Proof.
  induction 1 as [| node rest Hnode _ IH]; intros marks context Hlayout.
  - injection Hlayout as <-. cbn [map Emitter.forEach].
    unfold applyMarks. cbn [fold_left]. rewrite onWriter_nothing. reflexivity.
  - cbn [itemsLayout] in Hlayout. cbn [map Emitter.forEach].
    destruct (isList node) eqn:Hkind.
    + destruct (listLayout (Emitter.listLevel context) node) as [first |] eqn:Hfirst;
        [| discriminate].
      destruct (itemsLayout (listLayout (Emitter.listLevel context))
                  (Emitter.listLevel context) rest) as [others |] eqn:Hothers;
        [| discriminate].
      injection Hlayout as <-.
      unfold Emitter.writeListItem. cbn [fst snd].
      rewrite (Hnode first false context Hfirst). cbn [Emitter.bind].
      rewrite (IH others); [| exact Hothers].
      rewrite onWriter_compose. unfold applyMarks. f_equal.
      apply onWriter_ext. rewrite fold_left_app. reflexivity.
    + destruct (inlineText node) as [text |] eqn:Htext; [| discriminate].
      cbn [option_map] in Hlayout.
      destruct (itemsLayout (listLayout (Emitter.listLevel context))
                  (Emitter.listLevel context) rest) as [others |] eqn:Hothers;
        [| discriminate].
      injection Hlayout as <-.
      pose proof (leaf_item_is_a_line node text context Hkind Htext) as Hleaf.
      rewrite Hkind in Hleaf. rewrite Hleaf. cbn [Emitter.bind].
      rewrite (IH others); [| exact Hothers].
      rewrite onWriter_compose. f_equal.
Qed.

Lemma applyMarks_app (a b : list Mark) (w : IndentedWriter.t) :
  applyMarks (a ++ b) w = applyMarks b (applyMarks a w).
Proof. apply fold_left_app. Qed.

(** A [List] node is written as its layout says. *)
Lemma list_written_as_laid_out (node : DocNode) :
  forall marks hasNextSibling context,
    listLayout (Emitter.listLevel context) node = Some marks ->
    Emitter.writeNode node hasNextSibling context
    = Emitter.Ok (Emitter.onWriter (applyMarks marks) context).
Proof.
  induction node as [nodes IH | node Hleaf] using DocNode_list_ind;
    intros marks hasNextSibling context Hlayout.
  - unfold listLayout in *. cbn [layoutClosing] in Hlayout.
    destruct context as [w table level opts].
    cbn [Emitter.listLevel] in Hlayout.
    destruct (itemsLayout (layoutClosing 2 (S level)) (S level) nodes)
      as [items |] eqn:Hitems; [| discriminate].
    cbn [option_map] in Hlayout. injection Hlayout as <-.
    cbn [Emitter.writeNode]. unfold Emitter.writeList. cbv zeta.
    unfold Emitter.setListLevel at 1 2 3.
    cbn [Emitter.listLevel Emitter.writer Emitter.insideTable Emitter.options].
    rewrite Nat.add_1_r.
    set (entered :=
           if (S level =? 1)%nat
           then Emitter.ensureSkippedLine
                  {| Emitter.writer := w; Emitter.insideTable := table;
                     Emitter.listLevel := S level; Emitter.options := opts |}
           else {| Emitter.writer := w; Emitter.insideTable := table;
                   Emitter.listLevel := S level; Emitter.options := opts |}).
    assert (Hlevel : Emitter.listLevel entered = S level)
      by (unfold entered; destruct (S level =? 1)%nat; reflexivity).
    rewrite (items_are_laid_out nodes IH items entered)
      by (rewrite Hlevel; exact Hitems).
    cbn [Emitter.bind]. unfold Emitter.setListLevel.
    cbn [Emitter.onWriter Emitter.listLevel Emitter.writer
         Emitter.insideTable Emitter.options].
    rewrite Hlevel. cbn [Nat.sub]. rewrite Nat.sub_0_r.
    unfold Emitter.onWriter.
    cbn [Emitter.listLevel Emitter.writer Emitter.insideTable Emitter.options].
    rewrite !applyMarks_app.
    unfold entered.
    change (S level =? 1)%nat with (level =? 0)%nat.
    change (S level =? 2)%nat with (level =? 1)%nat.
    destruct (level =? 0)%nat, (level =? 1)%nat; reflexivity.
  - destruct node; try discriminate Hlayout. discriminate Hleaf.
Qed.

Lemma itemsLayout_app (nestedLayout : DocNode -> option (list Mark))
    (depth : nat) (a b : list DocNode) :
  itemsLayout nestedLayout depth (a ++ b)
  = match itemsLayout nestedLayout depth a, itemsLayout nestedLayout depth b with
    | Some first, Some others => Some (first ++ others)
    | _, _ => None
    end.
Proof.
  induction a as [| node a IH]; cbn [app itemsLayout].
  - destruct (itemsLayout nestedLayout depth b); reflexivity.
  - rewrite IH.
    destruct (if isList node then nestedLayout node
              else option_map (fun text => [Line (bullet depth +:+ text)])
                              (inlineText node)) as [first |];
      [| reflexivity].
    destruct (itemsLayout nestedLayout depth a) as [middle |]; [| reflexivity].
    destruct (itemsLayout nestedLayout depth b) as [others |]; [| reflexivity].
    rewrite app_assoc. reflexivity.
Qed.

(** The blank lines of an outermost list: one before its first item, and
    one at its end when its last node is a nested list. *)
Lemma outermost_list_blank_lines (nodes : list DocNode) (marks : list Mark) :
  listLayout 0 (List nodes) = Some marks ->
  head marks = Some BlankLine /\
  forall sub, last nodes = Some (List sub) -> last marks = Some BlankLine.
Proof.
  unfold listLayout. cbn [layoutClosing]. intros Hlayout.
  destruct (itemsLayout (layoutClosing 2 1) 1 nodes) as [items |] eqn:Hitems;
    [| discriminate].
  cbn [option_map Nat.eqb] in Hlayout. injection Hlayout as <-.
  split; [reflexivity |].
  intros sub Hlast. apply last_Some in Hlast. destruct Hlast as [init ->].
  rewrite itemsLayout_app in Hitems.
  destruct (itemsLayout (layoutClosing 2 1) 1 init) as [first |];
    [| discriminate].
  cbn [itemsLayout isList layoutClosing] in Hitems.
  destruct (itemsLayout (layoutClosing 2 2) 2 sub) as [inner |];
    [| discriminate].
  cbn [option_map Nat.eqb] in Hitems. injection Hitems as <-.
  rewrite !app_nil_r, app_assoc, app_comm_cons.
  apply last_snoc.
Qed.


(** The list that [_createTypeTree] builds for a root with children: the
    item of the root, then the list of the children. *)
Lemma type_tree_is_root_then_children `{Host} (filename : string)
    (currentApiItem : ApiItem) (item : ItemOrString) (child : TreeNode)
    (children : list TreeNode) :
  _createTypeTree filename currentApiItem [mkTreeNode item (child :: children)]
  = List [typeTreeText filename currentApiItem item;
          _createTypeTree filename currentApiItem (child :: children)].
Proof.
  unfold _createTypeTree. cbn [map concat typeTreeNodes].
  rewrite app_nil_r. reflexivity.
Qed.


(** X24.  The list of a type tree is written between two blank lines: for
    a root with children [_createTypeTree] builds the item of the root
    followed by the list of the children, and when the items are inline
    the emitter, at list level 0, ensures a blank line, writes the lines
    of the layout, and ensures a blank line at the end. *)
Theorem type_tree_is_written_between_blank_lines `{Host} (filename : string)
    (currentApiItem : ApiItem) (item : ItemOrString) (child : TreeNode)
    (children : list TreeNode) (hasNextSibling : bool)
    (context : Emitter.Context) (marks : list Mark) :
  Emitter.listLevel context = 0 ->
  listLayout 0
    (_createTypeTree filename currentApiItem [mkTreeNode item (child :: children)])
  = Some marks ->
  Emitter.writeNode
    (_createTypeTree filename currentApiItem [mkTreeNode item (child :: children)])
    hasNextSibling context
  = Emitter.Ok (Emitter.onWriter (applyMarks marks) context) /\
  head marks = Some BlankLine /\ last marks = Some BlankLine.
Proof.
  intros Hlevel Hlayout. split.
  - apply list_written_as_laid_out. rewrite Hlevel. exact Hlayout.
  - rewrite type_tree_is_root_then_children in Hlayout.
    destruct (outermost_list_blank_lines _ _ Hlayout) as [Hhead Hlast].
    split; [exact Hhead |].
    unfold _createTypeTree in Hlast. apply (Hlast _ eq_refl).
Qed.

Lemma type_tree_is_written_between_blank_lines_witness :
  let stream := Sample.topLevel Sample.storage Sample.stream in
  let readable := Sample.topLevel Sample.storage Sample.readable in
  let file := Sample.topLevel Sample.storage Sample.file in
  let tree :=
    @_createTypeTree Sample.host "interfaces/readable.md" readable
      [mkTreeNode (Item stream)
         [mkTreeNode (Item readable)
            [mkTreeNode (Item file) []; mkTreeNode (Str "Closeable") []]]] in
  let context :=
    {| Emitter.writer := IndentedWriter.create; Emitter.insideTable := false;
       Emitter.listLevel := 0; Emitter.options := TableRows.noOptions |} in
  let marks := [BlankLine; Line "- [Stream](./stream.md)";
                Line "    - <b>Readable</b>";
                Line "        - [File](../classes/file.md)";
                Line "        - Closeable"; BlankLine] in
  Emitter.writeNode tree false context
  = Emitter.Ok (Emitter.onWriter (applyMarks marks) context) /\
  head marks = Some BlankLine /\ last marks = Some BlankLine.
Proof.
  cbv zeta.
  apply (@type_tree_is_written_between_blank_lines Sample.host
           "interfaces/readable.md"
           (Sample.topLevel Sample.storage Sample.readable)
           (Item (Sample.topLevel Sample.storage Sample.stream))
           (mkTreeNode (Item (Sample.topLevel Sample.storage Sample.readable))
              [mkTreeNode (Item (Sample.topLevel Sample.storage Sample.file)) [];
               mkTreeNode (Str "Closeable") []])
           [] false
           {| Emitter.writer := IndentedWriter.create;
              Emitter.insideTable := false; Emitter.listLevel := 0;
              Emitter.options := TableRows.noOptions |}).
  - reflexivity.
  - vm_compute. reflexivity.
Defined.

(** The text of that type tree, followed by a paragraph. *)
Example type_tree_text :
  Emitter.emit
    (Section
       [@_createTypeTree Sample.host "interfaces/readable.md"
          (Sample.topLevel Sample.storage Sample.readable)
          [mkTreeNode (Item (Sample.topLevel Sample.storage Sample.stream))
             [mkTreeNode (Item (Sample.topLevel Sample.storage Sample.readable))
                [mkTreeNode (Item (Sample.topLevel Sample.storage Sample.file)) [];
                 mkTreeNode (Str "Closeable") []]]];
        Paragraph [PlainText "b"]])
    TableRows.noOptions
  = Emitter.Ok (Text.nl +:+ "- [Stream](./stream.md)" +:+ Text.nl +:+
                "    - <b>Readable</b>" +:+ Text.nl +:+
                "        - [File](../classes/file.md)" +:+ Text.nl +:+
                "        - Closeable" +:+ Text.nl +:+ Text.nl +:+
                "b" +:+ Text.nl +:+ Text.nl).
Proof. vm_compute. reflexivity. Qed.
